(** * palettez: the theme store and its registry (src/palettez/src/index.ts)

    A shallow embedding of [ThemeStore] and [Registry], and the properties
    of the specification that concern them.

    Conventions of the embedding.
    - A JavaScript object used as a dictionary (the selection, the overrides,
      the keyed configuration, the media-query cache) is a [gmap] over its own
      string keys; [{...a, ...b}] is the left-biased union [b ∪ a].
      [Object.entries] is [map_to_list]: the order in which a dictionary is
      enumerated only fixes the order of the emitted effects and, when two
      selected options share a media query that is not yet cached, which of
      them attaches the [change] listener.
    - A read [obj[key]] of such a dictionary finds the own property [key]
      and, failing that, the member of [Object.prototype] of that name, if
      there is one ([inherited]): the reads of the keyed configuration and of
      the media-query cache follow this.  What the built-in members have as
      properties of their own is the engine's, and a parameter of the
      environment ([builtinHas]).  The prototype is taken as the language
      defines it, without additions by other code.
    - A write [obj[key] = v] creates or replaces the own property [key].
      This is not so for the key [__proto__], nor for a write through
      [keyedConfig[themeKey] || {}] when [themeKey] names a built-in member:
      such writes change the prototype chain or a built-in shared by the
      whole program.  The configurations the constructor is given are
      therefore the plain ones ([plainConfig]), and [updateSystemOption] is
      called with a dimension other than [__proto__].
    - The overrides object of a store is modelled by its content.  The
      constructor keeps the object [initialState.systemOptions] it is given
      and writes into it, and [getStateToPersist] hands out the store's own
      object: what a second holder of the same object sees or does is not
      modelled, and the statements about several stores say where they rely
      on the stores not having been handed each other's objects.
    - Private mutable fields are the fields of the record [ThemeStore]; a
      method is a computation in the monad [M], which threads the store,
      collects the observable effects (listener calls, warnings, calls to the
      storage backend) in a trace, and may throw.  A thrown exception keeps
      the mutations performed before it, as in JavaScript.
    - Subscriber callbacks are opaque observers identified by a number: calling
      one appends a [Notify] event to the trace, and does not call back into
      the store.
    - An [async] method runs synchronously up to its first [await]; the
      settlement of the awaited backend call is an argument of the method.
    - The storage adapter is known by the capabilities it offers; its [watch]
      attaches the handler under the store's abort signal, as the adapters of
      the package do.
    - A [MediaQueryList] is live: its [matches] is the current state of the
      query in the environment [Env]. *)

From stdpp Require Import base option list strings gmap fin_maps.

Open Scope string_scope.
Open Scope list_scope.

Definition PACKAGE_NAME : string := "palettez".

(** ** Property names every object inherits *)

(** The property names of [Object.prototype]. *)
Definition objectPrototypeNames : list string :=
  [ "constructor"; "__defineGetter__"; "__defineSetter__"; "hasOwnProperty";
    "__lookupGetter__"; "__lookupSetter__"; "isPrototypeOf"; "propertyIsEnumerable";
    "toString"; "valueOf"; "__proto__"; "toLocaleString" ].

(** [obj[key]] is defined on an object without an own property [key]. *)
Definition inherited (key : string) : bool :=
  existsb (String.eqb key) objectPrototypeNames.
Arguments inherited : simpl never.

(** ** Data model *)

(** [type ThemeOption = { value: string; media?: [string, string, string] }] *)
Record ThemeOption := mkOption {
  value : string;
  media : option (string * string * string)
}.

(** An element of [options: Array<string | ThemeOption>]. *)
Inductive OptionDecl :=
| OStr (s : string)
| OObj (o : ThemeOption).

(** One entry of [ThemeConfig]. *)
Record ThemeDecl := mkDecl {
  options : list OptionDecl;
  defaultOption : option string
}.

(** [ThemeConfig], as the list [Object.entries(config)]. *)
Definition ThemeConfig := list (string * ThemeDecl).

Abbreviation Themes := (gmap string string).

(** The resolved themes: the value of a dimension is a string or
    [undefined]. *)
Abbreviation Resolved := (gmap string (option string)).
Abbreviation SystemOptions := (gmap string (string * string)).
Abbreviation KeyedThemeConfig := (gmap string (gmap string ThemeOption)).

(** [PersistedState]: the field [version] is the constant 1. *)
Record PersistedState := mkPersisted {
  version : nat;
  themes : Themes;
  systemOptions : SystemOptions
}.

(** What [getItem] may hand back: an object with an own [version] property,
    of which [restore] reads [themes] and [systemOptions] (empty when
    absent), or an object without one, a bare selection (the legacy format).
    [Object.hasOwn(persistedState, 'version')] tells them apart, so a bare
    selection has no dimension named [version]. *)
Inductive Payload :=
| Versioned (p : PersistedState)
| Legacy (bare : Themes) (unversioned : bare !! "version" = None).

(** [initialState?: Partial<PersistedState<T>>] *)
Record InitialState := mkInitial {
  init_themes : option Themes;
  init_systemOptions : option SystemOptions
}.

(** A [MediaQueryList] created by this store: its query and the [change]
    listener attached to it, a closure over [themeKey] and [option.value]. *)
Record MediaQueryList := mkMql {
  mql_media : string;
  mql_onchange : option (string * string)
}.

(** The optional capabilities of the storage adapter. *)
Record StorageAdapter := mkStorage {
  has_watch : bool;
  has_broadcast : bool
}.

(** The private fields of [ThemeStore].  [opt_key] and [opt_config] are
    [#options.key] and [#options.config], [storeSystemOptions] is
    [#systemOptions], [storage] is [#storage], [aborted] is
    [#abortController.signal.aborted]; [watchSubs] are the [watch] handlers
    attached through [sync] and [watchSeq] numbers them. *)
Record ThemeStore := mkStore {
  defaultThemes : Themes;
  currentThemes : Themes;
  opt_key : string;
  opt_config : KeyedThemeConfig;
  storeSystemOptions : SystemOptions;
  storage : StorageAdapter;
  listeners : list nat;
  mediaQueryCache : gmap string MediaQueryList;
  aborted : bool;
  watchSubs : list nat;
  watchSeq : nat
}.

(** The environment: whether a [window] with a document exists, the current
    state of the media queries, and the engine's built-ins: [builtinHas d v]
    says that reading the property [v] of the member [d] of
    [Object.prototype] gives a value other than [undefined] and [null]. *)
Record Env := mkEnv {
  isClient : bool;
  mediaState : string -> bool;
  builtinHas : string -> string -> bool
}.

(** [window.matchMedia(q).matches].  The names of the members of
    [Object.prototype] are media types no device has: as media queries they
    never match. *)
Definition matches (env : Env) (q : string) : bool :=
  negb (inherited q) && mediaState env q.

Inductive Error :=
| TypeError
| NotFound (storeKey : string)
| Rejection (reason : string).

Inductive Result (A : Type) :=
| Ok (a : A)
| Throw (e : Error).
Arguments Ok {A} a.
Arguments Throw {A} e.

Inductive Event :=
| Warn (msg : string)
| MatchMedia (mediaQuery : string)
| Notify (listener : nat) (selection : Themes) (resolved : Resolved)
| GetItem (key : string)
| SetItem (key : string) (state : PersistedState)
| Broadcast (key : string) (state : PersistedState)
| Watch (sub : nat).

(** ** The monad of store methods *)

Record Outcome (A : Type) := mkOutcome {
  post : ThemeStore;
  trace : list Event;
  result : Result A
}.
Arguments mkOutcome {A} post trace result.
Arguments post {A} o.
Arguments trace {A} o.
Arguments result {A} o.

Definition M (A : Type) := ThemeStore -> Outcome A.

Definition ret {A} (a : A) : M A := fun s => mkOutcome s [] (Ok a).

Definition throw {A} (e : Error) : M A := fun s => mkOutcome s [] (Throw e).

Definition bind {A B} (m : M A) (k : A -> M B) : M B := fun s =>
  let o1 := m s in
  match result o1 with
  | Ok a =>
      let o2 := k a (post o1) in
      mkOutcome (post o2) (trace o1 ++ trace o2) (result o2)
  | Throw e => mkOutcome (post o1) (trace o1) (Throw e)
  end.

Definition gets {A} (f : ThemeStore -> A) : M A := fun s => mkOutcome s [] (Ok (f s)).

Definition modify (f : ThemeStore -> ThemeStore) : M unit :=
  fun s => mkOutcome (f s) [] (Ok tt).

Definition emit (e : Event) : M unit := fun s => mkOutcome s [e] (Ok tt).

Declare Scope store_scope.
Delimit Scope store_scope with store.
Notation "x <- m ;; k" := (bind m (fun x => k))
  (at level 100, m at next level, right associativity) : store_scope.
Notation "m ;; k" := (bind m (fun _ => k))
  (at level 100, right associativity) : store_scope.
Open Scope store_scope.

Fixpoint mapM {A B} (f : A -> M B) (l : list A) : M (list B) :=
  match l with
  | [] => ret []
  | x :: l' => y <- f x ;; ys <- mapM f l' ;; ret (y :: ys)
  end.

Fixpoint forM_ {A} (l : list A) (f : A -> M unit) : M unit :=
  match l with
  | [] => ret tt
  | x :: l' => f x ;; forM_ l' f
  end.

(** Field updates. *)
Definition with_currentThemes (t : Themes) (s : ThemeStore) : ThemeStore :=
  mkStore (defaultThemes s) t (opt_key s) (opt_config s) (storeSystemOptions s)
    (storage s) (listeners s) (mediaQueryCache s) (aborted s) (watchSubs s) (watchSeq s).

Definition with_systemOptions (o : SystemOptions) (s : ThemeStore) : ThemeStore :=
  mkStore (defaultThemes s) (currentThemes s) (opt_key s) (opt_config s) o
    (storage s) (listeners s) (mediaQueryCache s) (aborted s) (watchSubs s) (watchSeq s).

Definition with_listeners (l : list nat) (s : ThemeStore) : ThemeStore :=
  mkStore (defaultThemes s) (currentThemes s) (opt_key s) (opt_config s)
    (storeSystemOptions s) (storage s) l (mediaQueryCache s) (aborted s)
    (watchSubs s) (watchSeq s).

Definition with_cache (c : gmap string MediaQueryList) (s : ThemeStore) : ThemeStore :=
  mkStore (defaultThemes s) (currentThemes s) (opt_key s) (opt_config s)
    (storeSystemOptions s) (storage s) (listeners s) c (aborted s)
    (watchSubs s) (watchSeq s).

Definition with_watch (subs : list nat) (seq : nat) (s : ThemeStore) : ThemeStore :=
  mkStore (defaultThemes s) (currentThemes s) (opt_key s) (opt_config s)
    (storeSystemOptions s) (storage s) (listeners s) (mediaQueryCache s) (aborted s)
    subs seq.

(** [Object.fromEntries]: a later entry overrides an earlier one. *)
Definition fromEntries {V} (l : list (string * V)) : gmap string V :=
  foldl (fun m p => <[p.1 := p.2]> m) ∅ l.

(** ** Configuration helpers *)

Definition optionValue (d : OptionDecl) : string :=
  match d with
  | OStr s => s
  | OObj o => value o
  end.

(** [getThemesAndOptions] *)
Definition getThemesAndOptions (config : ThemeConfig) : list (string * list string) :=
  map (fun '(themeKey, d) => (themeKey, map optionValue (options d))) config.

(** [getDefaultThemes]: [options[0]!.value] throws on an empty option list
    when no [defaultOption] is given. *)
Definition defaultOptionValue (d : ThemeDecl) : Result string :=
  match defaultOption d with
  | Some v => Ok v
  | None =>
      match options d with
      | o :: _ => Ok (optionValue o)
      | [] => Throw TypeError
      end
  end.

Fixpoint defaultEntries (config : ThemeConfig) : Result (list (string * string)) :=
  match config with
  | [] => Ok []
  | (themeKey, d) :: rest =>
      match defaultOptionValue d with
      | Throw e => Throw e
      | Ok v =>
          match defaultEntries rest with
          | Throw e => Throw e
          | Ok l => Ok ((themeKey, v) :: l)
          end
      end
  end.

Definition getDefaultThemes (config : ThemeConfig) : Result Themes :=
  match defaultEntries config with
  | Ok l => Ok (fromEntries l)
  | Throw e => Throw e
  end.

(** ** The constructor *)

(** The body of [options.forEach].  When [initialState.systemOptions] is
    given, the local [systemOptions] is that very object, so the test
    [!initialState.systemOptions?.[themeKey]] reads the accumulator;
    when it is not given, the test is always true. *)
Definition keyOption (init : InitialState) (themeKey : string)
    (acc : gmap string ThemeOption * SystemOptions) (d : OptionDecl)
    : gmap string ThemeOption * SystemOptions :=
  match d with
  | OStr s => (<[s := mkOption s None]> (acc.1), acc.2)
  | OObj o =>
      let unset :=
        match init_systemOptions init with
        | None => true
        | Some _ => bool_decide (acc.2 !! themeKey = None)
        end in
      let sys :=
        match media o with
        | Some (_, ifMatch, ifNotMatch) =>
            if unset then <[themeKey := (ifMatch, ifNotMatch)]> (acc.2) else acc.2
        | None => acc.2
        end in
      (<[value o := o]> (acc.1), sys)
  end.

(** The body of [Object.entries(config).forEach]. *)
Definition keyTheme (init : InitialState)
    (acc : KeyedThemeConfig * SystemOptions) (entry : string * ThemeDecl)
    : KeyedThemeConfig * SystemOptions :=
  let themeKey := entry.1 in
  let r := foldl (keyOption init themeKey)
             (default ∅ (acc.1 !! themeKey), acc.2) (options (entry.2)) in
  (<[themeKey := r.1]> (acc.1), r.2).

Definition keyConfig (init : InitialState) (config : ThemeConfig)
    : KeyedThemeConfig * SystemOptions :=
  foldl (keyTheme init) (∅, default ∅ (init_systemOptions init)) config.

(** The configurations the constructor is modelled on: no dimension is
    named like a member of [Object.prototype], for which
    [keyedConfig[themeKey] || {}] is that member and the options would be
    written onto a built-in, and no option has the value [__proto__], for
    which the write would replace the prototype of the dimension's
    dictionary. *)
Definition plainConfig (config : ThemeConfig) : bool :=
  forallb (fun entry : string * ThemeDecl =>
             negb (inherited (entry.1)) &&
             forallb (fun d => negb (String.eqb (optionValue d) "__proto__"))
               (options (entry.2)))
    config.

Record ThemeStoreOptions := mkOptions {
  o_key : option string;
  o_config : ThemeConfig;
  o_initialState : InitialState;
  o_storage : StorageAdapter;
  o_plain : plainConfig o_config = true
}.

Definition construct (o : ThemeStoreOptions) : Result ThemeStore :=
  let keyed := keyConfig (o_initialState o) (o_config o) in
  match getDefaultThemes (o_config o) with
  | Throw e => Throw e
  | Ok defaults =>
      Ok (mkStore defaults
            (default ∅ (init_themes (o_initialState o)) ∪ defaults)
            (default PACKAGE_NAME (o_key o))
            (keyed.1) (keyed.2) (o_storage o) [] ∅ false [] 0)
  end.

(** ** Store methods *)

Definition getThemes : M Themes := gets currentThemes.

Definition dquote : string := String (Ascii.ascii_of_nat 34) "".

Definition serverWarning : string :=
  "[palettez] Option with key " +:+ dquote +:+ "media" +:+ dquote +:+
  " cannot be resolved in server environment.".

(** [#resolveThemeOption].  A listener added with an aborted signal is
    never attached.  For a media query that names a member of
    [Object.prototype] the read of the cache finds that member: nothing is
    registered, and its [matches] is undefined. *)
Definition resolveThemeOption (env : Env) (themeKey : string) (option : ThemeOption)
    : M string :=
  match media option with
  | None => ret (value option)
  | Some (mediaQuery, _, _) =>
      if negb (isClient env) then
        emit (Warn serverWarning) ;; ret (value option)
      else
        cache <- gets mediaQueryCache ;;
        match cache !! mediaQuery with
        | Some _ => ret tt
        | None =>
            if inherited mediaQuery then ret tt
            else
              emit (MatchMedia mediaQuery) ;;
              dead <- gets aborted ;;
              modify (with_cache
                (<[mediaQuery :=
                     mkMql mediaQuery
                       (if dead then None else Some (themeKey, value option))]> cache))
        end ;;
        sys <- gets storeSystemOptions ;;
        match sys !! themeKey with
        | None => throw TypeError
        | Some (ifMatch, ifNotMatch) =>
            ret (if matches env mediaQuery then ifMatch else ifNotMatch)
        end
  end.

(** What [this.#options.config[themeKey]![optionKey]!] finds where the
    constructor has filed no option: under a dimension that names a member
    of [Object.prototype], what that member has; under another dimension of
    the configuration, the members of [Object.prototype]; nothing
    otherwise. *)
Definition foundMember (env : Env) (config : KeyedThemeConfig)
    (themeKey optionKey : string) : bool :=
  if inherited themeKey then builtinHas env themeKey optionKey
  else
    match config !! themeKey with
    | Some _ => inherited optionKey
    | None => false
    end.

(** [#resolveThemeOption] on such a member: it has no [media] and no
    [value], so the resolved value is [undefined]; on nothing, the read of
    [media] throws. *)
Definition resolveMember (env : Env) (config : KeyedThemeConfig)
    (entry : string * string) : M (string * option string) :=
  if foundMember env config (entry.1) (entry.2) then ret (entry.1, None)
  else throw TypeError.

(** The callback mapped over [Object.entries(this.#currentThemes)]. *)
Definition resolveEntry (env : Env) (entry : string * string)
    : M (string * option string) :=
  config <- gets opt_config ;;
  match config !! entry.1 with
  | None => resolveMember env config entry
  | Some byOption =>
      match byOption !! entry.2 with
      | None => resolveMember env config entry
      | Some option =>
          resolved <- resolveThemeOption env (entry.1) option ;;
          ret (entry.1, Some resolved)
      end
  end.

(** [#resolveThemes] *)
Definition resolveThemes (env : Env) : M Resolved :=
  current <- gets currentThemes ;;
  entries <- mapM (resolveEntry env) (map_to_list current) ;;
  ret (fromEntries entries).

Definition getResolvedThemes (env : Env) : M Resolved := resolveThemes env.

(** The body of the loop of [#notify]. *)
Definition callListener (env : Env) (listener : nat) : M unit :=
  selection <- gets currentThemes ;;
  resolved <- resolveThemes env ;;
  emit (Notify listener selection resolved).

(** [#notify] *)
Definition notify (env : Env) : M unit :=
  ls <- gets listeners ;;
  forM_ ls (callListener env).

(** [#setThemesAndNotify] *)
Definition setThemesAndNotify (env : Env) (t : Themes) : M unit :=
  modify (with_currentThemes t) ;;
  notify env.

(** [getStateToPersist] *)
Definition getStateToPersist : M PersistedState :=
  current <- gets currentThemes ;;
  sys <- gets storeSystemOptions ;;
  ret (mkPersisted 1 current sys).

(** The argument of [setThemes]: a partial selection or an updater. *)
Inductive ThemesArg :=
| Partial (p : Themes)
| Updater (f : Themes -> Themes).

(** How an awaited backend call settles. *)
Inductive Settled (A : Type) :=
| Fulfilled (a : A)
| Rejected (reason : string).
Arguments Fulfilled {A} a.
Arguments Rejected {A} reason.

(** [setThemes]; [settled] is the settlement of [storage.setItem]. *)
Definition setThemes (env : Env) (arg : ThemesArg) (settled : Settled unit) : M unit :=
  current <- gets currentThemes ;;
  let updatedThemes :=
    match arg with
    | Partial p => p
    | Updater f => f current
    end in
  setThemesAndNotify env (updatedThemes ∪ current) ;;
  stateToPersist <- getStateToPersist ;;
  key <- gets opt_key ;;
  emit (SetItem key stateToPersist) ;;
  match settled with
  | Rejected reason => throw (Rejection reason)
  | Fulfilled _ =>
      st <- gets storage ;;
      if has_broadcast st then emit (Broadcast key stateToPersist) else ret tt
  end.

(** A callback whose exception does not reach the code that triggered it
    (an event listener, a promise nobody awaits). *)
Definition detached (m : M unit) : M unit := fun s =>
  let o := m s in mkOutcome (post o) (trace o) (Ok tt).

(** [updateSystemOption]: the promise of the inner [setThemes] is dropped. *)
Definition updateSystemOption (env : Env) (themeKey : string) (pair : string * string)
    (settled : Settled unit) : M unit :=
  sys <- gets storeSystemOptions ;;
  modify (with_systemOptions (<[themeKey := pair]> sys)) ;;
  current <- gets currentThemes ;;
  detached (setThemes env (Partial current) settled).

(** [restore], after [await this.#storage.getItem(...)] has settled. *)
Definition restoreResume (env : Env) (got : Settled (option Payload)) : M unit :=
  match got with
  | Rejected reason => throw (Rejection reason)
  | Fulfilled None =>
      defaults <- gets defaultThemes ;;
      setThemesAndNotify env defaults
  | Fulfilled (Some payload) =>
      sys <- gets storeSystemOptions ;;
      let persistedState :=
        match payload with
        | Versioned p => p
        | Legacy bare _ => mkPersisted 1 bare sys
        end in
      modify (with_systemOptions (systemOptions persistedState ∪ sys)) ;;
      defaults <- gets defaultThemes ;;
      setThemesAndNotify env (themes persistedState ∪ defaults)
  end.

Definition restore (env : Env) (got : Settled (option Payload)) : M unit :=
  key <- gets opt_key ;;
  emit (GetItem key) ;;
  restoreResume env got.

(** [Set.prototype.add] *)
Definition setAdd (x : nat) (l : list nat) : list nat :=
  if bool_decide (x ∈ l) then l else l ++ [x].

(** [Set.prototype.delete] *)
Definition setDelete (x : nat) (l : list nat) : list nat :=
  filter (fun y => y ≠ x) l.

(** [subscribe] *)
Definition subscribe (env : Env) (callback : nat) (immediate : bool) : M unit :=
  (if immediate then
     selection <- gets currentThemes ;;
     resolved <- resolveThemes env ;;
     emit (Notify callback selection resolved)
   else ret tt) ;;
  ls <- gets listeners ;;
  modify (with_listeners (setAdd callback ls)).

(** The function returned by [subscribe]. *)
Definition unsubscribe (callback : nat) : M unit :=
  ls <- gets listeners ;;
  modify (with_listeners (setDelete callback ls)).

Definition noWatchWarning : string :=
  "[palettez] No watch method was provided for storage.".

(** [sync]: the result is the handle of the cancellation function.  The
    adapters attach the handler under the store's abort signal combined with
    a controller of their own. *)
Definition sync : M (option nat) :=
  st <- gets storage ;;
  if negb (has_watch st) then
    emit (Warn noWatchWarning) ;; ret None
  else
    sub <- gets watchSeq ;;
    subs <- gets watchSubs ;;
    dead <- gets aborted ;;
    emit (Watch sub) ;;
    modify (with_watch (if dead then subs else subs ++ [sub]) (S sub)) ;;
    ret (Some sub).

(** The function returned by [sync]. *)
Definition cancelSync (sub : nat) : M unit :=
  subs <- gets watchSubs ;;
  seq <- gets watchSeq ;;
  modify (with_watch (setDelete sub subs) seq).

(** The callback [sync] hands to [storage.watch]. *)
Definition syncHandler (env : Env) (key : option string) (persistedState : PersistedState)
    : M unit :=
  own <- gets opt_key ;;
  if bool_decide (key = Some own) then
    modify (with_systemOptions (systemOptions persistedState)) ;;
    setThemesAndNotify env (themes persistedState)
  else ret tt.

(** An external change reaches every handler still attached. *)
Definition watchEvent (env : Env) (key : option string) (persistedState : PersistedState)
    : M unit :=
  subs <- gets watchSubs ;;
  forM_ subs (fun _ => detached (syncHandler env key persistedState)).

(** The [change] listener of [#resolveThemeOption]. *)
Definition onChange (env : Env) (closure : string * string) : M unit :=
  current <- gets currentThemes ;;
  if bool_decide (current !! closure.1 = Some (closure.2)) then
    setThemesAndNotify env current
  else ret tt.

(** A [change] event of the media query [mediaQuery]. *)
Definition mediaChange (env : Env) (mediaQuery : string) : M unit :=
  cache <- gets mediaQueryCache ;;
  match cache !! mediaQuery with
  | Some mql =>
      match mql_onchange mql with
      | Some closure => detached (onChange env closure)
      | None => ret tt
      end
  | None => ret tt
  end.

(** The environment after the media query [mediaQuery] has flipped. *)
Definition flipEnv (mediaQuery : string) (env : Env) : Env :=
  mkEnv (isClient env)
    (fun q => if String.eqb q mediaQuery then negb (mediaState env q)
              else mediaState env q)
    (builtinHas env).

(** A predicate flip as the store sees it. *)
Definition flip (env : Env) (mediaQuery : string) : M unit :=
  mediaChange (flipEnv mediaQuery env) mediaQuery.

(** [abortController.abort()]: every listener attached under the signal goes. *)
Definition abort (s : ThemeStore) : ThemeStore :=
  mkStore (defaultThemes s) (currentThemes s) (opt_key s) (opt_config s)
    (storeSystemOptions s) (storage s) (listeners s)
    ((fun m => mkMql (mql_media m) None) <$> mediaQueryCache s)
    true [] (watchSeq s).

(** [_destroy] *)
Definition _destroy : M unit :=
  modify (with_listeners []) ;;
  modify abort.

(** ** The registry *)

(** [Map<string, ThemeStore>] holds references: [objects] gives every store
    ever constructed by the registry its state, [nextRef] is the next free
    reference. *)
Record Registry := mkRegistry {
  registry : gmap string nat;
  objects : gmap nat ThemeStore;
  nextRef : nat
}.

(** [key || PACKAGE_NAME]: a missing or empty key is the package name. *)
Definition storeKeyOf (key : option string) : string :=
  match key with
  | Some k => if bool_decide (k = "") then PACKAGE_NAME else k
  | None => PACKAGE_NAME
  end.

Definition notFound {A} (storeKey : string) (R : Registry) : Registry * Result A :=
  (R, Throw (NotFound storeKey)).

(** [Registry.get] *)
Definition get (key : option string) (R : Registry) : Registry * Result nat :=
  let storeKey := storeKeyOf key in
  match registry R !! storeKey with
  | None => notFound storeKey R
  | Some ref => (R, Ok ref)
  end.

(** [Registry.destroy] *)
Definition destroy (key : option string) (R : Registry) : Registry * Result unit :=
  let storeKey := storeKeyOf key in
  match registry R !! storeKey with
  | None => notFound storeKey R
  | Some ref =>
      (mkRegistry (delete storeKey (registry R))
         (alter (fun s => post (_destroy s)) ref (objects R))
         (nextRef R),
       Ok tt)
  end.

(** [Registry.create] *)
Definition create (o : ThemeStoreOptions) (R : Registry) : Registry * Result nat :=
  let storeKey := storeKeyOf (o_key o) in
  let R1 :=
    match registry R !! storeKey with
    | Some _ => (destroy (Some storeKey) R).1
    | None => R
    end in
  match construct o with
  | Throw e => (R1, Throw e)
  | Ok themeStore =>
      (mkRegistry (<[storeKey := nextRef R1]> (registry R1))
         (<[nextRef R1 := themeStore]> (objects R1))
         (S (nextRef R1)),
       Ok (nextRef R1))
  end.

Definition emptyRegistry : Registry := mkRegistry ∅ ∅ 0.

(** * Vocabulary of the statements *)

(** ** Reading a trace *)

(** The listener calls of a trace, in order. *)
Definition notifications (t : list Event) : list (nat * Themes * Resolved) :=
  omap (fun e => match e with
                 | Notify l selection resolved => Some (l, selection, resolved)
                 | _ => None
                 end) t.

(** The calls to the storage backend of a trace, in order. *)
Definition storageCalls (t : list Event) : list Event :=
  omap (fun e => match e with
                 | GetItem _ | SetItem _ _ | Broadcast _ _ => Some e
                 | _ => None
                 end) t.

(** ** The value of a resolution

    What [#resolveThemeOption] and [#resolveThemes] return depends on the
    store only through the configuration, the overrides and the selection:
    the media-query cache holds live [MediaQueryList]s, whose [matches] is
    the state of the environment. *)

(** The value of [#resolveThemeOption]. *)
Definition optionOutcome (env : Env) (sys : SystemOptions) (themeKey : string)
    (option : ThemeOption) : Result string :=
  match media option with
  | None => Ok (value option)
  | Some (mediaQuery, _, _) =>
      if negb (isClient env) then Ok (value option)
      else
        match sys !! themeKey with
        | None => Throw TypeError
        | Some (ifMatch, ifNotMatch) =>
            Ok (if matches env mediaQuery then ifMatch else ifNotMatch)
        end
  end.

(** The value of [#resolveThemeOption] on what is found where no option is
    filed. *)
Definition memberOutcome (env : Env) (config : KeyedThemeConfig)
    (entry : string * string) : Result (string * option string) :=
  if foundMember env config (entry.1) (entry.2) then Ok (entry.1, None)
  else Throw TypeError.

(** The value of the callback of [#resolveThemes] on one entry. *)
Definition entryOutcome (env : Env) (config : KeyedThemeConfig) (sys : SystemOptions)
    (entry : string * string) : Result (string * option string) :=
  match config !! entry.1 with
  | None => memberOutcome env config entry
  | Some byOption =>
      match byOption !! entry.2 with
      | None => memberOutcome env config entry
      | Some option =>
          match optionOutcome env sys (entry.1) option with
          | Ok resolved => Ok (entry.1, Some resolved)
          | Throw e => Throw e
          end
      end
  end.

(** [Array.prototype.map] with a callback that may throw. *)
Fixpoint mapR {A B} (f : A -> Result B) (l : list A) : Result (list B) :=
  match l with
  | [] => Ok []
  | x :: l' =>
      match f x with
      | Throw e => Throw e
      | Ok y =>
          match mapR f l' with
          | Throw e => Throw e
          | Ok ys => Ok (y :: ys)
          end
      end
  end.

(** The value of [#resolveThemes]. *)
Definition resolution (env : Env) (s : ThemeStore) : Result Resolved :=
  match mapR (entryOutcome env (opt_config s) (storeSystemOptions s))
          (map_to_list (currentThemes s)) with
  | Ok entries => Ok (fromEntries entries)
  | Throw e => Throw e
  end.

(** [frame s s']: [s'] is [s] up to the media-query cache. *)
Definition frame (s s' : ThemeStore) : Prop :=
  exists c, s' = with_cache c s.

(** A trace made of warnings and media-query registrations only. *)
Definition quiet (t : list Event) : Prop :=
  notifications t = [] /\ storageCalls t = [].

(** Every option of the keyed configuration is filed under its own value. *)
Definition keyedByValue (config : KeyedThemeConfig) : Prop :=
  forall d byOption v o,
    config !! d = Some byOption -> byOption !! v = Some o -> value o = v.

(** The same for the options of one dimension. *)
Definition filedByValue (byOption : gmap string ThemeOption) : Prop :=
  forall v o, byOption !! v = Some o -> value o = v.

(** Every dimension with an environment-derived option has an override
    pair. *)
Definition overridesSeeded (config : KeyedThemeConfig) (sys : SystemOptions) : Prop :=
  forall d byOption v o,
    config !! d = Some byOption -> byOption !! v = Some o -> is_Some (media o) ->
    is_Some (sys !! d).

(** The store has the keyed configuration [config] and its overrides cover
    it. *)
Definition seeded (config : KeyedThemeConfig) (s : ThemeStore) : Prop :=
  opt_config s = config /\ overridesSeeded config (storeSystemOptions s).

(** ** Selections inside the configuration *)

(** The option the constructor has filed under the dimension [d] and the
    value [v], if any. *)
Definition selectedOption (s : ThemeStore) (d v : string) : option ThemeOption :=
  match opt_config s !! d with
  | Some byOption => byOption !! v
  | None => None
  end.

(** Where no option is filed under [d] and [v], the lookup
    [this.#options.config[d]![v]!] of the store still finds something: a
    member of [Object.prototype], or a property of one. *)
Definition memberFound (env : Env) (s : ThemeStore) (d v : string) : bool :=
  foundMember env (opt_config s) d v.

(** Every dimension of the selection is configured and its selected value
    is one of its options. *)
Definition withinConfig (s : ThemeStore) : bool :=
  forallb (fun entry => bool_decide (is_Some (selectedOption s (entry.1) (entry.2))))
    (map_to_list (currentThemes s)).

(** Where media queries can be evaluated, every dimension whose selected
    option is environment-derived has an override pair. *)
Definition overridesCover (env : Env) (s : ThemeStore) : bool :=
  negb (isClient env) ||
  forallb (fun entry =>
             match selectedOption s (entry.1) (entry.2) with
             | Some o =>
                 match media o with
                 | Some _ => bool_decide (is_Some (storeSystemOptions s !! entry.1))
                 | None => true
                 end
             | None => true
             end)
    (map_to_list (currentThemes s)).

(** ** A running example: the configuration of the package's tests *)

Definition darkQuery : string := "(prefers-color-scheme: dark)".

Definition demoConfig : ThemeConfig :=
  [ ("colorScheme",
     mkDecl [ OObj (mkOption "system" (Some (darkQuery, "dark", "light")));
              OStr "light"; OStr "light-modern"; OStr "dark"; OStr "dark-modern" ]
       None);
    ("contrast", mkDecl [ OStr "standard"; OStr "high" ] None) ].

Definition noInitialState : InitialState := mkInitial None None.

Definition demoOptions : ThemeStoreOptions :=
  mkOptions (Some "palettez") demoConfig noInitialState (mkStorage true false) eq_refl.

Definition blankStore : ThemeStore :=
  mkStore ∅ ∅ PACKAGE_NAME ∅ ∅ (mkStorage false false) [] ∅ false [] 0.

(** The store a successful [new ThemeStore(o)] yields. *)
Definition constructed (o : ThemeStoreOptions) : ThemeStore :=
  match construct o with
  | Ok s => s
  | Throw _ => blankStore
  end.

Definition demoStore : ThemeStore := constructed demoOptions.

(** What the members of [Object.prototype] have in an engine of
    ECMAScript 2024.  All but [__proto__] are functions, with [length],
    [name] and what [Function.prototype] and [Object.prototype] give
    ([caller] and [arguments] throw when read); [constructor] is [Object],
    with its static methods; [__proto__], read on a dictionary, is
    [Object.prototype] itself, whose own [__proto__] is [null]. *)
Definition functionMembers : list string := [ "length"; "name"; "apply"; "bind"; "call" ].

Definition objectStatics : list string :=
  [ "prototype"; "assign"; "create"; "defineProperties"; "defineProperty"; "entries";
    "freeze"; "fromEntries"; "getOwnPropertyDescriptor"; "getOwnPropertyDescriptors";
    "getOwnPropertyNames"; "getOwnPropertySymbols"; "getPrototypeOf"; "groupBy";
    "hasOwn"; "is"; "isExtensible"; "isFrozen"; "isSealed"; "keys";
    "preventExtensions"; "seal"; "setPrototypeOf"; "values" ].

Definition engineBuiltins (d v : string) : bool :=
  if String.eqb d "__proto__" then inherited v && negb (String.eqb v "__proto__")
  else
    inherited v || existsb (String.eqb v) functionMembers ||
    (String.eqb d "constructor" && existsb (String.eqb v) objectStatics).

(** A browser whose system colour scheme is light, and one that is dark. *)
Definition lightEnv : Env := mkEnv true (fun _ => false) engineBuiltins.
Definition darkEnv : Env := mkEnv true (fun _ => true) engineBuiltins.

(** Resolved themes none of which is [undefined]. *)
Definition defined (t : Themes) : Resolved := Some <$> t.

(** The persisted state of the package's tests. *)
Definition modernState : PersistedState :=
  mkPersisted 1 {[ "colorScheme" := "system"; "contrast" := "high" ]}
    {[ "colorScheme" := ("dark-modern", "light-modern") ]}.

(** ** What [setThemes], [restore] and [sync] work with *)

(** The partial selection [setThemes] merges. *)
Definition updateOf (arg : ThemesArg) (s : ThemeStore) : Themes :=
  match arg with
  | Partial p => p
  | Updater f => f (currentThemes s)
  end.

(** The selection after the merge [{ ...this.#currentThemes, ...updatedThemes }]. *)
Definition mergedThemes (arg : ThemesArg) (s : ThemeStore) : Themes :=
  updateOf arg s ∪ currentThemes s.

(** A store with one subscriber, and an update of one dimension. *)
Definition watchedStore : ThemeStore := post (subscribe lightEnv 7 false demoStore).

Definition highContrast : ThemesArg := Partial {[ "contrast" := "high" ]}.

(** An outcome with one more event in front. *)
Definition prefixed {A} (e : Event) (o : Outcome A) : Outcome A :=
  mkOutcome (post o) (e :: trace o) (result o).

(** The versioned state [restore] works with: a bare selection is wrapped
    together with the current overrides. *)
Definition upgraded (payload : Payload) (s : ThemeStore) : PersistedState :=
  match payload with
  | Versioned p => p
  | Legacy bare _ => mkPersisted 1 bare (storeSystemOptions s)
  end.

(** The store [restore] notifies about. *)
Definition restored (persisted : option Payload) (s : ThemeStore) : ThemeStore :=
  match persisted with
  | None => with_currentThemes (defaultThemes s) s
  | Some payload =>
      with_currentThemes (themes (upgraded payload s) ∪ defaultThemes s)
        (with_systemOptions
           (systemOptions (upgraded payload s) ∪ storeSystemOptions s) s)
  end.

(** A legacy payload. *)
Definition legacyDark : Themes := {[ "colorScheme" := "dark" ]}.

(** A legacy payload with a colour scheme the configuration does not have. *)
Definition legacySepia : Themes := {[ "colorScheme" := "sepia" ]}.

(** A persisted state whose selection names no configured option. *)
Definition sepiaState : PersistedState := mkPersisted 1 legacySepia ∅.

(** The listener calls of one notification pass over the selection [t],
    seen from the store [s'] the pass leaves: every subscriber of [ls] once,
    in order, with [t] and its resolution; none at all when [t] does not
    resolve, the argument of the first call failing to be built. *)
Definition passCalls (env : Env) (t : Themes) (ls : list nat) (s' : ThemeStore)
    : list (nat * Themes * Resolved) :=
  match result (getResolvedThemes env s') with
  | Ok r => (fun l => (l, t, r)) <$> ls
  | Throw _ => []
  end.

(** What such a pass returns: it throws a TypeError when the selection
    does not resolve and there is a subscriber to call. *)
Definition passResult (env : Env) (ls : list nat) (s' : ThemeStore) : Result unit :=
  match result (getResolvedThemes env s'), ls with
  | Throw _, _ :: _ => Throw TypeError
  | _, _ => Ok tt
  end.

(** C6's last sentence as stated: [restore] ends with the notification of
    every subscriber. *)
Definition restoreNotifies (env : Env) (s : ThemeStore) (persisted : option Payload)
    : Prop :=
  (fun x : nat * Themes * Resolved => x.1.1) <$>
    notifications (trace (restore env (Fulfilled persisted) s)) = listeners s.

(** [sync] merging the way [restore] does: an event for the store's own
    key leaves the selection and the overrides that [restore] would leave on
    the same payload. *)
Definition syncMergesLikeRestore (env : Env) (s : ThemeStore) (p : PersistedState) : Prop :=
  let viaSync := post (syncHandler env (Some (opt_key s)) p s) in
  let viaRestore := post (restoreResume env (Fulfilled (Some (Versioned p))) s) in
  currentThemes viaSync = currentThemes viaRestore /\
  storeSystemOptions viaSync = storeSystemOptions viaRestore.

(** A payload written by a peer that only knows the contrast dimension. *)
Definition contrastOnly : PersistedState :=
  mkPersisted 1 {[ "contrast" := "high" ]} ∅.

(** The snapshot a peer with the same configuration persists after
    choosing high contrast. *)
Definition peerSnapshot : PersistedState :=
  mkPersisted 1 {[ "colorScheme" := "system"; "contrast" := "high" ]}
    {[ "colorScheme" := ("dark", "light") ]}.

(** Totality inside the configuration alone: whenever the selection lies
    inside the configuration, [getResolvedThemes] returns. *)
Definition totalWithinConfig (env : Env) (s : ThemeStore) : Prop :=
  withinConfig s = true -> exists r, result (getResolvedThemes env s) = Ok r.

(** A snapshot written by a peer whose configuration has no
    environment-derived option: it carries no override pair. *)
Definition noOverrides : PersistedState :=
  mkPersisted 1 {[ "colorScheme" := "system"; "contrast" := "standard" ]} ∅.

(** The store after that snapshot has arrived through [sync]. *)
Definition syncedStore : ThemeStore :=
  post (syncHandler lightEnv (Some "palettez") noOverrides demoStore).


(** A colour scheme named like a member of [Object.prototype], and the demo
    store after it has been set; nobody is subscribed. *)
Definition namedConstructor : ThemesArg := Partial {[ "colorScheme" := "constructor" ]}.

Definition constructorStore : ThemeStore :=
  post (setThemes lightEnv namedConstructor (Fulfilled tt) demoStore).

(** An update to a colour scheme the configuration does not have. *)
Definition sepia : ThemesArg := Partial {[ "colorScheme" := "sepia" ]}.

(** Two dimensions whose environment-derived options share one media query. *)
Definition sharedConfig : ThemeConfig :=
  [ ("colorScheme",
     mkDecl [ OObj (mkOption "system" (Some (darkQuery, "dark", "light")));
              OStr "light" ] None);
    ("accent",
     mkDecl [ OStr "plain";
              OObj (mkOption "auto" (Some (darkQuery, "vivid", "muted"))) ] None) ].

Definition sharedOptions : ThemeStoreOptions :=
  mkOptions (Some "shared") sharedConfig noInitialState (mkStorage true false) eq_refl.

(** A subscriber joins with [immediate: true] while the defaults are
    selected, then the user picks a fixed colour scheme and the automatic
    accent. *)
Definition sharedStore : ThemeStore :=
  post
    ((subscribe lightEnv 7 true ;;
      setThemes lightEnv
        (Partial {[ "colorScheme" := "light"; "accent" := "auto" ]}) (Fulfilled tt))
       (constructed sharedOptions)).

(** ** Invariants of store methods *)

(** [inv I m]: the method [m] leaves a store satisfying [I] in a store
    satisfying [I], whether it returns or throws. *)
Definition inv {A} (I : ThemeStore -> Prop) (m : M A) : Prop :=
  forall s, I s -> I (post (m s)).

(** The key of the store is [k] and, if [b], the abort signal has fired. *)
Definition keeps (k : string) (b : bool) (s : ThemeStore) : Prop :=
  opt_key s = k /\ (b = true -> aborted s = true).

(** [dead s]: the abort signal has fired, no [watch] handler is attached
    and no [MediaQueryList] of the cache carries a [change] listener. *)
Definition dead (s : ThemeStore) : Prop :=
  aborted s = true /\ watchSubs s = [] /\
  map_Forall (fun _ m => mql_onchange m = None) (mediaQueryCache s).

(** The store [_destroy] leaves. *)
Definition destroyed (s : ThemeStore) : ThemeStore := abort (with_listeners [] s).

(** ** The registry and the stores it has handed out *)

(** A method call on the store behind a reference. *)
Definition onObject (ref : nat) (f : ThemeStore -> ThemeStore) (R : Registry) : Registry :=
  mkRegistry (registry R) (alter f ref (objects R)) (nextRef R).

(** What a holder of a store can do with it, and the events that reach it. *)
Inductive Call :=
| CallGetResolvedThemes (env : Env)
| CallSetThemes (env : Env) (arg : ThemesArg) (settled : Settled unit)
| CallUpdateSystemOption (env : Env) (themeKey : string) (pair : string * string)
    (settled : Settled unit)
| CallRestore (env : Env) (got : Settled (option Payload))
| CallSubscribe (env : Env) (callback : nat) (immediate : bool)
| CallUnsubscribe (callback : nat)
| CallSync
| CallCancelSync (sub : nat)
| CallDestroy
| EventMediaChange (env : Env) (mediaQuery : string)
| EventWatch (env : Env) (key : option string) (persistedState : PersistedState).

(** The store a call leaves. *)
Definition perform (c : Call) (s : ThemeStore) : ThemeStore :=
  match c with
  | CallGetResolvedThemes env => post (getResolvedThemes env s)
  | CallSetThemes env arg settled => post (setThemes env arg settled s)
  | CallUpdateSystemOption env themeKey outcomes settled =>
      post (updateSystemOption env themeKey outcomes settled s)
  | CallRestore env got => post (restore env got s)
  | CallSubscribe env callback immediate => post (subscribe env callback immediate s)
  | CallUnsubscribe callback => post (unsubscribe callback s)
  | CallSync => post (sync s)
  | CallCancelSync sub => post (cancelSync sub s)
  | CallDestroy => post (_destroy s)
  | EventMediaChange env q => post (mediaChange env q s)
  | EventWatch env key p => post (watchEvent env key p s)
  end.

(** The registries a program can reach. *)
Inductive reachable : Registry -> Prop :=
| reach_empty : reachable emptyRegistry
| reach_create o R : reachable R -> reachable (create o R).1
| reach_destroy key R : reachable R -> reachable (destroy key R).1
| reach_call ref c R : reachable R -> reachable (onObject ref (perform c) R).

(** The key a store is registered under, from its own key. *)
Definition registeredKey (s : ThemeStore) : string := storeKeyOf (Some (opt_key s)).

(** Every entry of the registry refers to a store of that key, references
    are below [nextRef], and a store that has not been destroyed is the one
    registered under its key. *)
Record regWf (R : Registry) : Prop := mkRegWf {
  wf_registered : forall k ref, registry R !! k = Some ref ->
    exists s, objects R !! ref = Some s /\ registeredKey s = k;
  wf_bound : forall ref s, objects R !! ref = Some s -> ref < nextRef R;
  wf_live : forall ref s, objects R !! ref = Some s -> aborted s = false ->
    registry R !! registeredKey s = Some ref
}.

(** The registry [create] works on after the replaced store, if any, is
    destroyed. *)
Definition vacated (o : ThemeStoreOptions) (R : Registry) : Registry :=
  match registry R !! storeKeyOf (o_key o) with
  | Some _ => (destroy (Some (storeKeyOf (o_key o))) R).1
  | None => R
  end.

(** A registry holding the store of the running example. *)
Definition demoRegistry : Registry := (create demoOptions emptyRegistry).1.

(** A destroy that can be invoked twice without throwing and that takes the
    store out of the registry.  Either it is [Registry.destroy], which then
    must not throw the second time, or it is the store's own [_destroy],
    which then must remove the registry entry. *)
Definition destroyTwiceAndUnregister (R : Registry) (key : option string) (ref : nat)
    : Prop :=
  ((destroy key R).2 = Ok tt /\ (destroy key (destroy key R).1).2 = Ok tt) \/
  registry (onObject ref (perform CallDestroy) R) !! storeKeyOf key = None.

(** * Vocabulary of the further properties *)

(** ** Configurations *)

(** The option record the constructor files a declared option under. *)
Definition declaredOption (d : OptionDecl) : ThemeOption :=
  match d with
  | OStr s => mkOption s None
  | OObj o => o
  end.

(** The keyed configuration has the option [v] for the dimension [k]. *)
Definition selectable (keyed : KeyedThemeConfig) (k v : string) : Prop :=
  exists byOption, keyed !! k = Some byOption /\ is_Some (byOption !! v).

(** Every explicit [defaultOption] is one of the declared options of its
    dimension. *)
Definition defaultsDeclared (config : ThemeConfig) : bool :=
  forallb (fun entry =>
             match defaultOption (entry.2) with
             | Some v => bool_decide (v ∈ optionValue <$> options (entry.2))
             | None => true
             end) config.

(** The dimension names of a configuration are distinct, as the keys of a
    JavaScript object are. *)
Definition distinctKeys (config : ThemeConfig) : bool :=
  bool_decide (NoDup (config.*1)).

(** A configuration whose default is not one of its options. *)
Definition strayDefault : ThemeStoreOptions :=
  mkOptions None [("contrast", mkDecl [OStr "standard"; OStr "high"] (Some "low"))]
    noInitialState (mkStorage false false) eq_refl.

(** An override pair of the constructed store is either the one of
    [initialState] or the pair a media option of the dimension declares. *)
Definition pairOrigin (o : ThemeStoreOptions) (d : string) (p : string * string) : Prop :=
  (exists given, init_systemOptions (o_initialState o) = Some given /\ given !! d = Some p) \/
  (exists decl opt q, (d, decl) ∈ o_config o /\ OObj opt ∈ options decl /\
                      media opt = Some (q, p.1, p.2)).


(** The options of the tests with an initial pair for the colour scheme. *)
Definition modernOptions : ThemeStoreOptions :=
  mkOptions (Some "palettez") demoConfig
    (mkInitial (Some (themes modernState)) (Some (systemOptions modernState)))
    (mkStorage true false) eq_refl.

(** ** Sequences of calls *)

(** The store a sequence of calls and events leaves. *)
Definition runCalls (cs : list Call) (s : ThemeStore) : ThemeStore :=
  foldl (fun s c => perform c s) s cs.

(** A call that is not an external storage event. *)
Definition notWatchEvent (c : Call) : bool :=
  match c with
  | EventWatch _ _ _ => false
  | _ => true
  end.

(** What a store is constructed with and never assigns again. *)
Definition fixedFields (s : ThemeStore)
    : Themes * string * KeyedThemeConfig * StorageAdapter :=
  (defaultThemes s, opt_key s, opt_config s, storage s).

(** The selection has a value for every dimension that has a default. *)
Definition everyDimensionSelected (s : ThemeStore) : Prop :=
  forall d, is_Some (defaultThemes s !! d) -> is_Some (currentThemes s !! d).

(** The overrides have a pair for every dimension in [D]. *)
Definition hasPairs (D : string -> Prop) (s : ThemeStore) : Prop :=
  forall d, D d -> is_Some (storeSystemOptions s !! d).

(** The defaults are [D] and the selection has a value for each of their
    dimensions. *)
Definition selectedFrom (D : Themes) (s : ThemeStore) : Prop :=
  defaultThemes s = D /\ forall d, is_Some (D !! d) -> is_Some (currentThemes s !! d).

(** The dimension [d] declares an option with a media triple. *)
Definition mediaDimension (config : ThemeConfig) (d : string) : Prop :=
  exists decl opt, (d, decl) ∈ config /\ OObj opt ∈ options decl /\ is_Some (media opt).

(** The options a store is constructed with again, from a persisted state:
    the [initialState] of the README. *)
Definition optionsFrom (o : ThemeStoreOptions) (state : PersistedState) : ThemeStoreOptions :=
  mkOptions (o_key o) (o_config o)
    (mkInitial (Some (themes state)) (Some (systemOptions state))) (o_storage o)
    (o_plain o).

(** ** What a sequence of calls emits *)

(** The events of the call [c] on the store [s]. *)
Definition traceOf (c : Call) (s : ThemeStore) : list Event :=
  match c with
  | CallGetResolvedThemes env => trace (getResolvedThemes env s)
  | CallSetThemes env arg settled => trace (setThemes env arg settled s)
  | CallUpdateSystemOption env themeKey outcomes settled =>
      trace (updateSystemOption env themeKey outcomes settled s)
  | CallRestore env got => trace (restore env got s)
  | CallSubscribe env callback immediate => trace (subscribe env callback immediate s)
  | CallUnsubscribe callback => trace (unsubscribe callback s)
  | CallSync => trace (sync s)
  | CallCancelSync sub => trace (cancelSync sub s)
  | CallDestroy => trace (_destroy s)
  | EventMediaChange env q => trace (mediaChange env q s)
  | EventWatch env key p => trace (watchEvent env key p s)
  end.

(** The events of a sequence of calls, in order. *)
Fixpoint history (cs : list Call) (s : ThemeStore) : list Event :=
  match cs with
  | [] => []
  | c :: cs' => traceOf c s ++ history cs' (perform c s)
  end.

(** [m] keeps the invariant [I] and emits only events in [T]. *)
Definition emits {A} (I : ThemeStore -> Prop) (T : Event -> Prop) (m : M A) : Prop :=
  forall s, I s -> I (post (m s)) /\ Forall T (trace (m s)).

(** The call subscribes the callback [l]. *)
Definition subscribes (l : nat) (c : Call) : bool :=
  match c with
  | CallSubscribe _ callback _ => bool_decide (callback = l)
  | _ => false
  end.

(** The call is one of the two methods that persist. *)
Definition persists (c : Call) : bool :=
  match c with
  | CallSetThemes _ _ _ | CallUpdateSystemOption _ _ _ _ => true
  | _ => false
  end.

(** The event is not a call of the callback [l]. *)
Definition notCalling (l : nat) (e : Event) : Prop :=
  match e with
  | Notify l' _ _ => l' <> l
  | _ => True
  end.

(** The event is not a write to the backend, and a read is of [key]. *)
Definition readingOnly (key : string) (e : Event) : Prop :=
  match e with
  | SetItem _ _ | Broadcast _ _ => False
  | GetItem k => k = key
  | _ => True
  end.

(** ** The media-query cache *)

(** The event is not a call of [window.matchMedia]. *)
Definition notMatchMedia (e : Event) : bool :=
  match e with
  | MatchMedia _ => false
  | _ => true
  end.

(** Running [m] again on a store whose cache holds what the first run left
    changes nothing, returns the same and repeats the events of the first
    run except the calls of [window.matchMedia]. *)
Definition cacheStable {A} (m : M A) : Prop :=
  forall s c,
    mediaQueryCache (post (m s)) ⊆ c ->
    m (with_cache c s) =
      mkOutcome (with_cache c s) (filter (fun e => notMatchMedia e = true) (trace (m s)))
        (result (m s)).

(** [m] only adds to the cache, and touches nothing else. *)
Definition cacheGrows {A} (m : M A) : Prop :=
  forall s, frame s (post (m s)) /\ mediaQueryCache s ⊆ mediaQueryCache (post (m s)).

(** ** Configurations the constructor rejects *)

(** A configuration with a dimension that has neither options nor a default
    option. *)
Definition emptyDimension : ThemeStoreOptions :=
  mkOptions (Some "palettez") [ ("colorScheme", mkDecl [] None) ] noInitialState
    (mkStorage true false) eq_refl.

(** Options like those of the running example, under another key. *)
Definition otherOptions : ThemeStoreOptions :=
  mkOptions (Some "docs") demoConfig noInitialState (mkStorage true false) eq_refl.

(** ** Media queries and their listeners *)

(** The uses of media queries in a configuration: the query, with the
    dimension and the value of the option that names it. *)
Definition queryUses (config : ThemeConfig) : list (string * (string * string)) :=
  flat_map (fun entry : string * ThemeDecl =>
              omap (fun od => match media (declaredOption od) with
                              | Some (q, _, _) => Some (q, (entry.1, optionValue od))
                              | None => None
                              end) (options (entry.2))) config.

(** No media query is named by two options. *)
Definition distinctQueries (config : ThemeConfig) : bool :=
  bool_decide (NoDup ((queryUses config).*1)).

(** The [change] listeners of the cache: each is the closure of an option of
    the configuration that names the query, and as long as the store is not
    destroyed every cached query has one. *)
Definition listening (cfg : KeyedThemeConfig) (s : ThemeStore) : Prop :=
  opt_config s = cfg /\
  (forall q mql d v,
     mediaQueryCache s !! q = Some mql -> mql_onchange mql = Some (d, v) ->
     exists option a b, selectedOption s d v = Some option /\ media option = Some (q, a, b)) /\
  (aborted s = false ->
   forall q mql, mediaQueryCache s !! q = Some mql -> is_Some (mql_onchange mql)).

(** ** Handlers attached by [sync] *)

(** The store after the [sync] handler has taken over the state [p]. *)
Definition synced (p : PersistedState) (s : ThemeStore) : ThemeStore :=
  with_currentThemes (themes p) (with_systemOptions (systemOptions p) s).

(** The handles of the attached handlers are distinct and below the next
    handle, and a destroyed store has none. *)
Definition handlesFresh (s : ThemeStore) : Prop :=
  NoDup (watchSubs s) /\
  (forall x, x ∈ watchSubs s -> x < watchSeq s) /\
  (aborted s = true -> watchSubs s = []).

(** ** Registrations of media queries *)

(** The media queries a trace hands to [window.matchMedia], in order. *)
Definition registrations (t : list Event) : list string :=
  omap (fun e => match e with
                 | MatchMedia q => Some q
                 | _ => None
                 end) t.

(** From the store [s] to the store [s'] with the events [t]: the queries
    registered are distinct, were not in the cache and are in it afterwards,
    and the cache has lost no query. *)
Definition registersNew (s : ThemeStore) (t : list Event) (s' : ThemeStore) : Prop :=
  NoDup (registrations t) /\
  (forall q, q ∈ registrations t ->
     mediaQueryCache s !! q = None /\ is_Some (mediaQueryCache s' !! q)) /\
  (forall q, is_Some (mediaQueryCache s !! q) -> is_Some (mediaQueryCache s' !! q)).

(** Every run of [m] registers new queries only. *)
Definition registering {A} (m : M A) : Prop :=
  forall s, registersNew s (trace (m s)) (post (m s)).

(** * Lemmas and theorems *)

(** ** The package's tests, on the embedding *)

(** getThemesAndOptions: should return the themes and options. *)
Example test_getThemesAndOptions :
  getThemesAndOptions demoConfig =
    [ ("colorScheme", ["system"; "light"; "light-modern"; "dark"; "dark-modern"]);
      ("contrast", ["standard"; "high"]) ].
Proof. reflexivity. Qed.

(** ThemeStore: should get default themes. *)
Example test_default_themes :
  result (getThemes demoStore) =
    Ok {[ "colorScheme" := "system"; "contrast" := "standard" ]} /\
  result (getResolvedThemes lightEnv demoStore) =
    Ok (defined {[ "colorScheme" := "light"; "contrast" := "standard" ]}).
Proof. split; vm_compute; reflexivity. Qed.

(** ThemeStore: should set themes. *)
Example test_set_themes :
  let o := setThemes lightEnv
             (Partial {[ "colorScheme" := "dark"; "contrast" := "high" ]})
             (Fulfilled tt) demoStore in
  currentThemes (post o) = {[ "colorScheme" := "dark"; "contrast" := "high" ]} /\
  exists state,
    result (getStateToPersist (post o)) = Ok state /\
    storageCalls (trace o) = [SetItem "palettez" state].
Proof.
  split; [vm_compute; reflexivity |].
  eexists. split; vm_compute; reflexivity.
Qed.

(** ThemeStore: should respond to media query changes. *)
Example test_media_query :
  let o := updateSystemOption darkEnv "colorScheme" ("dark-modern", "light-modern")
             (Fulfilled tt) demoStore in
  result (getResolvedThemes darkEnv demoStore) =
    Ok (defined {[ "colorScheme" := "dark"; "contrast" := "standard" ]}) /\
  result (getResolvedThemes darkEnv (post o)) =
    Ok (defined {[ "colorScheme" := "dark-modern"; "contrast" := "standard" ]}) /\
  storageCalls (trace o) =
    [SetItem "palettez"
       (mkPersisted 1 {[ "colorScheme" := "system"; "contrast" := "standard" ]}
          {[ "colorScheme" := ("dark-modern", "light-modern") ]})].
Proof. repeat split; vm_compute; reflexivity. Qed.

(** ThemeStore: should restore from initial state. *)
Example test_initial_state :
  let s := constructed
             (mkOptions (Some "palettez") demoConfig
                (mkInitial (Some (themes modernState)) (Some (systemOptions modernState)))
                (mkStorage true false) eq_refl) in
  currentThemes s = {[ "colorScheme" := "system"; "contrast" := "high" ]} /\
  result (getResolvedThemes darkEnv s) =
    Ok (defined {[ "colorScheme" := "dark-modern"; "contrast" := "high" ]}).
Proof. split; vm_compute; reflexivity. Qed.

(** ThemeStore: should restore from storage. *)
Example test_restore :
  let o := restore darkEnv (Fulfilled (Some (Versioned modernState))) demoStore in
  currentThemes (post o) = {[ "colorScheme" := "system"; "contrast" := "high" ]} /\
  result (getResolvedThemes darkEnv (post o)) =
    Ok (defined {[ "colorScheme" := "dark-modern"; "contrast" := "high" ]}).
Proof. split; vm_compute; reflexivity. Qed.

(** ThemeStore: should subscribe and unsubscribe to theme changes. *)
Example test_subscribe :
  let o := (subscribe lightEnv 7 true ;;
            setThemes lightEnv (Partial {[ "contrast" := "high" ]}) (Fulfilled tt) ;;
            unsubscribe 7 ;;
            setThemes lightEnv (Partial {[ "contrast" := "standard" ]}) (Fulfilled tt))
             demoStore in
  notifications (trace o) =
    [ (7, {[ "colorScheme" := "system"; "contrast" := "standard" ]},
          (defined {[ "colorScheme" := "light"; "contrast" := "standard" ]}));
      (7, {[ "colorScheme" := "system"; "contrast" := "high" ]},
          (defined {[ "colorScheme" := "light"; "contrast" := "high" ]})) ].
Proof. vm_compute. reflexivity. Qed.

(** create and read functions: read, destroy, read a non-existent store. *)
Example test_registry :
  (get (Some "palettez") demoRegistry).2 = Ok 0 /\
  (get (Some "palettez") (destroy (Some "palettez") demoRegistry).1).2 =
    Throw (NotFound "palettez") /\
  (get (Some "non-existent") demoRegistry).2 = Throw (NotFound "non-existent").
Proof. repeat split; vm_compute; reflexivity. Qed.

(** ** Basic facts *)

Lemma frame_refl s : frame s s.
Proof. exists (mediaQueryCache s). by destruct s. Qed.

Lemma frame_trans s1 s2 s3 : frame s1 s2 -> frame s2 s3 -> frame s1 s3.
Proof. intros [c1 ->] [c2 ->]. by exists c2. Qed.

Lemma frame_with_cache c s : frame s (with_cache c s).
Proof. by exists c. Qed.

Lemma frame_resolution env s s' : frame s s' -> resolution env s' = resolution env s.
Proof. by intros [c ->]. Qed.

Lemma frame_fields s s' :
  frame s s' ->
  currentThemes s' = currentThemes s /\ storeSystemOptions s' = storeSystemOptions s /\
  listeners s' = listeners s /\ opt_config s' = opt_config s /\
  defaultThemes s' = defaultThemes s /\ opt_key s' = opt_key s /\
  storage s' = storage s /\ aborted s' = aborted s /\
  watchSubs s' = watchSubs s /\ watchSeq s' = watchSeq s.
Proof. by intros [c ->]. Qed.

Lemma notifications_app t1 t2 :
  notifications (t1 ++ t2) = notifications t1 ++ notifications t2.
Proof. apply omap_app. Qed.

Lemma storageCalls_app t1 t2 :
  storageCalls (t1 ++ t2) = storageCalls t1 ++ storageCalls t2.
Proof. apply omap_app. Qed.

Lemma quiet_nil : quiet [].
Proof. done. Qed.

Lemma quiet_app t1 t2 : quiet t1 -> quiet t2 -> quiet (t1 ++ t2).
Proof.
  intros [H1 H2] [H3 H4]. split.
  - by rewrite notifications_app, H1, H3.
  - by rewrite storageCalls_app, H2, H4.
Qed.

Lemma bind_ok {A B} (m : M A) (k : A -> M B) s a :
  result (m s) = Ok a ->
  bind m k s =
    mkOutcome (post (k a (post (m s)))) (trace (m s) ++ trace (k a (post (m s))))
      (result (k a (post (m s)))).
Proof. intros H. unfold bind. by rewrite H. Qed.

Lemma bind_throw {A B} (m : M A) (k : A -> M B) s e :
  result (m s) = Throw e ->
  bind m k s = mkOutcome (post (m s)) (trace (m s)) (Throw e).
Proof. intros H. unfold bind. by rewrite H. Qed.

Lemma resolveThemeOption_spec env themeKey option s :
  let o := resolveThemeOption env themeKey option s in
  result o = optionOutcome env (storeSystemOptions s) themeKey option /\
  frame s (post o) /\ quiet (trace o).
Proof.
  unfold resolveThemeOption, optionOutcome.
  destruct (media option) as [[[mediaQuery ifM] ifN]|]; simpl.
  2: { split; [done | split; [apply frame_refl | apply quiet_nil]]. }
  destruct (isClient env); simpl.
  2: { split; [done | split; [apply frame_refl | done]]. }
  unfold bind; simpl.
  destruct (mediaQueryCache s !! mediaQuery) as [mql|]; simpl;
    [| destruct (inherited mediaQuery); simpl];
    destruct (storeSystemOptions s !! themeKey) as [[a b]|]; simpl;
    (split; [done | split; [first [apply frame_refl | apply frame_with_cache] | done]]).
Qed.

Lemma resolveMember_spec env config entry s :
  let o := resolveMember env config entry s in
  result o = memberOutcome env config entry /\
  frame s (post o) /\ quiet (trace o).
Proof.
  unfold resolveMember, memberOutcome.
  destruct (foundMember env config (entry.1) (entry.2)); simpl;
    (split; [done | split; [apply frame_refl | done]]).
Qed.

Lemma resolveEntry_spec env entry s :
  let o := resolveEntry env entry s in
  result o = entryOutcome env (opt_config s) (storeSystemOptions s) entry /\
  frame s (post o) /\ quiet (trace o).
Proof.
  unfold resolveEntry, entryOutcome.
  rewrite (bind_ok _ _ _ (opt_config s)) by done. simpl.
  destruct (opt_config s !! entry.1) as [byOption|]; simpl.
  2: { apply resolveMember_spec. }
  destruct (byOption !! entry.2) as [option|]; simpl.
  2: { apply resolveMember_spec. }
  destruct (resolveThemeOption_spec env (entry.1) option s) as (Hr & Hf & Hq).
  destruct (optionOutcome env (storeSystemOptions s) (entry.1) option) as [r|e].
  - rewrite (bind_ok _ _ _ r) by done. simpl.
    split; [done | split; [done |]]. by rewrite app_nil_r.
  - by rewrite (bind_throw _ _ _ e) by done.
Qed.

Lemma mapM_resolveEntry_spec env l s :
  let o := mapM (resolveEntry env) l s in
  result o = mapR (entryOutcome env (opt_config s) (storeSystemOptions s)) l /\
  frame s (post o) /\ quiet (trace o).
Proof.
  revert s. induction l as [|entry l IH]; intros s; cbn [mapM mapR].
  { split; [done | split; [apply frame_refl | done]]. }
  destruct (resolveEntry_spec env entry s) as (Hr & Hf & Hq).
  destruct (entryOutcome env (opt_config s) (storeSystemOptions s) entry) as [y|e].
  2: { by rewrite (bind_throw _ _ _ e) by done. }
  rewrite (bind_ok _ _ _ y) by done. cbn [post trace result].
  destruct (IH (post (resolveEntry env entry s))) as (Hr' & Hf' & Hq').
  destruct (frame_fields _ _ Hf) as (_ & Hsys & _ & Hcfg & _).
  rewrite Hsys, Hcfg in Hr'.
  destruct (mapR _ l) as [ys|e].
  - rewrite (bind_ok _ _ _ ys) by done. simpl.
    split; [done | split; [by eapply frame_trans |]].
    rewrite app_nil_r. by apply quiet_app.
  - rewrite (bind_throw _ _ _ e) by done. simpl.
    split; [done | split; [by eapply frame_trans | by apply quiet_app]].
Qed.

Lemma resolveThemes_spec env s :
  let o := resolveThemes env s in
  result o = resolution env s /\ frame s (post o) /\ quiet (trace o).
Proof.
  unfold resolveThemes, resolution.
  rewrite (bind_ok _ _ _ (currentThemes s)) by done. simpl.
  destruct (mapM_resolveEntry_spec env (map_to_list (currentThemes s)) s)
    as (Hr & Hf & Hq).
  destruct (mapR _ _) as [entries|e].
  - rewrite (bind_ok _ _ _ entries) by done. simpl.
    split; [done | split; [done |]]. by rewrite app_nil_r.
  - by rewrite (bind_throw _ _ _ e) by done.
Qed.

Lemma getResolvedThemes_result env s :
  result (getResolvedThemes env s) = resolution env s.
Proof. unfold getResolvedThemes. by destruct (resolveThemes_spec env s) as (-> & _). Qed.

(** ** Facts about [mapR] and [fromEntries] *)

Lemma mapR_Forall2 {A B} (f : A -> Result B) l ys :
  mapR f l = Ok ys <-> Forall2 (fun x y => f x = Ok y) l ys.
Proof.
  revert ys. induction l as [|x l IH]; intros ys; simpl.
  - split.
    + intros [= <-]. constructor.
    + intros H. by inversion H.
  - destruct (f x) as [y|e] eqn:Hx.
    + destruct (mapR f l) as [ys'|e] eqn:Hl.
      * split.
        -- intros [= <-]. constructor; [done | by apply IH].
        -- intros H. inversion H as [|? y' ? ys'' Hy Hrest]; subst.
           apply IH in Hrest. congruence.
      * split; [done |].
        intros H. inversion H as [|? y' ? ys'' Hy Hrest]; subst.
        apply IH in Hrest. congruence.
    + split; [done |].
      intros H. inversion H; subst. congruence.
Qed.

Lemma mapR_total {A B} (f : A -> Result B) l :
  (forall x, x ∈ l -> exists y, f x = Ok y) -> exists ys, mapR f l = Ok ys.
Proof.
  induction l as [|x l IH]; intros H; simpl; [by eexists |].
  destruct (H x) as [y ->]; [by left |].
  destruct IH as [ys ->]; [|by eexists].
  intros x' Hx'. apply H. by right.
Qed.

Lemma mapR_elem {A B} (f : A -> Result B) l ys x :
  mapR f l = Ok ys -> x ∈ l -> exists y, f x = Ok y /\ y ∈ ys.
Proof.
  rewrite mapR_Forall2. intros HF Hx.
  destruct (proj1 (list_elem_of_lookup l x) Hx) as [i Hi].
  destruct (Forall2_lookup_l _ _ _ _ _ HF Hi) as (y & Hy & Hfy).
  exists y. split; [done |]. by eapply list_elem_of_lookup_2.
Qed.

Lemma mapR_throw_elem {A B} (f : A -> Result B) l x e :
  x ∈ l -> f x = Throw e -> exists e', mapR f l = Throw e'.
Proof.
  intros Hx Hf. destruct (mapR f l) as [ys|e'] eqn:Hl; [|by eexists].
  destruct (mapR_elem _ _ _ _ Hl Hx) as (y & Hy & _). congruence.
Qed.

Lemma fromEntries_snoc {V} (l : list (string * V)) p :
  fromEntries (l ++ [p]) = <[p.1 := p.2]> (fromEntries l).
Proof. unfold fromEntries. by rewrite foldl_app. Qed.

Lemma fromEntries_list_to_map {V} (l : list (string * V)) :
  fromEntries l = list_to_map (reverse l).
Proof.
  induction l as [|p l IH] using rev_ind; [done |].
  rewrite fromEntries_snoc, reverse_app, IH. simpl. by destruct p.
Qed.

Lemma fromEntries_lookup {V} (l : list (string * V)) k v :
  NoDup (l.*1) -> (k, v) ∈ l -> fromEntries l !! k = Some v.
Proof.
  intros Hnd Hin. rewrite fromEntries_list_to_map.
  apply elem_of_list_to_map_1.
  - by rewrite fmap_reverse, reverse_Permutation.
  - by apply elem_of_reverse.
Qed.

Lemma fromEntries_lookup_None {V} (l : list (string * V)) k :
  k ∉ l.*1 -> fromEntries l !! k = None.
Proof.
  intros Hk. rewrite fromEntries_list_to_map.
  apply not_elem_of_list_to_map_1. by rewrite fmap_reverse, elem_of_reverse.
Qed.

Lemma entryOutcome_key env config sys entry y :
  entryOutcome env config sys entry = Ok y -> y.1 = entry.1.
Proof.
  assert (Hmember : memberOutcome env config entry = Ok y -> y.1 = entry.1).
  { unfold memberOutcome. destruct (foundMember _ _ _ _); [|done]. by intros [= <-]. }
  unfold entryOutcome.
  destruct (config !! entry.1) as [byOption|]; [|done].
  destruct (byOption !! entry.2) as [option|]; [|done].
  destruct (optionOutcome _ _ _ _); [|done].
  by intros [= <-].
Qed.

Lemma mapR_entry_keys env config sys l ys :
  mapR (entryOutcome env config sys) l = Ok ys -> ys.*1 = l.*1.
Proof.
  rewrite mapR_Forall2. induction 1 as [|x y l ys Hxy _ IH]; [done |].
  simpl. f_equal; [by eapply entryOutcome_key | done].
Qed.

(** The resolved view has a value for a dimension exactly when the
    per-entry outcome of its selected value is that value. *)
Lemma resolution_lookup env s r d v y :
  resolution env s = Ok r ->
  currentThemes s !! d = Some v ->
  entryOutcome env (opt_config s) (storeSystemOptions s) (d, v) = Ok y ->
  r !! d = Some (y.2).
Proof.
  unfold resolution. intros Hres Hd Hy.
  destruct (mapR _ _) as [ys|] eqn:Hys; [|done].
  injection Hres as <-.
  assert (Hin : (d, v) ∈ map_to_list (currentThemes s)) by by apply elem_of_map_to_list.
  destruct (mapR_elem _ _ _ _ Hys Hin) as (y' & Hy' & Hin').
  assert (y' = y) as -> by congruence.
  apply fromEntries_lookup.
  - rewrite (mapR_entry_keys _ _ _ _ _ Hys). apply NoDup_fst_map_to_list.
  - apply entryOutcome_key in Hy. simpl in Hy. destruct y as [k w]. simpl in *. by subst.
Qed.

Lemma resolution_dom env s r d :
  resolution env s = Ok r -> is_Some (r !! d) <-> is_Some (currentThemes s !! d).
Proof.
  unfold resolution. intros Hres.
  destruct (mapR _ _) as [ys|] eqn:Hys; [|done].
  injection Hres as <-.
  pose proof (mapR_entry_keys _ _ _ _ _ Hys) as Hkeys.
  split.
  - intros [w Hw]. destruct (decide (d ∈ ys.*1)) as [Hd|Hd].
    + rewrite Hkeys in Hd. apply list_elem_of_fmap in Hd as ([d' v] & -> & Hin).
      apply elem_of_map_to_list in Hin. by eexists.
    + by rewrite fromEntries_lookup_None in Hw.
  - intros [v Hv]. apply elem_of_map_to_list in Hv.
    destruct (mapR_elem _ _ _ _ Hys Hv) as (y & Hy & Hin).
    exists (y.2). apply fromEntries_lookup.
    + rewrite Hkeys. apply NoDup_fst_map_to_list.
    + apply entryOutcome_key in Hy. destruct y as [k w]. simpl in *. by subst.
Qed.

(** ** What the constructor establishes *)

Lemma foldl_invariant {A B} (P : A -> Prop) (f : A -> B -> A) l a :
  P a -> (forall a x, P a -> P (f a x)) -> P (foldl f a l).
Proof.
  intros Ha Hstep. revert a Ha.
  induction l as [|x l IH]; intros a Ha; simpl; [done |].
  apply IH. by apply Hstep.
Qed.

Lemma keyOption_filed init themeKey acc d :
  filedByValue (acc.1) -> filedByValue ((keyOption init themeKey acc d).1).
Proof.
  intros H v o. destruct d as [str|opt]; simpl.
  - rewrite lookup_insert. case_decide; [|by apply H].
    intros [= <-]. by subst.
  - rewrite lookup_insert. case_decide; [|by apply H].
    intros [= <-]. by subst.
Qed.

Lemma keyTheme_keyed init acc entry :
  keyedByValue (acc.1) -> keyedByValue ((keyTheme init acc entry).1).
Proof.
  intros H d byOption v o. unfold keyTheme; simpl.
  rewrite lookup_insert. case_decide as Hd; [|by apply H].
  intros [= <-]. revert v o.
  apply (foldl_invariant (fun a => filedByValue (a.1))).
  - simpl. destruct (acc.1 !! entry.1) as [m|] eqn:Hm; simpl.
    + intros v o Hv. by eapply H.
    + intros v o. by rewrite lookup_empty.
  - intros a x. apply keyOption_filed.
Qed.

Lemma keyConfig_keyed init config : keyedByValue ((keyConfig init config).1).
Proof.
  unfold keyConfig.
  apply (foldl_invariant (fun a => keyedByValue (a.1))).
  - intros d byOption v o. simpl. by rewrite lookup_empty.
  - intros a x. apply keyTheme_keyed.
Qed.

(** ** When resolution returns *)

Lemma withinConfig_lookup s d v :
  withinConfig s = true -> currentThemes s !! d = Some v ->
  is_Some (selectedOption s d v).
Proof.
  unfold withinConfig. rewrite forallb_forall. intros H Hd.
  apply elem_of_map_to_list, list_elem_of_In in Hd.
  apply H in Hd. by apply bool_decide_eq_true in Hd.
Qed.

Lemma overridesCover_lookup env s d v o q ifM ifN :
  overridesCover env s = true -> isClient env = true ->
  currentThemes s !! d = Some v -> selectedOption s d v = Some o ->
  media o = Some (q, ifM, ifN) ->
  is_Some (storeSystemOptions s !! d).
Proof.
  unfold overridesCover. intros H Hc Hd Ho Hm. rewrite Hc in H. simpl in H.
  rewrite forallb_forall in H.
  apply elem_of_map_to_list, list_elem_of_In in Hd.
  apply H in Hd. simpl in Hd. rewrite Ho, Hm in Hd.
  by apply bool_decide_eq_true in Hd.
Qed.

Lemma entryOutcome_selected env s d v o :
  selectedOption s d v = Some o ->
  entryOutcome env (opt_config s) (storeSystemOptions s) (d, v) =
    match optionOutcome env (storeSystemOptions s) d o with
    | Ok resolved => Ok (d, Some resolved)
    | Throw e => Throw e
    end.
Proof.
  unfold selectedOption, entryOutcome. simpl.
  destruct (opt_config s !! d) as [byOption|]; [|done].
  by intros ->.
Qed.

Lemma entryOutcome_unselected env s d v :
  selectedOption s d v = None ->
  entryOutcome env (opt_config s) (storeSystemOptions s) (d, v) =
    if memberFound env s d v then Ok (d, None) else Throw TypeError.
Proof.
  unfold selectedOption, entryOutcome, memberOutcome, memberFound. simpl.
  destruct (opt_config s !! d) as [byOption|]; [|done].
  by intros ->.
Qed.

(** Inside the configuration and with the overrides in place, resolution
    returns. *)
Lemma resolution_total env s :
  withinConfig s = true -> overridesCover env s = true ->
  exists r, resolution env s = Ok r.
Proof.
  intros Hw Hc. unfold resolution.
  destruct (mapR_total (entryOutcome env (opt_config s) (storeSystemOptions s))
              (map_to_list (currentThemes s))) as [ys ->]; [|by eexists].
  intros [d v] Hin. apply elem_of_map_to_list in Hin.
  destruct (withinConfig_lookup s d v Hw Hin) as [o Ho].
  rewrite (entryOutcome_selected env s d v o Ho).
  unfold optionOutcome.
  destruct (media o) as [[[q ifM] ifN]|] eqn:Hm; [|by eexists].
  destruct (isClient env) eqn:Hcl; simpl; [|by eexists].
  destruct (overridesCover_lookup env s d v o q ifM ifN Hc Hcl Hin Ho Hm) as [[a b] ->].
  by eexists.
Qed.




(** What resolution throws is a TypeError. *)
Lemma mapR_throw {A B} (f : A -> Result B) l e :
  mapR f l = Throw e -> exists x, x ∈ l /\ f x = Throw e.
Proof.
  induction l as [|x l IH]; simpl; [done |].
  destruct (f x) as [y|e'] eqn:Hx.
  - destruct (mapR f l) as [ys|e'']; [done |].
    intros [= ->]. destruct IH as (x' & Hin & Hx'); [done |].
    exists x'. split; [by right | done].
  - intros [= ->]. exists x. split; [by left | done].
Qed.

Lemma entryOutcome_error env config sys entry e :
  entryOutcome env config sys entry = Throw e -> e = TypeError.
Proof.
  assert (Hmember : memberOutcome env config entry = Throw e -> e = TypeError).
  { unfold memberOutcome. destruct (foundMember _ _ _ _); [done | by intros [= <-]]. }
  unfold entryOutcome, optionOutcome.
  destruct (config !! entry.1) as [byOption|]; [|done].
  destruct (byOption !! entry.2) as [o|]; [|done].
  destruct (media o) as [[[q a] b]|]; [|done].
  destruct (negb (isClient env)); [done |].
  destruct (sys !! entry.1) as [[c d]|]; [done | by intros [= <-]].
Qed.

Lemma resolution_error env s e : resolution env s = Throw e -> e = TypeError.
Proof.
  unfold resolution. destruct (mapR _ _) as [ys|e'] eqn:Hl; [done |].
  intros [= ->]. apply mapR_throw in Hl as (x & _ & Hx).
  by eapply entryOutcome_error.
Qed.

(** ** C1: the resolver *)




(** ** Notification passes *)

Arguments resolveThemes : simpl never.
Arguments callListener : simpl never.
Arguments notify : simpl never.
Arguments setThemesAndNotify : simpl never.

(** Reduce the primitive steps of [M] and the projections of outcomes,
    leaving the store methods folded. *)
Ltac msimpl :=
  cbn [post trace result gets emit modify ret throw app].

Lemma callListener_ok env listener s r :
  resolution env s = Ok r ->
  let o := callListener env listener s in
  result o = Ok tt /\ frame s (post o) /\
  notifications (trace o) = [(listener, currentThemes s, r)] /\
  storageCalls (trace o) = [].
Proof.
  intros Hres. unfold callListener.
  rewrite (bind_ok _ _ _ (currentThemes s)) by done. msimpl.
  destruct (resolveThemes_spec env s) as (Hr & Hf & Hn & Hs).
  rewrite Hres in Hr.
  rewrite (bind_ok _ _ _ r) by done. msimpl.
  split; [done | split; [done |]].
  by rewrite notifications_app, storageCalls_app, Hn, Hs.
Qed.

Lemma callListener_throw env listener s e :
  resolution env s = Throw e ->
  let o := callListener env listener s in
  result o = Throw e /\ frame s (post o) /\ quiet (trace o).
Proof.
  intros Hres. unfold callListener.
  rewrite (bind_ok _ _ _ (currentThemes s)) by done. msimpl.
  destruct (resolveThemes_spec env s) as (Hr & Hf & Hq).
  rewrite Hres in Hr.
  by rewrite (bind_throw _ _ _ e) by done.
Qed.

Lemma forM_callListener_ok env ls s r :
  resolution env s = Ok r ->
  let o := forM_ ls (callListener env) s in
  result o = Ok tt /\ frame s (post o) /\
  notifications (trace o) = (fun l => (l, currentThemes s, r)) <$> ls /\
  storageCalls (trace o) = [].
Proof.
  revert s. induction ls as [|l ls IH]; intros s Hres; cbn [forM_ fmap list_fmap].
  { split; [done | split; [apply frame_refl | done]]. }
  destruct (callListener_ok env l s r Hres) as (Hr & Hf & Hn & Hs).
  rewrite (bind_ok _ _ _ tt) by done. msimpl.
  destruct (IH (post (callListener env l s))) as (Hr' & Hf' & Hn' & Hs').
  { by rewrite (frame_resolution env _ _ Hf). }
  destruct (frame_fields _ _ Hf) as (Hcur & _).
  split; [done | split; [by eapply frame_trans |]].
  rewrite notifications_app, storageCalls_app, Hn, Hs, Hn', Hs', Hcur. done.
Qed.

Lemma notify_ok env s r :
  resolution env s = Ok r ->
  let o := notify env s in
  result o = Ok tt /\ frame s (post o) /\
  notifications (trace o) = (fun l => (l, currentThemes s, r)) <$> listeners s /\
  storageCalls (trace o) = [].
Proof.
  intros Hres. unfold notify.
  rewrite (bind_ok _ _ _ (listeners s)) by done. msimpl.
  by apply forM_callListener_ok.
Qed.

Lemma notify_throw env s e :
  resolution env s = Throw e -> listeners s <> [] ->
  let o := notify env s in
  result o = Throw e /\ frame s (post o) /\ quiet (trace o).
Proof.
  intros Hres Hls. unfold notify.
  rewrite (bind_ok _ _ _ (listeners s)) by done. msimpl.
  destruct (listeners s) as [|l ls]; [done |]. cbn [forM_].
  destruct (callListener_throw env l s e Hres) as (Hr & Hf & Hq).
  by rewrite (bind_throw _ _ _ e) by done.
Qed.

Lemma notify_nobody env s :
  listeners s = [] -> notify env s = mkOutcome s [] (Ok tt).
Proof.
  intros Hls. unfold notify.
  rewrite (bind_ok _ _ _ (listeners s)) by done. by rewrite Hls.
Qed.

(** Whatever happens, a notification pass touches nothing but the
    media-query cache and makes no call to the storage backend. *)
Lemma notify_frame env s :
  frame s (post (notify env s)) /\ storageCalls (trace (notify env s)) = [].
Proof.
  destruct (resolution env s) as [r|e] eqn:Hres.
  - by destruct (notify_ok env s r Hres) as (_ & ? & _ & ?).
  - destruct (listeners s) as [|l ls] eqn:Hls.
    + rewrite notify_nobody by done. split; [apply frame_refl | done].
    + destruct (notify_throw env s e Hres) as (_ & ? & _ & ?); [by rewrite Hls | done].
Qed.

Lemma setThemesAndNotify_frame env t s :
  frame (with_currentThemes t s) (post (setThemesAndNotify env t s)) /\
  storageCalls (trace (setThemesAndNotify env t s)) = [].
Proof.
  unfold setThemesAndNotify.
  rewrite (bind_ok _ _ _ tt) by done. msimpl.
  apply notify_frame.
Qed.

Lemma setThemesAndNotify_eq env t s :
  setThemesAndNotify env t s = notify env (with_currentThemes t s).
Proof.
  unfold setThemesAndNotify.
  rewrite (bind_ok _ _ _ tt) by done. msimpl. by destruct (notify _ _).
Qed.

(** A notification pass, as seen from the store it leaves. *)
Lemma notify_pass env s :
  let o := notify env s in
  notifications (trace o) = passCalls env (currentThemes s) (listeners s) (post o) /\
  result o = passResult env (listeners s) (post o).
Proof.
  intros o. destruct (notify_frame env s) as (Hf & _). fold o in Hf.
  unfold passCalls, passResult.
  rewrite getResolvedThemes_result, (frame_resolution env _ _ Hf).
  destruct (resolution env s) as [r|e] eqn:Hres.
  - by destruct (notify_ok env s r Hres) as (? & _ & ? & _).
  - destruct (listeners s) as [|l ls] eqn:Hls.
    + unfold o. by rewrite notify_nobody.
    + destruct (notify_throw env s e Hres) as (Hr & _ & Hn & _); [by rewrite Hls |].
      fold o in Hr, Hn. by rewrite Hn, Hr, (resolution_error env s e Hres).
Qed.

(** Every listener call of a notification pass goes to a registered
    listener and carries the current selection and its resolution. *)
Lemma notify_notifications env s x :
  x ∈ notifications (trace (notify env s)) ->
  x.1.1 ∈ listeners s /\ x.1.2 = currentThemes s /\ resolution env s = Ok (x.2).
Proof.
  destruct (resolution env s) as [r|e] eqn:Hres.
  - destruct (notify_ok env s r Hres) as (_ & _ & -> & _).
    intros (l & -> & Hl)%list_elem_of_fmap. by simpl.
  - destruct (listeners s) as [|l ls] eqn:Hls.
    + rewrite notify_nobody by done. simpl. by intros ?%elem_of_nil.
    + destruct (notify_throw env s e Hres) as (_ & _ & Hn & _); [by rewrite Hls |].
      rewrite Hn. by intros ?%elem_of_nil.
Qed.

Lemma elem_of_notifications t l selection resolved :
  Notify l selection resolved ∈ t <-> (l, selection, resolved) ∈ notifications t.
Proof.
  unfold notifications. rewrite list_elem_of_omap. split.
  - intros H. by exists (Notify l selection resolved).
  - intros (e & He & Heq). by destruct e; simplify_eq.
Qed.

(** ** [setThemes] *)

(** [setThemes] in one equation: the notification pass over the merged
    selection, then, if the pass returned, the call of [setItem] with the
    snapshot and what follows its settlement. *)
Lemma setThemes_run env arg settled s :
  let t := mergedThemes arg s in
  let n := setThemesAndNotify env t s in
  let snapshot := mkPersisted 1 t (storeSystemOptions s) in
  setThemes env arg settled s =
    match result n with
    | Throw e => mkOutcome (post n) (trace n) (Throw e)
    | Ok _ =>
        match settled with
        | Rejected reason =>
            mkOutcome (post n) (trace n ++ [SetItem (opt_key s) snapshot])
              (Throw (Rejection reason))
        | Fulfilled _ =>
            mkOutcome (post n)
              (trace n ++ SetItem (opt_key s) snapshot ::
                 (if has_broadcast (storage s)
                  then [Broadcast (opt_key s) snapshot] else []))
              (Ok tt)
        end
    end.
Proof.
  intros t n snapshot. unfold setThemes.
  rewrite (bind_ok _ _ _ (currentThemes s)) by done. msimpl.
  fold (updateOf arg s). fold (mergedThemes arg s). fold t.
  pose proof (eq_refl : setThemesAndNotify env t s = n) as En.
  destruct (setThemesAndNotify_frame env t s) as (Hf & _). fold n in Hf.
  destruct (frame_fields _ _ Hf) as (Hcur & Hsys & _ & _ & _ & Hkey & Hst & _).
  cbn [with_currentThemes currentThemes storeSystemOptions opt_key storage]
    in Hcur, Hsys, Hkey, Hst.
  clearbody n.
  destruct (result n) as [[]|e] eqn:Hn.
  2: { rewrite (bind_throw _ _ _ e) by (by rewrite En). by rewrite En. }
  rewrite (bind_ok _ _ _ tt) by (by rewrite En). rewrite En. msimpl.
  set (s1 := post n) in *. clearbody s1.
  unfold getStateToPersist, bind.
  destruct settled as [[]|reason]; msimpl; rewrite ?Hcur, ?Hsys, ?Hkey, ?Hst.
  - destruct (has_broadcast (storage s)); msimpl; by rewrite ?app_nil_r.
  - done.
Qed.

(** Whatever the settlement, [setThemes] leaves the store with the merged
    selection, up to the media-query cache. *)
Lemma setThemes_post env arg settled s :
  frame (with_currentThemes (mergedThemes arg s) s) (post (setThemes env arg settled s)).
Proof.
  rewrite setThemes_run.
  destruct (setThemesAndNotify_frame env (mergedThemes arg s) s) as (Hf & _).
  destruct (result (setThemesAndNotify _ _ _)) as [[]|e]; [|done].
  by destruct settled.
Qed.

(** ** C2: merge semantics of [setThemes] *)

(** C2.  After [setThemes], whether the call is fulfilled or rejected, a
    dimension present in the update has the update's value, every other
    dimension keeps the value it had, and the overrides are the ones the
    store had before the call. *)
Theorem setThemes_merge env arg settled s :
  let s' := post (setThemes env arg settled s) in
  (forall d v, updateOf arg s !! d = Some v -> currentThemes s' !! d = Some v) /\
  (forall d, updateOf arg s !! d = None ->
             currentThemes s' !! d = currentThemes s !! d) /\
  storeSystemOptions s' = storeSystemOptions s.
Proof.
  intros s'.
  assert (Hpost : s' = post (setThemesAndNotify env (mergedThemes arg s) s)).
  { unfold s'. rewrite setThemes_run.
    destruct (result (setThemesAndNotify _ _ _)) as [[]|e]; [|done].
    by destruct settled. }
  destruct (setThemesAndNotify_frame env (mergedThemes arg s) s) as (Hf & _).
  rewrite <- Hpost in Hf.
  destruct (frame_fields _ _ Hf) as (Hcur & Hsys & _).
  cbn [with_currentThemes currentThemes storeSystemOptions] in Hcur, Hsys.
  rewrite Hcur. unfold mergedThemes.
  split; [|split; [|done]].
  - intros d v Hd. by apply lookup_union_Some_l.
  - intros d Hd. by rewrite lookup_union_r.
Qed.

(** ** C3: what [setItem] receives *)

(** C3.  Every call of [setItem] made by [setThemes] is for the store's own
    key and carries exactly what [getStateToPersist] returns on the store as
    [setThemes] leaves it: version 1, the merged selection and the overrides.
    The call is made once whenever the synchronous notification pass
    returns, and its argument does not depend on how the backend settles. *)
Theorem setThemes_persists_snapshot env arg settled s :
  let o := setThemes env arg settled s in
  let snapshot :=
    mkPersisted 1 (currentThemes (post o)) (storeSystemOptions (post o)) in
  result (getStateToPersist (post o)) = Ok snapshot /\
  (forall key state, SetItem key state ∈ trace o ->
     key = opt_key s /\ state = snapshot) /\
  (result (setThemesAndNotify env (mergedThemes arg s) s) = Ok tt ->
   exists rest,
     storageCalls (trace o) = SetItem (opt_key s) snapshot :: rest /\
     (rest = [] \/ rest = [Broadcast (opt_key s) snapshot])).
Proof.
  intros o snapshot. split; [done |].
  pose proof (setThemes_run env arg settled s) as Hrun. cbv zeta in Hrun.
  set (t := mergedThemes arg s) in *.
  set (n := setThemesAndNotify env t s) in *.
  destruct (setThemesAndNotify_frame env t s) as (Hf & Hcalls). fold n in Hf, Hcalls.
  destruct (frame_fields _ _ Hf) as (Hcur & Hsys & _).
  cbn [with_currentThemes currentThemes storeSystemOptions] in Hcur, Hsys.
  assert (Hpost : post o = post n).
  { unfold o. rewrite Hrun. destruct (result n) as [[]|e]; [|done].
    by destruct settled. }
  assert (Hsnap : snapshot = mkPersisted 1 t (storeSystemOptions s)).
  { unfold snapshot. by rewrite Hpost, Hcur, Hsys. }
  assert (Hquiet : forall key state, SetItem key state ∉ trace n).
  { intros key state Hin.
    assert (Hin' : SetItem key state ∈ storageCalls (trace n)).
    { unfold storageCalls. apply list_elem_of_omap. by eexists. }
    rewrite Hcalls in Hin'. by apply elem_of_nil in Hin'. }
  split.
  - intros key state. unfold o. rewrite Hrun, Hsnap.
    destruct (result n) as [[]|e]; [destruct settled as [[]|reason] |]; cbn [trace].
    + rewrite elem_of_app, elem_of_cons.
      intros [Hin|[Heq|Hin]]; [by apply Hquiet in Hin | by simplify_eq |].
      destruct (has_broadcast (storage s)).
      * apply list_elem_of_singleton in Hin. done.
      * by apply elem_of_nil in Hin.
    + rewrite elem_of_app, list_elem_of_singleton.
      intros [Hin|Heq]; [by apply Hquiet in Hin | by simplify_eq].
    + intros Hin. by apply Hquiet in Hin.
  - intros Hok. unfold o. rewrite Hrun, Hok, Hsnap.
    destruct settled as [[]|reason]; cbn [trace];
      rewrite storageCalls_app, Hcalls; cbn [app].
    + destruct (has_broadcast (storage s)); eexists; (split; [reflexivity |]); eauto.
    + eexists. split; [reflexivity |]. by left.
Qed.

(** C3 at the running example: one subscriber, high contrast chosen. *)
Lemma setThemes_persists_snapshot_witness :
  let o := setThemes lightEnv highContrast (Fulfilled tt) watchedStore in
  result (setThemesAndNotify lightEnv (mergedThemes highContrast watchedStore)
            watchedStore) = Ok tt /\
  exists rest,
    storageCalls (trace o) =
      SetItem "palettez"
        (mkPersisted 1 (currentThemes (post o)) (storeSystemOptions (post o))) :: rest.
Proof.
  intros o. split; [vm_compute; reflexivity |].
  destruct (proj2 (proj2 (setThemes_persists_snapshot lightEnv highContrast
                            (Fulfilled tt) watchedStore)))
    as (rest & Hcalls & _); [vm_compute; reflexivity |].
  exists rest. exact Hcalls.
Defined.

(** ** C7: a rejected [setItem] *)

(** C7.  When [setItem] rejects, [setThemes] rejects with the same reason:
    [setItem] has been called once, after every listener call of the
    notification pass, nothing is broadcast and nothing is retried.  The
    store is left as the notification pass left it, its selection being the
    merged one, and every listener call carried that selection.  (When the
    notification pass itself throws, [setItem] is never reached.) *)
Theorem setThemes_rejection env arg reason s :
  let o := setThemes env arg (Rejected reason) s in
  let n := setThemesAndNotify env (mergedThemes arg s) s in
  post o = post n /\
  currentThemes (post o) = mergedThemes arg s /\
  (forall l selection resolved,
     Notify l selection resolved ∈ trace o -> selection = mergedThemes arg s) /\
  (result n = Ok tt ->
   result o = Throw (Rejection reason) /\
   trace o = trace n ++
     [SetItem (opt_key s) (mkPersisted 1 (mergedThemes arg s) (storeSystemOptions s))] /\
   notifications (trace o) = notifications (trace n)).
Proof.
  intros o n.
  pose proof (setThemes_run env arg (Rejected reason) s) as Hrun. cbv zeta in Hrun.
  fold o n in Hrun.
  destruct (setThemesAndNotify_frame env (mergedThemes arg s) s) as (Hf & _).
  fold n in Hf.
  destruct (frame_fields _ _ Hf) as (Hcur & _).
  cbn [with_currentThemes currentThemes] in Hcur.
  assert (Hpost : post o = post n).
  { rewrite Hrun. by destruct (result n) as [[]|e]. }
  assert (Hnote : notifications (trace o) = notifications (trace n)).
  { rewrite Hrun. destruct (result n) as [[]|e]; [|done]. cbn [trace].
    by rewrite notifications_app, app_nil_r. }
  split; [done |]. split; [by rewrite Hpost |]. split.
  - intros l selection resolved Hin.
    apply elem_of_notifications in Hin. rewrite Hnote in Hin.
    unfold n in Hin. rewrite setThemesAndNotify_eq in Hin.
    apply notify_notifications in Hin as (_ & Hsel & _). exact Hsel.
  - intros Hok. rewrite Hrun, Hok. cbn [result trace]. by rewrite <- Hnote, Hrun, Hok.
Qed.

(** C7 at the running example, the backend rejecting for lack of quota. *)
Lemma setThemes_rejection_witness :
  let o := setThemes lightEnv highContrast (Rejected "quota exceeded") watchedStore in
  let n := setThemesAndNotify lightEnv (mergedThemes highContrast watchedStore)
             watchedStore in
  result n = Ok tt /\
  result o = Throw (Rejection "quota exceeded") /\
  currentThemes (post o) !! "contrast" = Some "high" /\
  length (notifications (trace o)) = 1.
Proof.
  intros o n.
  destruct (setThemes_rejection lightEnv highContrast "quota exceeded" watchedStore)
    as (_ & Hcur & _ & Hrej).
  split; [vm_compute; reflexivity |].
  destruct Hrej as (Hres & _ & _); [vm_compute; reflexivity |].
  split; [exact Hres |].
  split; [| vm_compute; reflexivity].
  unfold o. rewrite Hcur. vm_compute. reflexivity.
Defined.

(** ** [restore] and the [sync] handler *)

Lemma outcome_eta {A} (o : Outcome A) : mkOutcome (post o) (trace o) (result o) = o.
Proof. by destruct o. Qed.

Lemma with_systemOptions_id s : with_systemOptions (storeSystemOptions s) s = s.
Proof. by destruct s. Qed.

Lemma restoreResume_run env persisted s :
  restoreResume env (Fulfilled persisted) s = notify env (restored persisted s).
Proof.
  unfold restoreResume, restored. destruct persisted as [payload|].
  - fold (upgraded payload s).
    unfold bind at 1. msimpl. unfold bind at 1. msimpl. unfold bind at 1. msimpl.
    rewrite setThemesAndNotify_eq. apply outcome_eta.
  - unfold bind at 1. msimpl. rewrite setThemesAndNotify_eq. apply outcome_eta.
Qed.

Lemma restore_run env got s :
  restore env got s = prefixed (GetItem (opt_key s)) (restoreResume env got s).
Proof. unfold restore, prefixed, bind. msimpl. done. Qed.

(** ** C6: legacy payloads and missing state *)

(** C6, as stated, fails in its last sentence: with the legacy payload
    [{colorScheme: 'sepia'}], a colour scheme the configuration does not
    have, [restore] rejects and the subscriber is not called. *)
Lemma restore_legacy_counterexample :
  ~ restoreNotifies lightEnv watchedStore (Some (Legacy legacySepia eq_refl)).
Proof.
  unfold restoreNotifies. intros H. vm_compute in H. discriminate H.
Qed.

(** C6, amended.  [restore] on a payload without a version field takes the
    whole payload as the selection: [getThemes] then returns the defaults
    overlaid with the bare map, so every persisted dimension has its
    persisted value, and the overrides are unchanged.  On [null] the
    selection becomes the defaults.  In both cases [restore] ends with one
    notification pass over the store so updated: if the restored selection
    resolves, every subscriber is called exactly once with it and its
    resolution; if it does not, no subscriber is called, and [restore]
    rejects with a TypeError when there is a subscriber. *)
Theorem restore_legacy_or_missing env s :
  (forall bare (unversioned : bare !! "version" = None),
     let o := restore env (Fulfilled (Some (Legacy bare unversioned))) s in
     result (getThemes (post o)) = Ok (bare ∪ defaultThemes s) /\
     (forall d v, bare !! d = Some v -> currentThemes (post o) !! d = Some v) /\
     storeSystemOptions (post o) = storeSystemOptions s /\
     o = prefixed (GetItem (opt_key s))
           (notify env (with_currentThemes (bare ∪ defaultThemes s) s)) /\
     notifications (trace o) =
       passCalls env (bare ∪ defaultThemes s) (listeners s) (post o) /\
     result o = passResult env (listeners s) (post o)) /\
  (let o := restore env (Fulfilled None) s in
   result (getThemes (post o)) = Ok (defaultThemes s) /\
   storeSystemOptions (post o) = storeSystemOptions s /\
   o = prefixed (GetItem (opt_key s))
         (notify env (with_currentThemes (defaultThemes s) s)) /\
   notifications (trace o) = passCalls env (defaultThemes s) (listeners s) (post o) /\
   result o = passResult env (listeners s) (post o)).
Proof.
  assert (Hgen : forall persisted t,
    restored persisted s = with_currentThemes t s ->
    let o := restore env (Fulfilled persisted) s in
    result (getThemes (post o)) = Ok t /\
    storeSystemOptions (post o) = storeSystemOptions s /\
    o = prefixed (GetItem (opt_key s)) (notify env (with_currentThemes t s)) /\
    notifications (trace o) = passCalls env t (listeners s) (post o) /\
    result o = passResult env (listeners s) (post o)).
  { intros persisted t Hrestored o.
    assert (Ho : o = prefixed (GetItem (opt_key s)) (notify env (with_currentThemes t s))).
    { unfold o. by rewrite restore_run, restoreResume_run, Hrestored. }
    destruct (notify_frame env (with_currentThemes t s)) as (Hf & _).
    destruct (frame_fields _ _ Hf) as (Hcur & Hsys & _).
    destruct (notify_pass env (with_currentThemes t s)) as (Hn & Hr).
    rewrite Ho. cbn [prefixed post trace result getThemes gets].
    split; [by rewrite Hcur |]. split; [by rewrite Hsys |]. split; [done |].
    split; [exact Hn | exact Hr]. }
  split.
  - intros bare unversioned o.
    destruct (Hgen (Some (Legacy bare unversioned)) (bare ∪ defaultThemes s))
      as (H1 & H2 & H3 & H4).
    { cbn [restored upgraded themes systemOptions].
      by rewrite (idemp_L (∪) (storeSystemOptions s)), with_systemOptions_id. }
    split; [done |]. split; [| done].
    intros d v Hd.
    assert (Hc : currentThemes (post o) = bare ∪ defaultThemes s) by (by injection H1).
    rewrite Hc. by apply lookup_union_Some_l.
  - apply (Hgen None (defaultThemes s)). done.
Qed.

(** C6, amended, at the running example: the legacy payload
    [{colorScheme: 'dark'}]. *)
Lemma restore_legacy_or_missing_witness :
  let o := restore lightEnv (Fulfilled (Some (Legacy legacyDark eq_refl))) watchedStore in
  legacyDark !! "colorScheme" = Some "dark" /\
  currentThemes (post o) !! "colorScheme" = Some "dark" /\
  storeSystemOptions (post o) = storeSystemOptions watchedStore /\
  length (notifications (trace o)) = 1.
Proof.
  intros o.
  destruct (proj1 (restore_legacy_or_missing lightEnv watchedStore) legacyDark eq_refl)
    as (_ & Hsel & Hsys & _ & Hnote & _).
  split; [reflexivity |].
  split; [apply Hsel; reflexivity |].
  split; [exact Hsys |].
  unfold o. rewrite Hnote. vm_compute. reflexivity.
Defined.

(** ** C4: the [sync] handler *)

Lemma syncHandler_run env key p s :
  syncHandler env key p s =
    if bool_decide (key = Some (opt_key s)) then
      notify env (with_currentThemes (themes p) (with_systemOptions (systemOptions p) s))
    else mkOutcome s [] (Ok tt).
Proof.
  unfold syncHandler. unfold bind at 1. msimpl.
  case_bool_decide; [|done].
  unfold bind at 1. msimpl. rewrite setThemesAndNotify_eq. apply outcome_eta.
Qed.

(** C4, as stated, fails: the handler drops the colour-scheme dimension that
    [restore] would have filled in from the defaults. *)
Lemma syncHandler_replaces_counterexample :
  ~ syncMergesLikeRestore lightEnv demoStore contrastOnly.
Proof.
  intros [Hsel _].
  apply (f_equal (fun m : Themes => m !! "colorScheme")) in Hsel.
  vm_compute in Hsel. discriminate Hsel.
Qed.

(** C4, amended.  An event for the store's own key replaces the overrides by
    the payload's [systemOptions] and the selection by the payload's
    [themes], and runs one notification pass over the store so updated: if
    the new selection resolves, every subscriber is called exactly once with
    it and its resolution; if it does not, no subscriber is called, and the
    handler throws a TypeError when there is a subscriber.  An event for
    another key changes nothing and calls nobody.  The outcome is the one of
    [restore]'s merge if the payload has a value for every default dimension
    and a pair for every current override. *)
Theorem syncHandler_replaces env s p :
  let s1 := with_currentThemes (themes p) (with_systemOptions (systemOptions p) s) in
  let o := syncHandler env (Some (opt_key s)) p s in
  o = notify env s1 /\
  currentThemes (post o) = themes p /\
  storeSystemOptions (post o) = systemOptions p /\
  notifications (trace o) = passCalls env (themes p) (listeners s) (post o) /\
  result o = passResult env (listeners s) (post o) /\
  (forall key, key <> Some (opt_key s) ->
     syncHandler env key p s = mkOutcome s [] (Ok tt)) /\
  (dom (defaultThemes s) ⊆ dom (themes p) ->
   dom (storeSystemOptions s) ⊆ dom (systemOptions p) ->
   syncMergesLikeRestore env s p).
Proof.
  intros s1 o.
  assert (Ho : o = notify env s1).
  { unfold o. rewrite syncHandler_run. by rewrite bool_decide_eq_true_2. }
  destruct (notify_frame env s1) as (Hf & _).
  destruct (frame_fields _ _ Hf) as (Hcur & Hsys & _).
  destruct (notify_pass env s1) as (Hn & Hr).
  split; [done |]. rewrite Ho.
  split; [by rewrite Hcur |]. split; [by rewrite Hsys |].
  split; [exact Hn |]. split; [exact Hr |]. split.
  - intros key Hkey. rewrite syncHandler_run. by rewrite bool_decide_eq_false_2.
  - intros Hdom1 Hdom2. unfold syncMergesLikeRestore.
    fold o. rewrite Ho, restoreResume_run. cbn [restored upgraded].
    destruct (notify_frame env
      (with_currentThemes (themes p ∪ defaultThemes s)
         (with_systemOptions (systemOptions p ∪ storeSystemOptions s) s))) as (Hf' & _).
    destruct (frame_fields _ _ Hf') as (Hcur' & Hsys' & _).
    rewrite Hcur, Hsys, Hcur', Hsys'. unfold s1.
    cbn [with_currentThemes with_systemOptions currentThemes storeSystemOptions].
    split; symmetry; apply map_eq; intros k.
    + destruct (themes p !! k) as [v|] eqn:Hk.
      * by apply lookup_union_Some_l.
      * rewrite lookup_union_r by done.
        apply not_elem_of_dom. apply not_elem_of_dom in Hk. set_solver.
    + destruct (systemOptions p !! k) as [v|] eqn:Hk.
      * by apply lookup_union_Some_l.
      * rewrite lookup_union_r by done.
        apply not_elem_of_dom. apply not_elem_of_dom in Hk. set_solver.
Qed.

(** C4, amended, at the running example: a peer's full snapshot. *)
Lemma syncHandler_replaces_witness :
  let o := syncHandler lightEnv (Some "palettez") peerSnapshot watchedStore in
  currentThemes (post o) = themes peerSnapshot /\
  length (notifications (trace o)) = 1 /\
  syncHandler lightEnv (Some "other") peerSnapshot watchedStore =
    mkOutcome watchedStore [] (Ok tt) /\
  syncMergesLikeRestore lightEnv watchedStore peerSnapshot.
Proof.
  intros o.
  destruct (syncHandler_replaces lightEnv watchedStore peerSnapshot)
    as (_ & Hsel & _ & Hnote & _ & Hother & Hmerge).
  split; [exact Hsel |].
  split.
  { unfold o. change "palettez" with (opt_key watchedStore). rewrite Hnote.
    vm_compute. reflexivity. }
  split; [apply Hother; discriminate |].
  apply Hmerge; apply (bool_decide_unpack _); vm_compute; exact I.
Defined.

(** ** C10: when resolution returns *)

Lemma resolution_outside env s d v :
  currentThemes s !! d = Some v -> selectedOption s d v = None ->
  memberFound env s d v = false ->
  resolution env s = Throw TypeError.
Proof.
  intros Hd Ho Hm. apply elem_of_map_to_list in Hd.
  pose proof (entryOutcome_unselected env s d v Ho) as Hout. rewrite Hm in Hout.
  destruct (mapR_throw_elem _ _ _ _ Hd Hout) as [e He].
  destruct (resolution env s) as [r|e'] eqn:Hres.
  - unfold resolution in Hres. by rewrite He in Hres.
  - by rewrite (resolution_error env s e' Hres).
Qed.

(** C10, as stated, fails: in a browser, a selection inside the
    configuration does not resolve when the override pair of an
    environment-derived selection is missing, [this.#systemOptions[themeKey]!]
    being undefined. *)
Lemma resolution_needs_overrides_counterexample :
  ~ totalWithinConfig lightEnv syncedStore.
Proof.
  intros H. destruct H as [r Hr]; [vm_compute; reflexivity |].
  vm_compute in Hr. discriminate Hr.
Qed.

(** C10, amended.  If every dimension of the selection is configured, every
    selected value is one of its dimension's options and, in a browser,
    every dimension whose selected option is environment-derived has an
    override pair, then [getResolvedThemes] returns and so does the
    resolution of a notification pass.  If some selected value is not an
    option of the configuration and the lookup finds nothing in its place,
    [getResolvedThemes] throws, and so does a notification pass with a
    subscriber; if the lookup finds a member of [Object.prototype], or a
    property of one, nothing is thrown on its account and the dimension
    resolves to [undefined].  [setThemes] merges a value that is not an
    option all the same. *)
Theorem resolution_total_within_config env s :
  (withinConfig s = true -> overridesCover env s = true ->
   (exists r, result (getResolvedThemes env s) = Ok r) /\ result (notify env s) = Ok tt) /\
  (forall d v, currentThemes s !! d = Some v -> selectedOption s d v = None ->
     memberFound env s d v = false ->
     result (getResolvedThemes env s) = Throw TypeError /\
     (listeners s <> [] -> result (notify env s) = Throw TypeError)) /\
  (forall d v r, currentThemes s !! d = Some v -> selectedOption s d v = None ->
     result (getResolvedThemes env s) = Ok r ->
     memberFound env s d v = true /\ r !! d = Some None) /\
  (forall arg settled d v,
     updateOf arg s !! d = Some v -> selectedOption s d v = None ->
     let s' := post (setThemes env arg settled s) in
     currentThemes s' !! d = Some v /\
     (memberFound env s d v = false ->
      result (getResolvedThemes env s') = Throw TypeError)).
Proof.
  assert (Hout : forall s0 d v,
    currentThemes s0 !! d = Some v -> selectedOption s0 d v = None ->
    memberFound env s0 d v = false ->
    result (getResolvedThemes env s0) = Throw TypeError).
  { intros s0 d v Hd Ho Hm. unfold getResolvedThemes.
    destruct (resolveThemes_spec env s0) as (-> & _).
    by eapply resolution_outside. }
  split; [|split; [|split]].
  - intros Hw Hc. destruct (resolution_total env s Hw Hc) as [r Hr].
    split.
    + exists r. unfold getResolvedThemes.
      by destruct (resolveThemes_spec env s) as (-> & _).
    + by destruct (notify_ok env s r Hr) as (? & _).
  - intros d v Hd Ho Hm. split; [by eapply Hout |].
    intros Hls.
    destruct (notify_throw env s TypeError) as (? & _); [| done | done].
    by eapply resolution_outside.
  - intros d v r Hd Ho Hr. rewrite getResolvedThemes_result in Hr.
    destruct (memberFound env s d v) eqn:Hm.
    + split; [done |].
      apply (resolution_lookup env s r d v (d, None) Hr Hd).
      by rewrite (entryOutcome_unselected env s d v Ho), Hm.
    + by rewrite (resolution_outside env s d v Hd Ho Hm) in Hr.
  - intros arg settled d v Hd Ho s'.
    destruct (frame_fields _ _ (setThemes_post env arg settled s))
      as (Hcur & _ & _ & Hcfg & _).
    fold s' in Hcur, Hcfg. cbn [with_currentThemes currentThemes opt_config] in Hcur, Hcfg.
    assert (Hd' : currentThemes s' !! d = Some v).
    { rewrite Hcur. unfold mergedThemes. by apply lookup_union_Some_l. }
    split; [done |]. intros Hm.
    apply (Hout s' d v Hd').
    + unfold selectedOption in *. by rewrite Hcfg.
    + unfold memberFound in *. by rewrite Hcfg.
Qed.

(** C10, amended, at the running example. *)
Lemma resolution_total_within_config_witness :
  (withinConfig demoStore = true /\ overridesCover darkEnv demoStore = true /\
   exists r, result (getResolvedThemes darkEnv demoStore) = Ok r) /\
  (updateOf sepia demoStore !! "colorScheme" = Some "sepia" /\
   selectedOption demoStore "colorScheme" "sepia" = None /\
   memberFound darkEnv demoStore "colorScheme" "sepia" = false /\
   result (getResolvedThemes darkEnv
             (post (setThemes darkEnv sepia (Fulfilled tt) demoStore))) =
     Throw TypeError) /\
  (selectedOption constructorStore "colorScheme" "constructor" = None /\
   memberFound lightEnv constructorStore "colorScheme" "constructor" = true).
Proof.
  destruct (resolution_total_within_config darkEnv demoStore) as (Hin & _ & _ & Hset).
  split; [|split].
  - split; [vm_compute; reflexivity |]. split; [vm_compute; reflexivity |].
    apply Hin; vm_compute; reflexivity.
  - split; [reflexivity |]. split; [vm_compute; reflexivity |].
    split; [vm_compute; reflexivity |].
    apply (Hset sepia (Fulfilled tt) "colorScheme" "sepia"); vm_compute; reflexivity.
  - destruct (resolution_total_within_config lightEnv constructorStore)
      as (_ & _ & Hmember & _).
    assert (Hnone : selectedOption constructorStore "colorScheme" "constructor" = None)
      by (vm_compute; reflexivity).
    split; [exact Hnone |].
    refine (proj1 (Hmember "colorScheme" "constructor"
              (<[ "colorScheme" := None ]> (defined {[ "contrast" := "standard" ]}))
              _ Hnone _)); vm_compute; reflexivity.
Defined.

(** ** C5: predicate flips *)

Lemma with_currentThemes_id s : with_currentThemes (currentThemes s) s = s.
Proof. by destruct s. Qed.

Lemma onChange_run env closure s :
  onChange env closure s =
    if bool_decide (currentThemes s !! closure.1 = Some (closure.2))
    then notify env s else mkOutcome s [] (Ok tt).
Proof.
  unfold onChange. unfold bind. msimpl. case_bool_decide; [|done].
  rewrite setThemesAndNotify_eq, with_currentThemes_id. apply outcome_eta.
Qed.

Lemma mediaChange_run env q s :
  mediaChange env q s =
    match mediaQueryCache s !! q with
    | Some (mkMql _ (Some closure)) => detached (onChange env closure) s
    | _ => mkOutcome s [] (Ok tt)
    end.
Proof.
  unfold mediaChange. unfold bind. msimpl.
  destruct (mediaQueryCache s !! q) as [[m [closure|]]|]; cbn [mql_onchange]; [|done..].
  unfold detached. by destruct (onChange env closure s).
Qed.

(** The [change] listener of a media query is the closure of the dimension
    and option that first asked for the query.  When that option is the
    selection of that dimension, a flip runs one notification pass. *)
Lemma mediaChange_selected env q s d v :
  mediaQueryCache s !! q = Some (mkMql q (Some (d, v))) ->
  currentThemes s !! d = Some v ->
  mediaChange env q s = detached (notify env) s.
Proof.
  intros Hq Hd. rewrite mediaChange_run, Hq. unfold detached.
  rewrite onChange_run. cbn [fst snd]. by rewrite bool_decide_eq_true_2.
Qed.

(** When it is not, a flip does nothing, whatever else is selected. *)
Lemma mediaChange_unselected env q s d v :
  mediaQueryCache s !! q = Some (mkMql q (Some (d, v))) ->
  currentThemes s !! d <> Some v ->
  mediaChange env q s = mkOutcome s [] (Ok tt).
Proof.
  intros Hq Hd. rewrite mediaChange_run, Hq. unfold detached.
  rewrite onChange_run. cbn [fst snd]. by rewrite bool_decide_eq_false_2.
Qed.

(** C5 at this store.  The accent is environment-derived and selected, one
    subscriber is registered, and the media query of the accent has a
    [change] listener, the one the colour scheme attached.  Flipping the
    query changes the resolved accent from the not-matching to the matching
    value, yet no subscriber is called: the listener only looks at the
    colour scheme. *)
Theorem flip_shared_query_unnoticed :
  let s := sharedStore in
  let o := flip lightEnv darkQuery s in
  currentThemes s !! "accent" = Some "auto" /\
  selectedOption s "accent" "auto" =
    Some (mkOption "auto" (Some (darkQuery, "vivid", "muted"))) /\
  listeners s = [7] /\
  mediaQueryCache s !! darkQuery = Some (mkMql darkQuery (Some ("colorScheme", "system"))) /\
  result (getResolvedThemes lightEnv s) =
    Ok (defined {[ "colorScheme" := "light"; "accent" := "muted" ]}) /\
  result (getResolvedThemes (flipEnv darkQuery lightEnv) (post o)) =
    Ok (defined {[ "colorScheme" := "light"; "accent" := "vivid" ]}) /\
  notifications (trace o) = [].
Proof. vm_compute. repeat split; reflexivity. Qed.

(** ** Invariants of store methods *)

Section Invariants.
Context (I : ThemeStore -> Prop).

Lemma inv_ret {A} (a : A) : inv I (ret a).
Proof. by intros s Hs. Qed.

Lemma inv_throw {A} e : inv I (@throw A e).
Proof. by intros s Hs. Qed.

Lemma inv_emit e : inv I (emit e).
Proof. by intros s Hs. Qed.

Lemma inv_gets {A} (f : ThemeStore -> A) : inv I (gets f).
Proof. by intros s Hs. Qed.

Lemma inv_modify g : (forall s, I s -> I (g s)) -> inv I (modify g).
Proof. intros H s Hs. by apply H. Qed.

Lemma inv_bind {A B} (m : M A) (k : A -> M B) :
  inv I m -> (forall a, inv I (k a)) -> inv I (bind m k).
Proof.
  intros Hm Hk s Hs. unfold bind.
  destruct (result (m s)) as [a|e]; cbn [post].
  - apply Hk. by apply Hm.
  - by apply Hm.
Qed.

(** After reading a field, the continuation may use that the value read
    comes from a store satisfying the invariant. *)
Lemma inv_bind_gets {A B} (f : ThemeStore -> A) (k : A -> M B) :
  (forall s0, I s0 -> inv I (k (f s0))) -> inv I (bind (gets f) k).
Proof. intros Hk s Hs. unfold bind. msimpl. by apply Hk. Qed.

Lemma inv_mapM {A B} (f : A -> M B) l :
  (forall x, inv I (f x)) -> inv I (mapM f l).
Proof.
  intros Hf. induction l as [|x l IH]; cbn [mapM]; [apply inv_ret |].
  apply inv_bind; [done |]. intros y.
  apply inv_bind; [done |]. intros ys. apply inv_ret.
Qed.

Lemma inv_forM_ {A} (f : A -> M unit) l :
  (forall x, inv I (f x)) -> inv I (forM_ l f).
Proof.
  intros Hf. induction l as [|x l IH]; cbn [forM_]; [apply inv_ret |].
  apply inv_bind; [done |]. by intros _.
Qed.

Lemma inv_detached m : inv I m -> inv I (detached m).
Proof. intros Hm s Hs. unfold detached. cbn [post]. by apply Hm. Qed.
End Invariants.

(** One step of a proof of [inv]: follow the structure of the method. *)
Ltac inv_step :=
  match goal with
  | |- inv _ (bind (gets _) _) => apply inv_bind_gets; intros ? ?
  | |- inv _ (bind _ _) => apply inv_bind; [| intros ?]
  | |- inv _ (ret _) => apply inv_ret
  | |- inv _ (throw _) => apply inv_throw
  | |- inv _ (emit _) => apply inv_emit
  | |- inv _ (gets _) => apply inv_gets
  | |- inv _ (mapM _ _) => apply inv_mapM; intros ?
  | |- inv _ (forM_ _ _) => apply inv_forM_; intros ?
  | |- inv _ (detached _) => apply inv_detached
  | |- inv _ (modify _) => apply inv_modify; intros ? ?
  | |- inv _ (match ?x with _ => _ end) => destruct x
  end.

Ltac inv_auto := repeat inv_step.

(** *** The key never changes and an aborted store stays aborted *)

Lemma keeps_abort k b s : keeps k b s -> keeps k b (abort s).
Proof. intros [Hk _]. by split. Qed.

Section Keeps.
Context (k : string) (b : bool).

Lemma resolveThemes_keeps env : inv (keeps k b) (resolveThemes env).
Proof.
  unfold resolveThemes, resolveEntry, resolveMember, resolveThemeOption.
  inv_auto; assumption.
Qed.

Lemma notify_keeps env : inv (keeps k b) (notify env).
Proof.
  unfold notify, callListener. inv_auto. apply resolveThemes_keeps.
Qed.

Lemma setThemesAndNotify_keeps env t : inv (keeps k b) (setThemesAndNotify env t).
Proof.
  unfold setThemesAndNotify. inv_auto; [assumption | apply notify_keeps].
Qed.

Lemma setThemes_keeps env arg settled : inv (keeps k b) (setThemes env arg settled).
Proof.
  unfold setThemes, getStateToPersist.
  inv_auto; apply setThemesAndNotify_keeps.
Qed.

Lemma updateSystemOption_keeps env themeKey pair settled :
  inv (keeps k b) (updateSystemOption env themeKey pair settled).
Proof.
  unfold updateSystemOption. inv_auto; [assumption | apply setThemes_keeps].
Qed.

Lemma restore_keeps env got : inv (keeps k b) (restore env got).
Proof.
  unfold restore, restoreResume.
  inv_auto; first [assumption | apply setThemesAndNotify_keeps].
Qed.

Lemma subscribe_keeps env callback immediate :
  inv (keeps k b) (subscribe env callback immediate).
Proof.
  unfold subscribe. inv_auto; first [assumption | apply resolveThemes_keeps].
Qed.

Lemma unsubscribe_keeps callback : inv (keeps k b) (unsubscribe callback).
Proof. unfold unsubscribe. inv_auto; assumption. Qed.

Lemma sync_keeps : inv (keeps k b) sync.
Proof. unfold sync. inv_auto; assumption. Qed.

Lemma cancelSync_keeps sub : inv (keeps k b) (cancelSync sub).
Proof. unfold cancelSync. inv_auto; assumption. Qed.

Lemma watchEvent_keeps env key p : inv (keeps k b) (watchEvent env key p).
Proof.
  unfold watchEvent, syncHandler.
  inv_auto; first [assumption | apply setThemesAndNotify_keeps].
Qed.

Lemma mediaChange_keeps env q : inv (keeps k b) (mediaChange env q).
Proof.
  unfold mediaChange, onChange.
  inv_auto; apply setThemesAndNotify_keeps.
Qed.

Lemma _destroy_keeps : inv (keeps k b) _destroy.
Proof.
  unfold _destroy. inv_auto; [assumption | by apply keeps_abort].
Qed.
End Keeps.

(** *** A destroyed store attaches nothing *)

Lemma dead_abort s : dead (abort s).
Proof.
  split; [done | split; [done |]]. cbn [abort mediaQueryCache].
  intros q m. rewrite lookup_fmap.
  destruct (mediaQueryCache s !! q); [|done]. by intros [= <-].
Qed.

Lemma dead_with_cache s0 s1 s q closure :
  dead s0 -> dead s1 -> dead s ->
  dead (with_cache
          (<[q := mkMql q (if aborted s0 then None else Some closure)]>
             (mediaQueryCache s1)) s).
Proof.
  intros (Ha0 & _) (_ & _ & Hc1) (Ha & Hw & _).
  split; [done | split; [done |]]. cbn [with_cache mediaQueryCache].
  rewrite Ha0. apply map_Forall_insert_2; done.
Qed.

Lemma dead_with_watch s0 s1 s sub seq :
  dead s0 -> dead s1 -> dead s ->
  dead (with_watch (if aborted s0 then watchSubs s1 else watchSubs s1 ++ [sub]) seq s).
Proof.
  intros (Ha0 & _) (_ & Hw1 & _) (Ha & _ & Hc).
  split; [done | split; [|done]]. cbn [with_watch watchSubs]. by rewrite Ha0.
Qed.

Lemma dead_cancel s1 s sub seq :
  dead s1 -> dead s -> dead (with_watch (setDelete sub (watchSubs s1)) seq s).
Proof.
  intros (_ & Hw1 & _) (Ha & _ & Hc).
  split; [done | split; [|done]]. cbn [with_watch watchSubs]. by rewrite Hw1.
Qed.

Lemma resolveThemes_dead env : inv dead (resolveThemes env).
Proof.
  unfold resolveThemes, resolveEntry, resolveMember, resolveThemeOption.
  inv_auto. by apply dead_with_cache.
Qed.

Lemma notify_dead env : inv dead (notify env).
Proof. unfold notify, callListener. inv_auto. apply resolveThemes_dead. Qed.

Lemma setThemesAndNotify_dead env t : inv dead (setThemesAndNotify env t).
Proof. unfold setThemesAndNotify. inv_auto; [assumption | apply notify_dead]. Qed.

Lemma setThemes_dead env arg settled : inv dead (setThemes env arg settled).
Proof.
  unfold setThemes, getStateToPersist. inv_auto; apply setThemesAndNotify_dead.
Qed.

Lemma updateSystemOption_dead env themeKey pair settled :
  inv dead (updateSystemOption env themeKey pair settled).
Proof.
  unfold updateSystemOption. inv_auto; [assumption | apply setThemes_dead].
Qed.

Lemma restore_dead env got : inv dead (restore env got).
Proof.
  unfold restore, restoreResume.
  inv_auto; first [assumption | apply setThemesAndNotify_dead].
Qed.

Lemma subscribe_dead env callback immediate :
  inv dead (subscribe env callback immediate).
Proof.
  unfold subscribe. inv_auto; first [assumption | apply resolveThemes_dead].
Qed.

Lemma unsubscribe_dead callback : inv dead (unsubscribe callback).
Proof. unfold unsubscribe. inv_auto; assumption. Qed.

Lemma sync_dead : inv dead sync.
Proof. unfold sync. inv_auto. by apply dead_with_watch. Qed.

Lemma cancelSync_dead sub : inv dead (cancelSync sub).
Proof. unfold cancelSync. inv_auto. by apply dead_cancel. Qed.

(** On a destroyed store an environment change and an external storage
    event reach no callback. *)
Lemma mediaChange_dead env q s :
  dead s -> mediaChange env q s = mkOutcome s [] (Ok tt).
Proof.
  intros (_ & _ & Hc). rewrite mediaChange_run.
  destruct (mediaQueryCache s !! q) as [[m [closure|]]|] eqn:Hq; [|done..].
  by apply Hc in Hq.
Qed.

Lemma watchEvent_dead env key p s :
  dead s -> watchEvent env key p s = mkOutcome s [] (Ok tt).
Proof.
  intros (_ & Hw & _). unfold watchEvent. unfold bind. msimpl. by rewrite Hw.
Qed.

(** ** [_destroy] *)

Lemma _destroy_run s : _destroy s = mkOutcome (destroyed s) [] (Ok tt).
Proof. done. Qed.

Lemma destroyed_idem s : destroyed (destroyed s) = destroyed s.
Proof.
  unfold destroyed, abort, with_listeners. cbn. f_equal.
  rewrite <- map_fmap_compose. by apply map_fmap_ext.
Qed.

(** ** The registry and the stores it has handed out *)

Lemma perform_keeps k b c s : keeps k b s -> keeps k b (perform c s).
Proof.
  destruct c; cbn [perform].
  - apply resolveThemes_keeps.
  - apply setThemes_keeps.
  - apply updateSystemOption_keeps.
  - apply restore_keeps.
  - apply subscribe_keeps.
  - apply unsubscribe_keeps.
  - apply sync_keeps.
  - apply cancelSync_keeps.
  - apply _destroy_keeps.
  - apply mediaChange_keeps.
  - apply watchEvent_keeps.
Qed.

Lemma perform_dead c s : dead s -> dead (perform c s).
Proof.
  intros Hs. destruct c; cbn [perform].
  - by apply resolveThemes_dead.
  - by apply setThemes_dead.
  - by apply updateSystemOption_dead.
  - by apply restore_dead.
  - by apply subscribe_dead.
  - by apply unsubscribe_dead.
  - by apply sync_dead.
  - by apply cancelSync_dead.
  - apply dead_abort.
  - by rewrite mediaChange_dead.
  - by rewrite watchEvent_dead.
Qed.

Lemma storeKeyOf_nonempty key : storeKeyOf key <> "".
Proof. destruct key as [k|]; simpl; [case_bool_decide |]; done. Qed.

Lemma storeKeyOf_idem key : storeKeyOf (Some (storeKeyOf key)) = storeKeyOf key.
Proof.
  pose proof (storeKeyOf_nonempty key) as H.
  generalize dependent (storeKeyOf key). intros k Hk.
  cbn [storeKeyOf]. by rewrite bool_decide_eq_false_2.
Qed.

Lemma storeKeyOf_default key :
  storeKeyOf (Some (default PACKAGE_NAME key)) = storeKeyOf key.
Proof. by destruct key. Qed.

Lemma construct_fresh o s :
  construct o = Ok s ->
  registeredKey s = storeKeyOf (o_key o) /\ aborted s = false /\
  listeners s = [] /\ watchSubs s = [] /\ mediaQueryCache s = ∅ /\
  opt_config s = (keyConfig (o_initialState o) (o_config o)).1.
Proof.
  unfold construct. destruct (getDefaultThemes (o_config o)); [|done].
  intros [= <-]. split; [|done].
  unfold registeredKey. cbn [opt_key]. apply storeKeyOf_default.
Qed.

Lemma get_run key R :
  get key R =
    match registry R !! storeKeyOf key with
    | Some ref => (R, Ok ref)
    | None => (R, Throw (NotFound (storeKeyOf key)))
    end.
Proof. done. Qed.

Lemma destroy_run key R :
  destroy key R =
    match registry R !! storeKeyOf key with
    | Some ref =>
        (mkRegistry (delete (storeKeyOf key) (registry R))
           (alter destroyed ref (objects R)) (nextRef R), Ok tt)
    | None => (R, Throw (NotFound (storeKeyOf key)))
    end.
Proof. done. Qed.

Lemma emptyRegistry_wf : regWf emptyRegistry.
Proof. split; intros *; cbn; by rewrite lookup_empty. Qed.

Lemma destroy_wf key R : regWf R -> regWf (destroy key R).1.
Proof.
  intros [Hreg Hbound Hlive]. rewrite destroy_run.
  destruct (registry R !! storeKeyOf key) as [ref|] eqn:Hk; [|by split].
  destruct (Hreg _ _ Hk) as (s0 & Hs0 & Hkey0).
  split; cbn [fst registry objects nextRef].
  - intros k ref' Hk'. apply lookup_delete_Some in Hk' as [Hne Hk'].
    destruct (Hreg _ _ Hk') as (s & Hs & Hkey).
    exists s. split; [|done].
    rewrite lookup_alter_ne; [done |].
    intros ->. congruence.
  - intros r s Hr. apply lookup_alter_Some in Hr as [(_ & s' & Hs' & _)|[_ Hr]];
      by eapply Hbound.
  - intros r s Hr Hal. apply lookup_alter_Some in Hr as [(-> & s' & Hs' & ->)|[Hne Hr]];
      [done |].
    pose proof (Hlive _ _ Hr Hal) as Hr'.
    rewrite lookup_delete_ne; [done |].
    intros Heq. rewrite <- Heq in Hr'. congruence.
Qed.

Lemma destroy_unregisters key R :
  registry (destroy key R).1 !! storeKeyOf key = None.
Proof.
  rewrite destroy_run.
  destruct (registry R !! storeKeyOf key) as [ref|] eqn:Hk; cbn [fst registry]; [|done].
  apply lookup_delete_eq.
Qed.

Lemma create_run o R :
  create o R =
    match construct o with
    | Throw e => (vacated o R, Throw e)
    | Ok themeStore =>
        (mkRegistry
           (<[storeKeyOf (o_key o) := nextRef (vacated o R)]> (registry (vacated o R)))
           (<[nextRef (vacated o R) := themeStore]> (objects (vacated o R)))
           (S (nextRef (vacated o R))),
         Ok (nextRef (vacated o R)))
    end.
Proof. done. Qed.

Lemma vacated_wf o R : regWf R -> regWf (vacated o R).
Proof.
  intros Hwf. unfold vacated.
  destruct (registry R !! storeKeyOf (o_key o)); [by apply destroy_wf | done].
Qed.

Lemma vacated_free o R : registry (vacated o R) !! storeKeyOf (o_key o) = None.
Proof.
  unfold vacated. destruct (registry R !! storeKeyOf (o_key o)) eqn:Hk; [|done].
  pose proof (destroy_unregisters (Some (storeKeyOf (o_key o))) R) as H.
  by rewrite storeKeyOf_idem in H.
Qed.

Lemma create_wf o R : regWf R -> regWf (create o R).1.
Proof.
  intros Hwf. rewrite create_run.
  pose proof (vacated_wf o R Hwf) as [Hreg Hbound Hlive].
  pose proof (vacated_free o R) as Hfree.
  destruct (construct o) as [new|e] eqn:Hnew; [|by split].
  destruct (construct_fresh o new Hnew) as (Hkey & _).
  set (R1 := vacated o R) in *. set (k := storeKeyOf (o_key o)) in *.
  split; cbn [fst registry objects nextRef].
  - intros k' ref Hk'. apply lookup_insert_Some in Hk' as [[<- <-]|[Hne Hk']].
    + exists new. by rewrite lookup_insert_eq.
    + destruct (Hreg _ _ Hk') as (s & Hs & Hks).
      exists s. split; [|done].
      rewrite lookup_insert_ne; [done |].
      apply Hbound in Hs. lia.
  - intros r s Hr. apply lookup_insert_Some in Hr as [[<- <-]|[Hne Hr]]; [lia |].
    apply Hbound in Hr. lia.
  - intros r s Hr Hal. apply lookup_insert_Some in Hr as [[<- <-]|[Hne Hr]].
    + rewrite Hkey. apply lookup_insert_eq.
    + pose proof (Hlive _ _ Hr Hal) as Hr'.
      rewrite lookup_insert_ne; [done |].
      intros Heq. rewrite <- Heq in Hr'. congruence.
Qed.

Lemma onObject_wf ref c R : regWf R -> regWf (onObject ref (perform c) R).
Proof.
  intros [Hreg Hbound Hlive]. split; cbn [onObject registry objects nextRef].
  - intros k r Hk. destruct (Hreg _ _ Hk) as (s & Hs & Hks).
    destruct (decide (ref = r)) as [->|Hne].
    + exists (perform c s). rewrite lookup_alter_eq, Hs. split; [done |].
      unfold registeredKey in *.
      by destruct (perform_keeps (opt_key s) false c s) as [-> _].
    + exists s. by rewrite lookup_alter_ne.
  - intros r s Hr. apply lookup_alter_Some in Hr as [(_ & s' & Hs' & _)|[_ Hr]];
      by eapply Hbound.
  - intros r s Hr Hal. apply lookup_alter_Some in Hr as [(-> & s' & Hs' & ->)|[Hne Hr]].
    + destruct (perform_keeps (opt_key s') (aborted s') c s') as [Hk Hab]; [done |].
      unfold registeredKey. rewrite Hk. apply Hlive; [done |].
      destruct (aborted s'); [|done]. rewrite Hab in Hal; done.
    + by apply Hlive.
Qed.

Lemma reachable_wf R : reachable R -> regWf R.
Proof.
  induction 1 as [|o R _ IH|key R _ IH|ref c R _ IH].
  - apply emptyRegistry_wf.
  - by apply create_wf.
  - by apply destroy_wf.
  - by apply onObject_wf.
Qed.

(** ** The overrides the constructor seeds, and who keeps them *)

Lemma keyOption_seeds init themeKey acc d :
  (forall v o, acc.1 !! v = Some o -> is_Some (media o) -> is_Some (acc.2 !! themeKey)) ->
  (forall v o, (keyOption init themeKey acc d).1 !! v = Some o -> is_Some (media o) ->
               is_Some ((keyOption init themeKey acc d).2 !! themeKey)) /\
  (forall k, is_Some (acc.2 !! k) -> is_Some ((keyOption init themeKey acc d).2 !! k)).
Proof.
  intros Hacc.
  assert (Hmono : forall k,
    is_Some (acc.2 !! k) -> is_Some ((keyOption init themeKey acc d).2 !! k)).
  { intros k Hk. destruct d as [str|opt]; cbn [keyOption snd]; [done |].
    destruct (media opt) as [[[q a] b]|]; [|done].
    destruct (match init_systemOptions init with
              | Some _ => bool_decide (acc.2 !! themeKey = None)
              | None => true
              end); [|done].
    rewrite lookup_insert. by case_decide. }
  split; [|done].
  intros v o Hv Hm. destruct d as [str|opt]; cbn [keyOption fst snd] in *.
  - rewrite lookup_insert in Hv. case_decide.
    + injection Hv as <-. by destruct Hm.
    + by eapply Hacc.
  - rewrite lookup_insert in Hv. case_decide as Hcase.
    + injection Hv as <-. destruct Hm as [[[q a] b] Hm]. rewrite Hm.
      destruct (init_systemOptions init) as [given|].
      * case_bool_decide as Hunset.
        -- by rewrite lookup_insert_eq.
        -- by apply not_eq_None_Some.
      * by rewrite lookup_insert_eq.
    + pose proof (Hmono themeKey (Hacc v o Hv Hm)) as H'.
      by cbn [keyOption snd] in H'.
Qed.

Lemma keyTheme_seeds init acc entry :
  overridesSeeded (acc.1) (acc.2) ->
  overridesSeeded ((keyTheme init acc entry).1) ((keyTheme init acc entry).2).
Proof.
  intros Hacc. unfold keyTheme. cbn [fst snd].
  set (start := (default ∅ (acc.1 !! entry.1), acc.2)).
  assert (Hfold :
    (forall v o, (foldl (keyOption init (entry.1)) start (options (entry.2))).1 !! v = Some o ->
       is_Some (media o) ->
       is_Some ((foldl (keyOption init (entry.1)) start (options (entry.2))).2 !! entry.1)) /\
    (forall k, is_Some (acc.2 !! k) ->
       is_Some ((foldl (keyOption init (entry.1)) start (options (entry.2))).2 !! k))).
  { apply (foldl_invariant (fun a =>
      (forall v o, a.1 !! v = Some o -> is_Some (media o) -> is_Some (a.2 !! entry.1)) /\
      (forall k, is_Some (acc.2 !! k) -> is_Some (a.2 !! k)))).
    - split; [|done]. unfold start. cbn [fst snd].
      destruct (acc.1 !! entry.1) as [m|] eqn:Hm; cbn [default].
      + intros v o Hv Hmedia. by eapply Hacc.
      + intros v o Hv. by rewrite lookup_empty in Hv.
    - intros a x [Ha Hmono].
      destruct (keyOption_seeds init (entry.1) a x Ha) as [H1 H2].
      split; [done |]. intros k Hk. by apply H2, Hmono. }
  destruct Hfold as [Hown Hmono].
  intros d byOption v o Hd Hv Hm.
  rewrite lookup_insert in Hd. case_decide as Hcase.
  - injection Hd as <-. rewrite <- Hcase. by eapply Hown.
  - apply Hmono. by eapply Hacc.
Qed.

Lemma keyConfig_seeds init config :
  overridesSeeded ((keyConfig init config).1) ((keyConfig init config).2).
Proof.
  unfold keyConfig.
  apply (foldl_invariant (fun a => overridesSeeded (a.1) (a.2))).
  - intros d byOption v o Hd. cbn [fst] in Hd. by rewrite lookup_empty in Hd.
  - intros a x. apply keyTheme_seeds.
Qed.

Lemma construct_seeded o s : construct o = Ok s -> seeded (opt_config s) s.
Proof.
  unfold construct. destruct (getDefaultThemes (o_config o)); [|done].
  intros [= <-]. split; [done |]. apply keyConfig_seeds.
Qed.

Lemma seeded_overridesCover env config s :
  seeded config s -> overridesCover env s = true.
Proof.
  intros [<- Hseeded]. unfold overridesCover.
  apply orb_true_iff. right. apply forallb_forall. intros [d v] _. cbn [fst snd].
  unfold selectedOption.
  destruct (opt_config s !! d) as [byOption|] eqn:Hd; [|done].
  destruct (byOption !! v) as [o|] eqn:Hv; [|done].
  destruct (media o) as [triple|] eqn:Hm; [|done].
  apply bool_decide_eq_true. eapply Hseeded; [done | done |]. by rewrite Hm.
Qed.

Lemma seeded_grows config s0 s sys :
  seeded config s0 -> seeded config s ->
  (forall d, is_Some (storeSystemOptions s0 !! d) -> is_Some (sys !! d)) ->
  seeded config (with_systemOptions sys s).
Proof.
  intros [_ H0] [Hcfg _] Hgrow. split; [done |].
  intros d byOption v o Hd Hv Hm. cbn [with_systemOptions storeSystemOptions].
  apply Hgrow. by eapply H0.
Qed.

Section Seeded.
Context (config : KeyedThemeConfig).

Lemma resolveThemes_seeded env : inv (seeded config) (resolveThemes env).
Proof.
  unfold resolveThemes, resolveEntry, resolveMember, resolveThemeOption. inv_auto; assumption.
Qed.

Lemma setThemesAndNotify_seeded env t : inv (seeded config) (setThemesAndNotify env t).
Proof.
  unfold setThemesAndNotify, notify, callListener.
  inv_auto; first [assumption | apply resolveThemes_seeded].
Qed.

Lemma setThemes_seeded env arg settled : inv (seeded config) (setThemes env arg settled).
Proof.
  unfold setThemes, getStateToPersist. inv_auto; apply setThemesAndNotify_seeded.
Qed.

Lemma updateSystemOption_seeded env themeKey outcomes settled :
  inv (seeded config) (updateSystemOption env themeKey outcomes settled).
Proof.
  unfold updateSystemOption. inv_auto; [| apply setThemes_seeded].
  match goal with
  | |- seeded _ (with_systemOptions (<[_:=_]> (storeSystemOptions ?s0)) _) =>
      apply (seeded_grows config s0); [assumption | assumption |]
  end.
  intros d Hd. rewrite lookup_insert. by case_decide.
Qed.

Lemma restore_seeded env got : inv (seeded config) (restore env got).
Proof.
  unfold restore, restoreResume.
  inv_auto; try apply setThemesAndNotify_seeded.
  match goal with
  | |- seeded _ (with_systemOptions (_ ∪ storeSystemOptions ?s0) _) =>
      apply (seeded_grows config s0); [assumption | assumption |]
  end.
  intros d Hd. apply lookup_union_is_Some. by right.
Qed.

Lemma subscribe_seeded env callback immediate :
  inv (seeded config) (subscribe env callback immediate).
Proof.
  unfold subscribe. inv_auto; first [assumption | apply resolveThemes_seeded].
Qed.

Lemma unsubscribe_seeded callback : inv (seeded config) (unsubscribe callback).
Proof. unfold unsubscribe. inv_auto; assumption. Qed.

Lemma sync_seeded : inv (seeded config) sync.
Proof. unfold sync. inv_auto; assumption. Qed.

Lemma cancelSync_seeded sub : inv (seeded config) (cancelSync sub).
Proof. unfold cancelSync. inv_auto; assumption. Qed.

Lemma mediaChange_seeded env q : inv (seeded config) (mediaChange env q).
Proof. unfold mediaChange, onChange. inv_auto; apply setThemesAndNotify_seeded. Qed.
End Seeded.

(** Every call except an external storage event keeps the overrides the
    constructor has seeded. *)
Lemma perform_seeded config c s :
  (forall env key p, c <> EventWatch env key p) ->
  seeded config s -> seeded config (perform c s).
Proof.
  intros Hc Hs. destruct c; cbn [perform].
  - by apply resolveThemes_seeded.
  - by apply setThemes_seeded.
  - by apply updateSystemOption_seeded.
  - by apply restore_seeded.
  - by apply subscribe_seeded.
  - by apply unsubscribe_seeded.
  - by apply sync_seeded.
  - by apply cancelSync_seeded.
  - by destruct Hs.
  - by apply mediaChange_seeded.
  - by destruct (Hc env key persistedState).
Qed.

(** So a store that no external storage event has reached resolves every
    selection inside its configuration. *)
Lemma resolution_total_seeded env config s :
  seeded config s -> withinConfig s = true ->
  exists r, result (getResolvedThemes env s) = Ok r.
Proof.
  intros Hs Hw. unfold getResolvedThemes.
  destruct (resolveThemes_spec env s) as (-> & _).
  apply resolution_total; [done |]. by eapply seeded_overridesCover.
Qed.

(** ** C8: the registry *)

(** C8.  With [storeKey] the key after defaulting ([key || PACKAGE_NAME],
    which is the key itself unless it is missing or empty):
    [get] and [destroy] throw exactly when no store is registered under
    [storeKey], and what they throw is NotFound.  [create] on a key that has
    a store returns a fresh reference instead of throwing: the store
    registered before has been destroyed (no listener, abort signal fired,
    no [change] or [watch] handler attached) and the new one is registered
    in its place.  In every registry a program can reach, two stores that
    have not been destroyed and belong to the same key are the same store. *)
Theorem registry_contract :
  (storeKeyOf None = PACKAGE_NAME /\ storeKeyOf (Some "") = PACKAGE_NAME /\
   forall k, k <> "" -> storeKeyOf (Some k) = k) /\
  (forall key R,
     ((exists e, (get key R).2 = Throw e) <-> registry R !! storeKeyOf key = None) /\
     (forall e, (get key R).2 = Throw e -> e = NotFound (storeKeyOf key)) /\
     ((exists e, (destroy key R).2 = Throw e) <-> registry R !! storeKeyOf key = None) /\
     (forall e, (destroy key R).2 = Throw e -> e = NotFound (storeKeyOf key))) /\
  (forall o R ref old new,
     reachable R ->
     registry R !! storeKeyOf (o_key o) = Some ref -> objects R !! ref = Some old ->
     construct o = Ok new ->
     let R' := (create o R).1 in
     (create o R).2 = Ok (nextRef R) /\ nextRef R <> ref /\
     registry R' !! storeKeyOf (o_key o) = Some (nextRef R) /\
     objects R' !! nextRef R = Some new /\
     objects R' !! ref = Some (destroyed old) /\
     listeners (destroyed old) = [] /\ dead (destroyed old)) /\
  (forall R, reachable R -> forall ref1 ref2 s1 s2,
     objects R !! ref1 = Some s1 -> objects R !! ref2 = Some s2 ->
     aborted s1 = false -> aborted s2 = false ->
     registeredKey s1 = registeredKey s2 -> ref1 = ref2).
Proof.
  split; [|split; [|split]].
  - split; [done | split; [done |]].
    intros k Hk. cbn [storeKeyOf]. by rewrite bool_decide_eq_false_2.
  - intros key R. rewrite get_run, destroy_run.
    destruct (registry R !! storeKeyOf key) as [ref|]; cbn [snd].
    + split; [split; [by intros [e He] | done] |].
      split; [done |]. split; [split; [by intros [e He] | done] | done].
    + split; [split; [done | by eexists] |].
      split; [by intros e [= <-] |].
      split; [split; [done | by eexists] | by intros e [= <-]].
  - intros o R ref old new Hreach Hk Hold Hnew R'.
    pose proof (reachable_wf R Hreach) as [_ Hbound _].
    pose proof (Hbound _ _ Hold) as Hlt.
    assert (Hvac : vacated o R =
      mkRegistry (delete (storeKeyOf (o_key o)) (registry R))
        (alter destroyed ref (objects R)) (nextRef R)).
    { unfold vacated. rewrite Hk, destroy_run, storeKeyOf_idem, Hk. done. }
    unfold R'. rewrite create_run, Hnew, Hvac. cbn [fst snd registry objects nextRef].
    split; [done |]. split; [lia |].
    split; [apply lookup_insert_eq |]. split; [apply lookup_insert_eq |].
    split; [| split; [done | apply dead_abort]].
    rewrite lookup_insert_ne by lia. by rewrite lookup_alter_eq, Hold.
  - intros R Hreach ref1 ref2 s1 s2 H1 H2 Ha1 Ha2 Hkey.
    pose proof (reachable_wf R Hreach) as [_ _ Hlive].
    pose proof (Hlive _ _ H1 Ha1) as Hr1. pose proof (Hlive _ _ H2 Ha2) as Hr2.
    rewrite Hkey in Hr1. congruence.
Qed.

(** C8 at the running example: [create] twice with the same key. *)
Lemma registry_contract_witness :
  let R' := (create demoOptions demoRegistry).1 in
  reachable demoRegistry /\
  registry demoRegistry !! "palettez" = Some 0 /\
  objects demoRegistry !! 0 = Some demoStore /\
  construct demoOptions = Ok demoStore /\
  (create demoOptions demoRegistry).2 = Ok 1 /\
  registry R' !! "palettez" = Some 1 /\
  objects R' !! 0 = Some (destroyed demoStore).
Proof.
  intros R'.
  assert (Hreach : reachable demoRegistry) by apply reach_create, reach_empty.
  assert (Hk : registry demoRegistry !! storeKeyOf (o_key demoOptions) = Some 0)
    by (vm_compute; reflexivity).
  assert (Hold : objects demoRegistry !! 0 = Some demoStore) by (vm_compute; reflexivity).
  assert (Hnew : construct demoOptions = Ok demoStore) by (vm_compute; reflexivity).
  destruct (proj1 (proj2 (proj2 registry_contract)) demoOptions demoRegistry 0 demoStore
              demoStore Hreach Hk Hold Hnew) as (Hres & _ & Hreg & _ & Hobj & _).
  repeat split; assumption.
Defined.

(** ** C9: destroying a store *)

(** C9, as stated, fails: [Registry.destroy] throws NotFound the second
    time, and [_destroy] leaves the registry entry where it is. *)
Lemma destroy_twice_counterexample :
  ~ destroyTwiceAndUnregister demoRegistry (Some "palettez") 0.
Proof.
  intros [[_ H]|H]; vm_compute in H; discriminate H.
Qed.

(** C9, amended.  The store's own [_destroy] is idempotent: it never throws,
    and a second call changes nothing.  It clears the listener set and fires
    the abort signal, which detaches every [change] listener and every
    [watch] handler; from then on, whatever is called on the store, no
    environment change and no external storage event reaches a callback,
    and a notification pass over the emptied listener set calls nobody.
    [_destroy] does not touch the registry: it is [Registry.destroy] that
    runs [_destroy] on the registered store and removes the entry, and a
    second [Registry.destroy] for the same key throws NotFound. *)
Theorem destroy_contract :
  (forall s,
     _destroy s = mkOutcome (destroyed s) [] (Ok tt) /\
     _destroy (destroyed s) = mkOutcome (destroyed s) [] (Ok tt) /\
     listeners (destroyed s) = [] /\ dead (destroyed s)) /\
  (forall s, dead s ->
     (forall env q, mediaChange env q s = mkOutcome s [] (Ok tt)) /\
     (forall env key p, watchEvent env key p s = mkOutcome s [] (Ok tt)) /\
     (forall c, dead (perform c s))) /\
  (forall env s, listeners s = [] -> notify env s = mkOutcome s [] (Ok tt)) /\
  (forall ref R, registry (onObject ref (perform CallDestroy) R) = registry R) /\
  (forall key R ref, registry R !! storeKeyOf key = Some ref ->
     let R' := (destroy key R).1 in
     (destroy key R).2 = Ok tt /\
     registry R' !! storeKeyOf key = None /\
     objects R' = alter destroyed ref (objects R) /\
     destroy key R' = (R', Throw (NotFound (storeKeyOf key)))).
Proof.
  split; [|split; [|split; [|split]]].
  - intros s. split; [done |]. split; [by rewrite _destroy_run, destroyed_idem |].
    split; [done | apply dead_abort].
  - intros s Hs. split; [|split].
    + intros env q. by apply mediaChange_dead.
    + intros env key p. by apply watchEvent_dead.
    + intros c. by apply perform_dead.
  - intros env s. apply notify_nobody.
  - done.
  - intros key R ref Hk R'. unfold R'. rewrite !destroy_run, Hk.
    cbn [fst snd registry objects]. rewrite lookup_delete_eq. done.
Qed.

(** C9, amended, at the running example. *)
Lemma destroy_contract_witness :
  let R' := (destroy (Some "palettez") demoRegistry).1 in
  registry demoRegistry !! storeKeyOf (Some "palettez") = Some 0 /\
  (destroy (Some "palettez") demoRegistry).2 = Ok tt /\
  destroy (Some "palettez") R' = (R', Throw (NotFound "palettez")) /\
  dead (destroyed watchedStore) /\
  mediaChange darkEnv darkQuery (destroyed watchedStore) =
    mkOutcome (destroyed watchedStore) [] (Ok tt).
Proof.
  intros R'.
  destruct destroy_contract as (Hstore & Hdead & _ & _ & Hreg).
  assert (Hk : registry demoRegistry !! storeKeyOf (Some "palettez") = Some 0)
    by (vm_compute; reflexivity).
  destruct (Hreg (Some "palettez") demoRegistry 0 Hk) as (Hres & _ & _ & Htwice).
  destruct (Hstore watchedStore) as (_ & _ & _ & Hd).
  destruct (Hdead (destroyed watchedStore) Hd) as (Hmedia & _ & _).
  split; [exact Hk |]. split; [exact Hres |]. split; [exact Htwice |].
  split; [exact Hd | apply Hmedia].
Defined.

(** * Further properties *)

(** ** [getDefaultThemes] and the keyed configuration *)

Lemma defaultEntries_spec config l :
  defaultEntries config = Ok l <->
  Forall2 (fun entry y => y.1 = entry.1 /\ defaultOptionValue (entry.2) = Ok (y.2)) config l.
Proof.
  revert l. induction config as [|[k d] config IH]; intros l; cbn [defaultEntries].
  - split; [intros [= <-]; constructor | by inversion 1].
  - destruct (defaultOptionValue d) as [v|e] eqn:Hd.
    + destruct (defaultEntries config) as [l'|e] eqn:Hl.
      * split.
        -- intros [= <-]. constructor; [by split | by apply IH].
        -- inversion 1 as [|? [k' v'] ? l'' [Hk Hv] Hrest]; subst. cbn in *.
           apply IH in Hrest. rewrite Hd in Hv. by simplify_eq.
      * split; [done |].
        inversion 1 as [|? y ? l'' _ Hrest]; subst. by apply IH in Hrest.
    + split; [done |].
      inversion 1 as [|? y ? l'' [_ Hv] _]; subst. cbn in Hv. congruence.
Qed.

Lemma defaultEntries_keys config l :
  defaultEntries config = Ok l -> l.*1 = config.*1.
Proof.
  rewrite defaultEntries_spec. induction 1 as [|x y ? ? [Hk _] _ IH]; [done |].
  cbn. by rewrite Hk, IH.
Qed.

Lemma defaultEntries_throw config e :
  defaultEntries config = Throw e ->
  e = TypeError /\
  exists k d, (k, d) ∈ config /\ defaultOption d = None /\ options d = [].
Proof.
  induction config as [|[k d] config IH]; cbn [defaultEntries]; [done |].
  destruct (defaultOptionValue d) as [v|e'] eqn:Hd.
  - destruct (defaultEntries config) as [l'|e'']; [done |].
    intros [= <-]. destruct IH as (He & k' & d' & Hin & H1 & H2); [done |].
    split; [done |]. exists k', d'. split; [by right | done].
  - intros [= <-]. unfold defaultOptionValue in Hd.
    destruct (defaultOption d) eqn:Hdef; [done |].
    destruct (options d) eqn:Hopt; [|done].
    injection Hd as <-. split; [done |]. exists k, d. split; [by left | done].
Qed.

Lemma defaultEntries_ok config :
  (forall k d, (k, d) ∈ config -> defaultOption d = None -> options d <> []) ->
  exists l, defaultEntries config = Ok l.
Proof.
  intros H. destruct (defaultEntries config) as [l|e] eqn:Hl; [by eexists |].
  apply defaultEntries_throw in Hl as (_ & k & d & Hin & H1 & H2).
  by destruct (H k d Hin H1).
Qed.

(** X1.  [getDefaultThemes] throws exactly when some dimension has neither a
    [defaultOption] nor any option, and then it is a TypeError.  Otherwise
    it has a value exactly for the dimensions of the configuration: the
    [defaultOption] where one is given, the value of the first option where
    none is. *)
Theorem getDefaultThemes_defaults config :
  ((exists e, getDefaultThemes config = Throw e) <->
   exists k d, (k, d) ∈ config /\ defaultOption d = None /\ options d = []) /\
  (forall e, getDefaultThemes config = Throw e -> e = TypeError) /\
  (forall defaults, getDefaultThemes config = Ok defaults ->
     (forall k, is_Some (defaults !! k) <-> k ∈ config.*1) /\
     (distinctKeys config = true -> forall k d, (k, d) ∈ config ->
        (forall v, defaultOption d = Some v -> defaults !! k = Some v) /\
        (forall o rest, defaultOption d = None -> options d = o :: rest ->
           defaults !! k = Some (optionValue o)))).
Proof.
  unfold getDefaultThemes. split; [|split].
  - destruct (defaultEntries config) as [l|e] eqn:Hl.
    + split; [by intros [e He] |].
      intros (k & d & Hin & Hdef & Hopt). apply defaultEntries_spec in Hl.
      apply list_elem_of_lookup in Hin as [i Hi].
      destruct (Forall2_lookup_l _ _ _ _ _ Hl Hi) as (y & _ & _ & Hy).
      cbn in Hy. unfold defaultOptionValue in Hy. by rewrite Hdef, Hopt in Hy.
    + split; [| by eexists].
      intros _. by apply defaultEntries_throw in Hl as (_ & H).
  - intros e. destruct (defaultEntries config) as [l|e'] eqn:Hl; [done |].
    intros [= <-]. by apply defaultEntries_throw in Hl as (H & _).
  - intros defaults. destruct (defaultEntries config) as [l|e] eqn:Hl; [|done].
    intros [= <-]. pose proof (defaultEntries_keys _ _ Hl) as Hkeys. split.
    + intros k. rewrite <- Hkeys. split.
      * intros [v Hv]. destruct (decide (k ∈ l.*1)) as [|Hk]; [done |].
        by rewrite fromEntries_lookup_None in Hv.
      * intros Hk. apply list_elem_of_fmap in Hk as ([k' v] & -> & Hin).
        rewrite fromEntries_list_to_map. apply elem_of_dom.
        rewrite dom_list_to_map_L. apply elem_of_list_to_set.
        rewrite fmap_reverse, elem_of_reverse. apply list_elem_of_fmap.
        by exists (k', v).
    + intros Hnd k d Hin. apply bool_decide_eq_true in Hnd.
      apply defaultEntries_spec in Hl.
      apply list_elem_of_lookup in Hin as [i Hi].
      destruct (Forall2_lookup_l _ _ _ _ _ Hl Hi) as ([k' v] & Hy & Hk & Hv).
      cbn in Hk, Hv. subst k'.
      assert (Hlook : fromEntries l !! k = Some v).
      { apply fromEntries_lookup; [by rewrite Hkeys |].
        by eapply list_elem_of_lookup_2. }
      unfold defaultOptionValue in Hv. split.
      * intros v' Hdef. rewrite Hdef in Hv. by simplify_eq.
      * intros o rest Hdef Hopt. rewrite Hdef, Hopt in Hv. by simplify_eq.
Qed.

(** X1 at the configuration of the tests. *)
Lemma getDefaultThemes_defaults_witness :
  distinctKeys demoConfig = true /\
  exists defaults,
    getDefaultThemes demoConfig = Ok defaults /\
    defaults !! "colorScheme" = Some "system".
Proof.
  split; [vm_compute; reflexivity |].
  exists (defaultThemes demoStore).
  assert (Hd : getDefaultThemes demoConfig = Ok (defaultThemes demoStore))
    by (vm_compute; reflexivity).
  split; [exact Hd |].
  destruct (proj2 (proj2 (getDefaultThemes_defaults demoConfig)) _ Hd) as (_ & Hval).
  destruct (Hval ltac:(vm_compute; reflexivity) "colorScheme"
              (mkDecl [ OObj (mkOption "system" (Some (darkQuery, "dark", "light")));
                        OStr "light"; OStr "light-modern"; OStr "dark";
                        OStr "dark-modern" ] None))
    as (_ & Hfirst).
  { apply list_elem_of_here. }
  exact (Hfirst _ _ eq_refl eq_refl).
Defined.

(** ** What the keyed configuration holds *)

Lemma foldl_invariant_in {A B} (P : A -> Prop) (f : A -> B -> A) l a :
  P a -> (forall a x, x ∈ l -> P a -> P (f a x)) -> P (foldl f a l).
Proof.
  revert a. induction l as [|x l IH]; intros a Ha Hstep; cbn; [done |].
  apply IH.
  - apply Hstep; [by left | done].
  - intros a' y Hy. apply Hstep. by right.
Qed.

Lemma foldl_reach {A B} (Q : A -> Prop) (f : A -> B -> A) l a x :
  x ∈ l -> (forall a, Q (f a x)) -> (forall a y, Q a -> Q (f a y)) ->
  Q (foldl f a l).
Proof.
  intros Hx Hhit Hkeep. revert a.
  induction l as [|y l IH]; intros a; [by apply elem_of_nil in Hx |].
  cbn. apply elem_of_cons in Hx as [<-|Hx].
  - apply foldl_invariant; [apply Hhit | done].
  - by apply IH.
Qed.

Lemma keyOption_keeps_option init themeKey acc d v :
  is_Some (acc.1 !! v) -> is_Some ((keyOption init themeKey acc d).1 !! v).
Proof.
  intros Hv. destruct d as [str|o]; cbn [keyOption fst];
    rewrite lookup_insert; by case_decide.
Qed.

Lemma keyOption_adds_option init themeKey acc d :
  (keyOption init themeKey acc d).1 !! optionValue d = Some (declaredOption d).
Proof. destruct d as [str|o]; cbn [keyOption fst]; apply lookup_insert_eq. Qed.

Lemma keyTheme_lookup init acc entry :
  (keyTheme init acc entry).1 !! entry.1 =
    Some (foldl (keyOption init (entry.1)) (default ∅ (acc.1 !! entry.1), acc.2)
            (options (entry.2))).1.
Proof. unfold keyTheme. cbn [fst]. apply lookup_insert_eq. Qed.

Lemma keyTheme_keeps_selectable init acc entry k v :
  selectable (acc.1) k v -> selectable ((keyTheme init acc entry).1) k v.
Proof.
  intros (m & Hm & Hv). destruct (decide (entry.1 = k)) as [<-|Hne].
  - eexists. split; [apply keyTheme_lookup |].
    apply (foldl_invariant (fun a => is_Some (a.1 !! v))).
    + cbn [fst]. by rewrite Hm.
    + intros a x. apply keyOption_keeps_option.
  - exists m. split; [|done]. unfold keyTheme. cbn [fst]. by rewrite lookup_insert_ne.
Qed.

Lemma keyTheme_adds_selectable init acc k d od :
  od ∈ options d -> selectable ((keyTheme init acc (k, d)).1) k (optionValue od).
Proof.
  intros Hod. eexists. split; [apply (keyTheme_lookup init acc (k, d)) |].
  cbn [fst snd].
  apply (foldl_reach (fun a => is_Some (a.1 !! optionValue od)) _ _ _ od Hod).
  - intros a. by rewrite keyOption_adds_option.
  - intros a y. apply keyOption_keeps_option.
Qed.

(** Every declared option can be selected. *)
Lemma keyConfig_complete init config k d od :
  (k, d) ∈ config -> od ∈ options d ->
  selectable ((keyConfig init config).1) k (optionValue od).
Proof.
  intros Hin Hod. unfold keyConfig.
  apply (foldl_reach (fun a => selectable (a.1) k (optionValue od)) _ _ _ (k, d) Hin).
  - intros a. by apply keyTheme_adds_selectable.
  - intros a y. apply keyTheme_keeps_selectable.
Qed.

(** The option records of one dimension that come from the declarations of
    that dimension. *)
Lemma keyOption_declared (config : ThemeConfig) init k d acc od :
  (k, d) ∈ config -> od ∈ options d ->
  (forall v o, acc.1 !! v = Some o ->
     exists d' od', (k, d') ∈ config /\ od' ∈ options d' /\
                    declaredOption od' = o /\ optionValue od' = v) ->
  forall v o, (keyOption init k acc od).1 !! v = Some o ->
    exists d' od', (k, d') ∈ config /\ od' ∈ options d' /\
                   declaredOption od' = o /\ optionValue od' = v.
Proof.
  intros Hin Hod Hacc v o Hv.
  destruct (decide (optionValue od = v)) as [<-|Hne].
  - rewrite keyOption_adds_option in Hv. injection Hv as <-. by exists d, od.
  - apply Hacc. destruct od as [str|opt]; cbn [keyOption fst optionValue] in *;
      by rewrite lookup_insert_ne in Hv.
Qed.

(** Every option of the keyed configuration is a declared one. *)
Lemma keyConfig_sound init config k byOption v o :
  (keyConfig init config).1 !! k = Some byOption -> byOption !! v = Some o ->
  exists d od, (k, d) ∈ config /\ od ∈ options d /\
               declaredOption od = o /\ optionValue od = v.
Proof.
  revert k byOption v o. unfold keyConfig.
  apply (foldl_invariant_in (fun a => forall k byOption v o,
    a.1 !! k = Some byOption -> byOption !! v = Some o ->
    exists d od, (k, d) ∈ config /\ od ∈ options d /\
                 declaredOption od = o /\ optionValue od = v)).
  - intros k byOption v o Hk. cbn [fst] in Hk. by rewrite lookup_empty in Hk.
  - intros acc [k0 d0] Hin Hacc k byOption v o Hk Hv.
    destruct (decide (k0 = k)) as [->|Hne].
    + pose proof (keyTheme_lookup init acc (k, d0)) as Hl. cbn [fst snd] in Hl.
      rewrite Hl in Hk. injection Hk as <-. revert v o Hv.
      apply (foldl_invariant_in (fun a => forall v o, a.1 !! v = Some o ->
        exists d od, (k, d) ∈ config /\ od ∈ options d /\
                     declaredOption od = o /\ optionValue od = v)).
      * cbn [fst]. intros v o Hv.
        destruct (acc.1 !! k) as [m|] eqn:Hm; cbn [default] in Hv.
        -- by eapply Hacc.
        -- by rewrite lookup_empty in Hv.
      * intros a od Hod Ha. by eapply keyOption_declared.
    + unfold keyTheme in Hk. cbn [fst] in Hk. rewrite lookup_insert_ne in Hk by done.
      by eapply Hacc.
Qed.

Lemma elem_of_getThemesAndOptions config k vs :
  (k, vs) ∈ getThemesAndOptions config <->
  exists d, (k, d) ∈ config /\ vs = map optionValue (options d).
Proof.
  unfold getThemesAndOptions. rewrite list_elem_of_In, in_map_iff. split.
  - intros ([k' d] & [= <- <-] & Hin). exists d. by rewrite list_elem_of_In.
  - intros (d & Hin & ->). exists (k, d). by rewrite <- list_elem_of_In.
Qed.

(** X2.  On a store the constructor has built, the options
    [getThemesAndOptions] lists for a dimension are exactly the values its
    keyed configuration has an option for: each listed value can be selected,
    and each option of the store is listed, under its own value. *)
Theorem getThemesAndOptions_selectable o s :
  construct o = Ok s ->
  (forall k vs v, (k, vs) ∈ getThemesAndOptions (o_config o) -> v ∈ vs ->
     is_Some (selectedOption s k v)) /\
  (forall k v opt, selectedOption s k v = Some opt ->
     value opt = v /\
     exists vs, (k, vs) ∈ getThemesAndOptions (o_config o) /\ v ∈ vs).
Proof.
  intros Hs. destruct (construct_fresh o s Hs) as (_ & _ & _ & _ & _ & Hcfg).
  unfold selectedOption. rewrite Hcfg. split.
  - intros k vs v Hk Hv. apply elem_of_getThemesAndOptions in Hk as (d & Hin & ->).
    apply list_elem_of_In, in_map_iff in Hv as (od & <- & Hod).
    apply list_elem_of_In in Hod.
    destruct (keyConfig_complete (o_initialState o) _ k d od Hin Hod) as (m & -> & Hm).
    done.
  - intros k v opt Hsel.
    destruct ((keyConfig (o_initialState o) (o_config o)).1 !! k) as [m|] eqn:Hk; [|done].
    destruct (keyConfig_sound _ _ _ _ _ _ Hk Hsel) as (d & od & Hin & Hod & Hdecl & Hval).
    split.
    + by eapply keyConfig_keyed.
    + exists (map optionValue (options d)). split.
      * apply elem_of_getThemesAndOptions. by exists d.
      * rewrite <- Hval. apply list_elem_of_In, in_map. by apply list_elem_of_In.
Qed.

(** X2 at the store of the running example. *)
Lemma getThemesAndOptions_selectable_witness :
  construct demoOptions = Ok demoStore /\
  is_Some (selectedOption demoStore "colorScheme" "dark-modern").
Proof.
  assert (Hs : construct demoOptions = Ok demoStore) by (vm_compute; reflexivity).
  split; [exact Hs |].
  apply (proj1 (getThemesAndOptions_selectable demoOptions demoStore Hs)
           "colorScheme" ["system"; "light"; "light-modern"; "dark"; "dark-modern"]).
  - apply list_elem_of_here.
  - do 4 apply list_elem_of_further. apply list_elem_of_here.
Defined.

(** ** A freshly constructed store *)

Lemma NoDup_fst_functional {A} (l : list (string * A)) k x y :
  NoDup (l.*1) -> (k, x) ∈ l -> (k, y) ∈ l -> x = y.
Proof.
  intros Hnd Hx Hy.
  pose proof (elem_of_list_to_map_1 (M := gmap string) l k x Hnd Hx) as H1.
  pose proof (elem_of_list_to_map_1 (M := gmap string) l k y Hnd Hy) as H2.
  congruence.
Qed.

Lemma construct_fields o s :
  construct o = Ok s ->
  getDefaultThemes (o_config o) = Ok (defaultThemes s) /\
  currentThemes s = default ∅ (init_themes (o_initialState o)) ∪ defaultThemes s /\
  storeSystemOptions s = (keyConfig (o_initialState o) (o_config o)).2 /\
  opt_config s = (keyConfig (o_initialState o) (o_config o)).1 /\
  opt_key s = default PACKAGE_NAME (o_key o) /\ storage s = o_storage o.
Proof.
  unfold construct. destruct (getDefaultThemes (o_config o)) as [defaults|]; [|done].
  by intros [= <-].
Qed.

Lemma getDefaultThemes_lookup config defaults k v :
  getDefaultThemes config = Ok defaults -> distinctKeys config = true ->
  defaults !! k = Some v <->
  exists d, (k, d) ∈ config /\ defaultOptionValue d = Ok v.
Proof.
  unfold getDefaultThemes.
  destruct (defaultEntries config) as [l|] eqn:Hl; [|done].
  intros [= <-] Hnd%bool_decide_eq_true.
  pose proof (defaultEntries_keys _ _ Hl) as Hkeys.
  apply defaultEntries_spec in Hl. split.
  - intros Hv. rewrite fromEntries_list_to_map in Hv.
    apply elem_of_list_to_map_2 in Hv. rewrite elem_of_reverse in Hv.
    apply list_elem_of_lookup in Hv as [i Hi].
    destruct (Forall2_lookup_r _ _ _ _ _ Hl Hi) as ([k' d] & Hx & Hk & Hd).
    cbn in Hk, Hd. subst k'. exists d. split; [by eapply list_elem_of_lookup_2 | done].
  - intros (d & Hin & Hd). apply list_elem_of_lookup in Hin as [i Hi].
    destruct (Forall2_lookup_l _ _ _ _ _ Hl Hi) as ([k' v'] & Hy & Hk & Hv).
    cbn in Hk, Hv. subst k'. rewrite Hd in Hv. injection Hv as <-.
    apply fromEntries_lookup; [by rewrite Hkeys | by eapply list_elem_of_lookup_2].
Qed.

Lemma defaultOptionValue_declared d v :
  defaultOptionValue d = Ok v ->
  match defaultOption d with
  | Some v' => v' = v
  | None => exists od, od ∈ options d /\ optionValue od = v
  end.
Proof.
  unfold defaultOptionValue. destruct (defaultOption d); [by intros [= <-] |].
  destruct (options d) as [|od rest]; [done |].
  intros [= <-]. exists od. split; [by left | done].
Qed.

Lemma defaultsDeclared_lookup config k d v :
  defaultsDeclared config = true -> (k, d) ∈ config -> defaultOption d = Some v ->
  exists od, od ∈ options d /\ optionValue od = v.
Proof.
  unfold defaultsDeclared. rewrite forallb_forall. intros H Hin Hdef.
  apply list_elem_of_In, H in Hin. cbn in Hin. rewrite Hdef in Hin.
  apply bool_decide_eq_true, list_elem_of_fmap in Hin as (od & -> & Hod). by exists od.
Qed.

Lemma keyConfig_dimension init config k d :
  (k, d) ∈ config -> is_Some ((keyConfig init config).1 !! k).
Proof.
  intros Hin. unfold keyConfig.
  apply (foldl_reach (fun a => is_Some (a.1 !! k)) _ _ _ (k, d) Hin).
  - intros a. pose proof (keyTheme_lookup init a (k, d)) as H. cbn [fst] in H.
    by eexists.
  - intros a y Ha. unfold keyTheme. cbn [fst].
    destruct (decide (y.1 = k)) as [<-|Hne].
    + rewrite lookup_insert_eq. by eexists.
    + by rewrite lookup_insert_ne.
Qed.

Lemma plainConfig_dimension config k d :
  plainConfig config = true -> (k, d) ∈ config -> inherited k = false.
Proof.
  unfold plainConfig. rewrite forallb_forall. intros H Hin.
  apply list_elem_of_In, H, andb_true_iff in Hin as [Hk _].
  by apply negb_true_iff in Hk.
Qed.

(** Under a dimension of the configuration, what the lookup finds besides
    the options is what every dictionary inherits. *)
Lemma construct_memberFound o s env k d v :
  construct o = Ok s -> (k, d) ∈ o_config o ->
  memberFound env s k v = inherited v.
Proof.
  intros Hs Hin. destruct (construct_fields o s Hs) as (_ & _ & _ & Hcfg & _).
  unfold memberFound, foundMember.
  rewrite (plainConfig_dimension _ _ _ (o_plain o) Hin), Hcfg.
  by destruct (keyConfig_dimension (o_initialState o) _ _ _ Hin) as [m ->].
Qed.

(** X3.  A store constructed without initial themes selects the defaults.
    If the dimension names are distinct and every explicit [defaultOption]
    is a declared option, that selection lies inside the configuration and
    [getResolvedThemes] returns in every environment.  If some
    [defaultOption] is not a declared option of its dimension,
    [getResolvedThemes] throws a TypeError, unless that default is named
    like a member of [Object.prototype]: then its dimension resolves to
    [undefined] in whatever [getResolvedThemes] returns. *)
Theorem fresh_store_resolves o s env :
  construct o = Ok s ->
  init_themes (o_initialState o) = None ->
  distinctKeys (o_config o) = true ->
  result (getThemes s) = Ok (defaultThemes s) /\
  (defaultsDeclared (o_config o) = true ->
   withinConfig s = true /\ exists r, result (getResolvedThemes env s) = Ok r) /\
  (forall k d v, (k, d) ∈ o_config o -> defaultOption d = Some v ->
     v ∉ (optionValue <$> options d) ->
     if inherited v
     then forall r, result (getResolvedThemes env s) = Ok r -> r !! k = Some None
     else result (getResolvedThemes env s) = Throw TypeError).
Proof.
  intros Hs Hinit Hnd.
  destruct (construct_fields o s Hs) as (Hdef & Hcur & _ & Hcfg & _).
  rewrite Hinit in Hcur. cbn [default] in Hcur. rewrite (left_id_L ∅ (∪)) in Hcur.
  split; [by cbn; rewrite Hcur |]. split.
  - intros Hdecl.
    assert (Hw : withinConfig s = true).
    { unfold withinConfig. apply forallb_forall. intros [k v] Hin.
      apply list_elem_of_In, elem_of_map_to_list in Hin. rewrite Hcur in Hin.
      apply (getDefaultThemes_lookup _ _ _ _ Hdef Hnd) in Hin as (d & Hin & Hv).
      apply bool_decide_eq_true. cbn [fst snd].
      assert (Hod : exists od, od ∈ options d /\ optionValue od = v).
      { pose proof (defaultOptionValue_declared d v Hv) as Hcase.
        destruct (defaultOption d) as [v'|] eqn:Hd'; [|done].
        subst v'. by eapply defaultsDeclared_lookup. }
      destruct Hod as (od & Hod & <-).
      destruct (keyConfig_complete (o_initialState o) _ k d od Hin Hod) as (m & Hm & Hv').
      unfold selectedOption. by rewrite Hcfg, Hm. }
    split; [done |].
    apply (resolution_total_seeded env (opt_config s)); [by apply (construct_seeded o) | done].
  - intros k d v Hin Hd Hv.
    assert (Hsel : currentThemes s !! k = Some v).
    { rewrite Hcur. apply (getDefaultThemes_lookup _ _ _ _ Hdef Hnd).
      exists d. split; [done |]. unfold defaultOptionValue. by rewrite Hd. }
    assert (Hnone : selectedOption s k v = None).
    { unfold selectedOption. rewrite Hcfg.
      destruct ((keyConfig (o_initialState o) (o_config o)).1 !! k) as [m|] eqn:Hk; [|done].
      destruct (m !! v) as [opt|] eqn:Hm; [|done].
      destruct (keyConfig_sound _ _ _ _ _ _ Hk Hm) as (d' & od & Hin' & Hod & _ & Hval).
      apply bool_decide_eq_true in Hnd.
      assert (d' = d) as -> by by eapply NoDup_fst_functional.
      destruct Hv. apply list_elem_of_fmap. by exists od. }
    pose proof (construct_memberFound o s env k d v Hs Hin) as Hm.
    destruct (inherited v).
    + intros r Hr. rewrite getResolvedThemes_result in Hr.
      apply (resolution_lookup env s r k v (k, None) Hr Hsel).
      by rewrite (entryOutcome_unselected env s k v Hnone), Hm.
    + rewrite getResolvedThemes_result. by apply (resolution_outside env s k v).
Qed.

(** X3 at the running example, and at a stray default. *)
Lemma fresh_store_resolves_witness :
  (construct demoOptions = Ok demoStore /\
   distinctKeys demoConfig = true /\ defaultsDeclared demoConfig = true /\
   exists r, result (getResolvedThemes darkEnv demoStore) = Ok r) /\
  (("low" ∉ (optionValue <$> [OStr "standard"; OStr "high"])) /\
   result (getResolvedThemes darkEnv (constructed strayDefault)) = Throw TypeError).
Proof.
  split.
  - assert (Hs : construct demoOptions = Ok demoStore) by (vm_compute; reflexivity).
    assert (Hnd : distinctKeys demoConfig = true) by (vm_compute; reflexivity).
    assert (Hdecl : defaultsDeclared demoConfig = true) by (vm_compute; reflexivity).
    split; [exact Hs |]. split; [exact Hnd |]. split; [exact Hdecl |].
    apply (proj1 (proj2 (fresh_store_resolves demoOptions demoStore darkEnv Hs eq_refl Hnd))).
    exact Hdecl.
  - assert (Hout : "low" ∉ optionValue <$> [OStr "standard"; OStr "high"]).
    { apply (bool_decide_unpack _). vm_compute. exact I. }
    split; [exact Hout |].
    assert (Hs : construct strayDefault = Ok (constructed strayDefault))
      by (vm_compute; reflexivity).
    assert (Hnd : distinctKeys (o_config strayDefault) = true) by reflexivity.
    assert (Hin : ("contrast", mkDecl [OStr "standard"; OStr "high"] (Some "low"))
                    ∈ o_config strayDefault) by apply list_elem_of_here.
    exact (proj2 (proj2 (fresh_store_resolves strayDefault _ darkEnv Hs eq_refl Hnd))
             "contrast" (mkDecl [OStr "standard"; OStr "high"] (Some "low")) "low"
             Hin eq_refl Hout).
Defined.

(** ** The overrides the constructor leaves *)

Lemma keyOption_sys_mono init themeKey acc od k :
  is_Some (acc.2 !! k) -> is_Some ((keyOption init themeKey acc od).2 !! k).
Proof.
  intros Hk. destruct od as [str|opt]; cbn [keyOption snd]; [done |].
  destruct (media opt) as [[[q a] b]|]; [|done].
  destruct (match init_systemOptions init with
            | Some _ => bool_decide (acc.2 !! themeKey = None)
            | None => true
            end); [|done].
  rewrite lookup_insert. by case_decide.
Qed.

Lemma keyOption_sys_given init given themeKey acc od d p :
  init_systemOptions init = Some given ->
  acc.2 !! d = Some p -> (keyOption init themeKey acc od).2 !! d = Some p.
Proof.
  intros Hinit Hd. destruct od as [str|opt]; cbn [keyOption snd]; [done |].
  destruct (media opt) as [[[q a] b]|]; [|done].
  rewrite Hinit. case_bool_decide as Hunset; [|done].
  rewrite lookup_insert_ne; [done |]. intros ->. congruence.
Qed.

Lemma keyOption_sys_covers init themeKey acc opt :
  is_Some (media opt) ->
  is_Some ((keyOption init themeKey acc (OObj opt)).2 !! themeKey).
Proof.
  intros [[[q a] b] Hm]. cbn [keyOption snd]. rewrite Hm.
  destruct (init_systemOptions init) as [given|].
  - case_bool_decide as Hunset; [by rewrite lookup_insert_eq |].
    by apply not_eq_None_Some.
  - by rewrite lookup_insert_eq.
Qed.

Lemma keyOption_sys_origin init themeKey acc od d p :
  (keyOption init themeKey acc od).2 !! d = Some p ->
  acc.2 !! d = Some p \/
  (d = themeKey /\ exists opt q, od = OObj opt /\ media opt = Some (q, p.1, p.2)).
Proof.
  destruct od as [str|opt]; cbn [keyOption snd]; [by left |].
  destruct (media opt) as [[[q a] b]|] eqn:Hm; [|by left].
  destruct (match init_systemOptions init with
            | Some _ => bool_decide (acc.2 !! themeKey = None)
            | None => true
            end); [|by left].
  rewrite lookup_insert. case_decide as Hcase; [|by left].
  intros [= <-]. right. split; [done |]. by exists opt, q.
Qed.

Lemma keyTheme_sys_mono init acc entry k :
  is_Some (acc.2 !! k) -> is_Some ((keyTheme init acc entry).2 !! k).
Proof.
  intros Hk. unfold keyTheme. cbn [snd].
  apply (foldl_invariant (fun a => is_Some (a.2 !! k))); [done |].
  intros a x. apply keyOption_sys_mono.
Qed.

Lemma keyTheme_sys_given init given acc entry d p :
  init_systemOptions init = Some given ->
  acc.2 !! d = Some p -> (keyTheme init acc entry).2 !! d = Some p.
Proof.
  intros Hinit Hd. unfold keyTheme. cbn [snd].
  apply (foldl_invariant (fun a => a.2 !! d = Some p)); [done |].
  intros a x. by apply (keyOption_sys_given _ given).
Qed.

Lemma keyTheme_sys_covers init acc d decl opt :
  OObj opt ∈ options decl -> is_Some (media opt) ->
  is_Some ((keyTheme init acc (d, decl)).2 !! d).
Proof.
  intros Hin Hm. unfold keyTheme. cbn [fst snd].
  apply (foldl_reach (fun a => is_Some (a.2 !! d)) _ _ _ (OObj opt) Hin).
  - intros a. by apply keyOption_sys_covers.
  - intros a y. apply keyOption_sys_mono.
Qed.

Lemma keyConfig_sys_origin o d p :
  (keyConfig (o_initialState o) (o_config o)).2 !! d = Some p -> pairOrigin o d p.
Proof.
  revert d p. unfold keyConfig.
  apply (foldl_invariant_in (fun a => forall d p, a.2 !! d = Some p -> pairOrigin o d p)).
  - cbn [snd]. intros d p Hd. left.
    destruct (init_systemOptions (o_initialState o)) as [given|]; cbn [default] in Hd.
    + by exists given.
    + by rewrite lookup_empty in Hd.
  - intros acc [k decl] Hin Hacc. unfold keyTheme. cbn [fst snd].
    apply (foldl_invariant_in
             (fun a => forall d p, a.2 !! d = Some p -> pairOrigin o d p)); [done |].
    intros a od Hod Ha d p Hd.
    apply keyOption_sys_origin in Hd as [Hd|(-> & opt & q & -> & Hm)]; [by apply Ha |].
    right. by exists decl, opt, q.
Qed.

(** X4.  The overrides of a constructed store: every pair of
    [initialState.systemOptions] is kept as given; every dimension that
    declares an option with a media triple has a pair; and every pair is
    either a given one or the pair of outcomes of a media option declared for
    that dimension. *)
Theorem construct_overrides o s :
  construct o = Ok s ->
  (forall given d p,
     init_systemOptions (o_initialState o) = Some given -> given !! d = Some p ->
     storeSystemOptions s !! d = Some p) /\
  (forall d decl opt,
     (d, decl) ∈ o_config o -> OObj opt ∈ options decl -> is_Some (media opt) ->
     is_Some (storeSystemOptions s !! d)) /\
  (forall d p, storeSystemOptions s !! d = Some p -> pairOrigin o d p).
Proof.
  intros Hs. destruct (construct_fields o s Hs) as (_ & _ & -> & _).
  split; [|split].
  - intros given d p Hinit Hd. unfold keyConfig.
    apply (foldl_invariant (fun a => a.2 !! d = Some p)).
    + cbn [snd]. by rewrite Hinit.
    + intros a x. by apply (keyTheme_sys_given _ given).
  - intros d decl opt Hin Hod Hm. unfold keyConfig.
    apply (foldl_reach (fun a => is_Some (a.2 !! d)) _ _ _ (d, decl) Hin).
    + intros a. by eapply keyTheme_sys_covers.
    + intros a y. apply keyTheme_sys_mono.
  - intros d p. apply keyConfig_sys_origin.
Qed.

(** X4 at the running example: the given pair wins over the declared one. *)
Lemma construct_overrides_witness :
  construct modernOptions = Ok (constructed modernOptions) /\
  storeSystemOptions (constructed modernOptions) !! "colorScheme" =
    Some ("dark-modern", "light-modern").
Proof.
  assert (Hs : construct modernOptions = Ok (constructed modernOptions))
    by (vm_compute; reflexivity).
  split; [exact Hs |].
  apply (proj1 (construct_overrides modernOptions _ Hs) (systemOptions modernState));
    vm_compute; reflexivity.
Defined.

(** ** What every call keeps *)

(** Unfold the store methods down to the primitive steps of [M], then follow
    their structure. *)
Ltac inv_methods :=
  cbv beta delta [getResolvedThemes resolveThemes resolveEntry resolveMember resolveThemeOption
                  notify callListener setThemesAndNotify setThemes getStateToPersist
                  updateSystemOption restore restoreResume subscribe unsubscribe
                  sync cancelSync watchEvent syncHandler mediaChange onChange
                  _destroy];
  repeat first [inv_step | progress cbv zeta].

Lemma perform_inv (I : ThemeStore -> Prop) c :
  match c with
  | CallGetResolvedThemes env => inv I (getResolvedThemes env)
  | CallSetThemes env arg settled => inv I (setThemes env arg settled)
  | CallUpdateSystemOption env themeKey outcomes settled =>
      inv I (updateSystemOption env themeKey outcomes settled)
  | CallRestore env got => inv I (restore env got)
  | CallSubscribe env callback immediate => inv I (subscribe env callback immediate)
  | CallUnsubscribe callback => inv I (unsubscribe callback)
  | CallSync => inv I sync
  | CallCancelSync sub => inv I (cancelSync sub)
  | CallDestroy => inv I _destroy
  | EventMediaChange env q => inv I (mediaChange env q)
  | EventWatch env key p => inv I (watchEvent env key p)
  end ->
  forall s, I s -> I (perform c s).
Proof. destruct c; intros H s Hs; by apply H. Qed.

Lemma runCalls_inv (I : ThemeStore -> Prop) (allowed : Call -> bool) cs s :
  (forall c s, allowed c = true -> I s -> I (perform c s)) ->
  forallb allowed cs = true -> I s -> I (runCalls cs s).
Proof.
  intros Hstep. revert s. induction cs as [|c cs IH]; intros s Hall Hs; [done |].
  cbn in Hall. apply andb_true_iff in Hall as [Hc Hall].
  cbn. apply IH; [done |]. by apply Hstep.
Qed.

Lemma perform_fixedFields x c s :
  fixedFields s = x -> fixedFields (perform c s) = x.
Proof.
  apply (perform_inv (fun t => fixedFields t = x)).
  destruct c; inv_methods; assumption.
Qed.

(** X5.  No method and no event assigns the defaults, the key, the keyed
    configuration or the storage adapter of a store: after any sequence of
    calls they are what the constructor set. *)
Theorem calls_keep_configuration cs s :
  fixedFields (runCalls cs s) = fixedFields s.
Proof.
  apply (runCalls_inv (fun s' => fixedFields s' = fixedFields s) (fun _ => true));
    [| by apply forallb_forall | done].
  intros c s' _. apply perform_fixedFields.
Qed.

(** *** Every dimension stays selected *)

Lemma union_r_is_Some {V} (a b : gmap string V) d :
  is_Some (b !! d) -> is_Some ((a ∪ b) !! d).
Proof. intros H. apply lookup_union_is_Some. by right. Qed.

Lemma selectedFrom_current D s d :
  selectedFrom D s -> is_Some (D !! d) -> is_Some (currentThemes s !! d).
Proof. intros [_ H]. apply H. Qed.

Lemma selectedFrom_default D s d :
  selectedFrom D s -> is_Some (D !! d) -> is_Some (defaultThemes s !! d).
Proof. by intros [-> _]. Qed.

Lemma selectedFrom_with_currentThemes D t s :
  selectedFrom D s -> (forall d, is_Some (D !! d) -> is_Some (t !! d)) ->
  selectedFrom D (with_currentThemes t s).
Proof. intros [Hd _] Ht. by split. Qed.

Ltac selectedFrom_step :=
  match goal with
  | |- selectedFrom _ (with_currentThemes _ _) =>
      apply selectedFrom_with_currentThemes;
      [assumption
      | intros;
        eauto using union_r_is_Some, selectedFrom_current, selectedFrom_default]
  | |- _ => assumption
  end.

Lemma perform_selectedFrom D c s :
  notWatchEvent c = true -> selectedFrom D s -> selectedFrom D (perform c s).
Proof.
  intros Hc. apply (perform_inv (selectedFrom D)).
  destruct c; try discriminate Hc; inv_methods; selectedFrom_step.
Qed.

Lemma construct_selectedFrom o s :
  construct o = Ok s -> selectedFrom (defaultThemes s) s.
Proof.
  intros Hs. destruct (construct_fields o s Hs) as (_ & Hcur & _).
  split; [done |]. intros d. rewrite Hcur. apply union_r_is_Some.
Qed.

(** X6.  The selection of a constructed store has a value for every
    dimension of the defaults, and keeps one through every sequence of calls
    and media-query events; only an external storage event can drop a
    dimension. *)
Theorem every_dimension_stays_selected o s cs :
  construct o = Ok s -> forallb notWatchEvent cs = true ->
  everyDimensionSelected (runCalls cs s).
Proof.
  intros Hs Hcs.
  assert (H : selectedFrom (defaultThemes s) (runCalls cs s)).
  { apply (runCalls_inv _ notWatchEvent); [| done | by apply (construct_selectedFrom o)].
    intros c s'. apply perform_selectedFrom. }
  destruct H as [Hd H]. intros d. rewrite Hd. apply H.
Qed.

(** X6 at the running example: an update to an unknown dimension, a
    restore of a legacy payload and a destroy. *)
Lemma every_dimension_stays_selected_witness :
  let cs := [ CallSetThemes lightEnv (Partial {[ "font" := "serif" ]}) (Fulfilled tt);
              CallRestore lightEnv (Fulfilled (Some (Legacy legacyDark eq_refl)));
              CallDestroy ] in
  construct demoOptions = Ok demoStore /\ forallb notWatchEvent cs = true /\
  is_Some (currentThemes (runCalls cs demoStore) !! "contrast").
Proof.
  intros cs.
  assert (Hs : construct demoOptions = Ok demoStore) by (vm_compute; reflexivity).
  split; [exact Hs |]. split; [reflexivity |].
  apply (every_dimension_stays_selected demoOptions demoStore cs Hs eq_refl).
  vm_compute. eauto.
Defined.

(** ** Constructing a store from a persisted state *)

Lemma hasPairs_grows D s0 s sys :
  hasPairs D s0 ->
  (forall d, is_Some (storeSystemOptions s0 !! d) -> is_Some (sys !! d)) ->
  hasPairs D (with_systemOptions sys s).
Proof. intros H0 Hgrow d Hd. cbn. by apply Hgrow, H0. Qed.

Ltac hasPairs_step :=
  match goal with
  | |- hasPairs _ (with_systemOptions (<[_:=_]> (storeSystemOptions ?s0)) _) =>
      apply (hasPairs_grows _ s0); [assumption |];
      intros ? ?; rewrite lookup_insert; by case_decide
  | |- hasPairs _ (with_systemOptions (_ ∪ storeSystemOptions ?s0) _) =>
      apply (hasPairs_grows _ s0); [assumption |];
      intros ? ?; by apply union_r_is_Some
  | |- _ => assumption
  end.

Lemma perform_hasPairs D c s :
  notWatchEvent c = true -> hasPairs D s -> hasPairs D (perform c s).
Proof.
  intros Hc. apply (perform_inv (hasPairs D)).
  destruct c; try discriminate Hc; inv_methods; hasPairs_step.
Qed.

Lemma construct_hasPairs o s :
  construct o = Ok s -> hasPairs (mediaDimension (o_config o)) s.
Proof.
  intros Hs d (decl & opt & Hin & Hod & Hm).
  destruct (construct_fields o s Hs) as (_ & _ & -> & _). unfold keyConfig.
  apply (foldl_reach (fun a => is_Some (a.2 !! d)) _ _ _ (d, decl) Hin).
  - intros a. by eapply keyTheme_sys_covers.
  - intros a y. apply keyTheme_sys_mono.
Qed.

(** With a pair given for every dimension that declares a media option, the
    constructor takes the given overrides as they are. *)
Lemma keyConfig_sys_covered t given config :
  (forall d, mediaDimension config d -> is_Some (given !! d)) ->
  (keyConfig (mkInitial t (Some given)) config).2 = given.
Proof.
  intros Hcov. unfold keyConfig.
  apply (foldl_invariant_in (fun a => a.2 = given)); [done |].
  intros acc [k decl] Hin Hacc. unfold keyTheme. cbn [fst snd].
  apply (foldl_invariant_in (fun a => a.2 = given)); [done |].
  intros a od Hod Ha. destruct od as [str|opt]; cbn [keyOption snd]; [done |].
  destruct (media opt) as [[[q x] y]|] eqn:Hm; [|done].
  cbn [init_systemOptions]. rewrite bool_decide_eq_false_2; [done |].
  rewrite Ha. apply not_eq_None_Some, Hcov. exists decl, opt. by rewrite Hm.
Qed.

Lemma keyOption_keyed_independent init init' themeKey acc acc' od :
  acc.1 = acc'.1 ->
  (keyOption init themeKey acc od).1 = (keyOption init' themeKey acc' od).1.
Proof. intros H. destruct od; cbn [keyOption fst]; by rewrite H. Qed.

Lemma foldl_related {A A' B} (R : A -> A' -> Prop) (f : A -> B -> A) (g : A' -> B -> A')
    l a a' :
  R a a' -> (forall a a' x, R a a' -> R (f a x) (g a' x)) -> R (foldl f a l) (foldl g a' l).
Proof.
  intros Ha Hstep. revert a a' Ha.
  induction l as [|x l IH]; intros a a' Ha; cbn; [done |]. by apply IH, Hstep.
Qed.

(** The keyed configuration depends on the configuration alone. *)
Lemma keyConfig_keyed_independent init init' config :
  (keyConfig init config).1 = (keyConfig init' config).1.
Proof.
  unfold keyConfig.
  apply (foldl_related (fun a a' => a.1 = a'.1)); [done |].
  intros a a' [k decl] Ha. unfold keyTheme. cbn [fst snd]. rewrite Ha. f_equal.
  apply (foldl_related (fun b b' => b.1 = b'.1)); [done |].
  intros b b' od. apply keyOption_keyed_independent.
Qed.

Lemma union_covered {V} (a b : gmap string V) :
  (forall d, is_Some (b !! d) -> is_Some (a !! d)) -> a ∪ b = a.
Proof.
  intros H. apply map_eq. intros d.
  destruct (a !! d) as [x|] eqn:Ha; [by apply lookup_union_Some_l |].
  rewrite lookup_union_r by done.
  destruct (b !! d) as [y|] eqn:Hb; [|done].
  destruct (H d) as [z Hz]; [by rewrite Hb | congruence].
Qed.

(** X7.  The state [getStateToPersist] returns can be handed back as
    [initialState]: for a store no external storage event has reached,
    constructing a store with the same options and that state as
    [initialState] succeeds and gives the same selection, the same overrides
    and the same defaults, key, keyed configuration and storage. *)
Theorem construct_from_persisted_state o s cs state :
  construct o = Ok s -> forallb notWatchEvent cs = true ->
  result (getStateToPersist (runCalls cs s)) = Ok state ->
  exists again,
    construct (optionsFrom o state) = Ok again /\
    currentThemes again = currentThemes (runCalls cs s) /\
    storeSystemOptions again = storeSystemOptions (runCalls cs s) /\
    fixedFields again = fixedFields (runCalls cs s).
Proof.
  intros Hs Hcs Hstate. set (s' := runCalls cs s) in *.
  assert (Hstate' : state = mkPersisted 1 (currentThemes s') (storeSystemOptions s'))
    by (by injection Hstate).
  assert (Hfixed : fixedFields s' = fixedFields s).
  { apply (runCalls_inv (fun t => fixedFields t = fixedFields s) (fun _ => true));
      [| by apply forallb_forall | done].
    intros c t _. apply perform_fixedFields. }
  assert (Hsel : selectedFrom (defaultThemes s) s').
  { apply (runCalls_inv _ notWatchEvent); [| done | by apply (construct_selectedFrom o)].
    intros c t. apply perform_selectedFrom. }
  assert (Hpairs : hasPairs (mediaDimension (o_config o)) s').
  { apply (runCalls_inv _ notWatchEvent); [| done | by apply construct_hasPairs].
    intros c t. apply perform_hasPairs. }
  destruct (construct_fields o s Hs) as (Hdef & _ & _ & Hcfg & Hkey & Hst).
  unfold construct, optionsFrom. cbn [o_config o_initialState o_key o_storage].
  rewrite Hdef. eexists. split; [reflexivity |].
  cbn [currentThemes storeSystemOptions init_themes default].
  subst state. cbn [themes systemOptions].
  split; [|split].
  - apply union_covered. intros d. apply Hsel.
  - by apply keyConfig_sys_covered.
  - rewrite Hfixed. unfold fixedFields. cbn.
    rewrite Hcfg, Hkey, Hst.
    by rewrite (keyConfig_keyed_independent _ (o_initialState o)).
Qed.

(** X7 at the running example: overrides updated, contrast raised, then
    the state persisted and a store constructed from it. *)
Lemma construct_from_persisted_state_witness :
  let cs := [ CallUpdateSystemOption darkEnv "colorScheme"
                ("dark-modern", "light-modern") (Fulfilled tt);
              CallSetThemes darkEnv highContrast (Fulfilled tt) ] in
  construct demoOptions = Ok demoStore /\
  forallb notWatchEvent cs = true /\
  exists again,
    construct (optionsFrom demoOptions modernState) = Ok again /\
    currentThemes again = currentThemes (runCalls cs demoStore).
Proof.
  intros cs.
  assert (Hs : construct demoOptions = Ok demoStore) by (vm_compute; reflexivity).
  split; [exact Hs |]. split; [reflexivity |].
  destruct (construct_from_persisted_state demoOptions demoStore cs modernState Hs
              eq_refl ltac:(vm_compute; reflexivity))
    as (again & Hagain & Hcur & _).
  exists again. split; [exact Hagain | exact Hcur].
Defined.

(** ** [restore] on a versioned payload, and round trips *)

Lemma restore_post env persisted s :
  frame (restored persisted s) (post (restore env (Fulfilled persisted) s)) /\
  storageCalls (trace (restore env (Fulfilled persisted) s)) = [GetItem (opt_key s)] /\
  result (restore env (Fulfilled persisted) s) = result (notify env (restored persisted s)) /\
  notifications (trace (restore env (Fulfilled persisted) s)) =
    notifications (trace (notify env (restored persisted s))).
Proof.
  rewrite restore_run, restoreResume_run. cbn [prefixed post trace result].
  destruct (notify_frame env (restored persisted s)) as (Hf & Hcalls).
  split; [done |]. split; [|done].
  change (GetItem (opt_key s) :: trace (notify env (restored persisted s)))
    with ([GetItem (opt_key s)] ++ trace (notify env (restored persisted s))).
  by rewrite storageCalls_app, Hcalls.
Qed.

(** X8.  [restore] on a versioned payload: a dimension of the payload's
    themes gets the payload's value and every other dimension falls back to
    its default, whatever was selected before; a pair of the payload's
    overrides replaces the current one and every other pair stays.  The only
    call to the backend is the [getItem].  [restore] ends with one
    notification pass: if the restored selection resolves, every subscriber
    is called once with it and its resolution; if it does not, no subscriber
    is called, and [restore] rejects with a TypeError when there is a
    subscriber.  When [getItem] rejects, [restore] rejects with the same
    reason and neither changes the store nor calls a subscriber. *)
Theorem restore_versioned env s p :
  let o := restore env (Fulfilled (Some (Versioned p))) s in
  (forall d v, themes p !! d = Some v -> currentThemes (post o) !! d = Some v) /\
  (forall d, themes p !! d = None ->
     currentThemes (post o) !! d = defaultThemes s !! d) /\
  (forall d x, systemOptions p !! d = Some x ->
     storeSystemOptions (post o) !! d = Some x) /\
  (forall d, systemOptions p !! d = None ->
     storeSystemOptions (post o) !! d = storeSystemOptions s !! d) /\
  storageCalls (trace o) = [GetItem (opt_key s)] /\
  notifications (trace o) =
    passCalls env (themes p ∪ defaultThemes s) (listeners s) (post o) /\
  result o = passResult env (listeners s) (post o) /\
  (forall reason,
     restore env (Rejected reason) s =
       mkOutcome s [GetItem (opt_key s)] (Throw (Rejection reason))).
Proof.
  intros o.
  destruct (restore_post env (Some (Versioned p)) s) as (Hf & Hcalls & _).
  fold o in Hf, Hcalls.
  assert (Ho : o = prefixed (GetItem (opt_key s))
                     (notify env (restored (Some (Versioned p)) s))).
  { unfold o. by rewrite restore_run, restoreResume_run. }
  destruct (notify_pass env (restored (Some (Versioned p)) s)) as (Hn & Hr).
  destruct (frame_fields _ _ Hf) as (Hcur & Hsys & _).
  cbn [restored upgraded with_currentThemes with_systemOptions currentThemes
       storeSystemOptions] in Hcur, Hsys.
  rewrite Hcur, Hsys.
  split; [by intros d v Hd; apply lookup_union_Some_l |].
  split; [by intros d Hd; rewrite lookup_union_r |].
  split; [by intros d x Hd; apply lookup_union_Some_l |].
  split; [by intros d Hd; rewrite lookup_union_r |].
  split; [done |].
  rewrite Ho. cbn [prefixed post trace result].
  split; [exact Hn |]. split; [exact Hr |].
  intros reason. done.
Qed.

(** X8 at the running example: the payload of the tests. *)
Lemma restore_versioned_witness :
  let o := restore darkEnv (Fulfilled (Some (Versioned modernState))) watchedStore in
  themes modernState !! "contrast" = Some "high" /\
  currentThemes (post o) !! "contrast" = Some "high" /\
  length (notifications (trace o)) = 1.
Proof.
  intros o.
  destruct (restore_versioned darkEnv watchedStore modernState)
    as (Hsel & _ & _ & _ & _ & Hnote & _).
  split; [reflexivity |]. split; [apply Hsel; reflexivity |].
  unfold o. rewrite Hnote. vm_compute. reflexivity.
Defined.

(** X9.  A page reload.  For a store no external storage event has reached,
    restoring the state it persists into a freshly constructed store of the
    same options gives that store the same selection and the same overrides,
    so that it persists the same state in turn. *)
Theorem restore_reproduces o s cs env state :
  construct o = Ok s -> forallb notWatchEvent cs = true ->
  result (getStateToPersist (runCalls cs s)) = Ok state ->
  let reloaded := post (restore env (Fulfilled (Some (Versioned state))) s) in
  currentThemes reloaded = currentThemes (runCalls cs s) /\
  storeSystemOptions reloaded = storeSystemOptions (runCalls cs s) /\
  result (getStateToPersist reloaded) = Ok state.
Proof.
  intros Hs Hcs Hstate reloaded. set (s' := runCalls cs s) in *.
  assert (Hstate' : state = mkPersisted 1 (currentThemes s') (storeSystemOptions s'))
    by (by injection Hstate).
  assert (Hsel : selectedFrom (defaultThemes s) s').
  { apply (runCalls_inv _ notWatchEvent); [| done | by apply (construct_selectedFrom o)].
    intros c t. apply perform_selectedFrom. }
  assert (Hpairs : hasPairs (fun d => is_Some (storeSystemOptions s !! d)) s').
  { apply (runCalls_inv _ notWatchEvent); [| done | by intros d Hd].
    intros c t. apply perform_hasPairs. }
  destruct (restore_post env (Some (Versioned state)) s) as (Hf & _).
  destruct (frame_fields _ _ Hf) as (Hcur & Hsys & _).
  cbn [restored upgraded with_currentThemes with_systemOptions currentThemes
       storeSystemOptions] in Hcur, Hsys.
  assert (Hc : currentThemes reloaded = currentThemes s').
  { unfold reloaded. rewrite Hcur, Hstate'. cbn [themes].
    apply union_covered. intros d. apply Hsel. }
  assert (Hy : storeSystemOptions reloaded = storeSystemOptions s').
  { unfold reloaded. rewrite Hsys, Hstate'. cbn [systemOptions].
    apply union_covered. intros d. apply Hpairs. }
  split; [done |]. split; [done |].
  change (Ok (mkPersisted 1 (currentThemes reloaded) (storeSystemOptions reloaded))
          = Ok state).
  by rewrite Hc, Hy, Hstate'.
Qed.

(** X9 at the running example. *)
Lemma restore_reproduces_witness :
  let cs := [ CallUpdateSystemOption darkEnv "colorScheme"
                ("dark-modern", "light-modern") (Fulfilled tt);
              CallSetThemes darkEnv highContrast (Fulfilled tt) ] in
  construct demoOptions = Ok demoStore /\
  forallb notWatchEvent cs = true /\
  result (getStateToPersist (runCalls cs demoStore)) = Ok modernState /\
  currentThemes (post (restore lightEnv (Fulfilled (Some (Versioned modernState)))
                         demoStore)) =
    currentThemes (runCalls cs demoStore).
Proof.
  intros cs.
  assert (Hs : construct demoOptions = Ok demoStore) by (vm_compute; reflexivity).
  assert (Hstate : result (getStateToPersist (runCalls cs demoStore)) = Ok modernState)
    by (vm_compute; reflexivity).
  split; [exact Hs |]. split; [reflexivity |]. split; [exact Hstate |].
  exact (proj1 (restore_reproduces demoOptions demoStore cs lightEnv modernState Hs
                  eq_refl Hstate)).
Defined.

(** ** From one store to another *)

Lemma elem_of_storageCalls e t :
  e ∈ storageCalls t ->
  e ∈ t /\ match e with GetItem _ | SetItem _ _ | Broadcast _ _ => True | _ => False end.
Proof.
  unfold storageCalls. intros (x & Hx & He)%list_elem_of_omap.
  by destruct x; simplify_eq.
Qed.

Lemma storageCalls_elem e t :
  e ∈ t -> match e with GetItem _ | SetItem _ _ | Broadcast _ _ => True | _ => False end ->
  e ∈ storageCalls t.
Proof.
  intros He Hk. unfold storageCalls. apply list_elem_of_omap. exists e.
  split; [done |]. by destruct e.
Qed.

(** What [setThemes] hands to the backend is the snapshot of the merged
    selection, under the store's key. *)
Lemma setThemes_storage_event env arg settled s e :
  e ∈ storageCalls (trace (setThemes env arg settled s)) ->
  let snapshot := mkPersisted 1 (mergedThemes arg s) (storeSystemOptions s) in
  e = SetItem (opt_key s) snapshot \/ e = Broadcast (opt_key s) snapshot.
Proof.
  intros He snapshot. rewrite setThemes_run in He.
  destruct (setThemesAndNotify_frame env (mergedThemes arg s) s) as (_ & Hcalls).
  destruct (result (setThemesAndNotify _ _ _)) as [[]|err]; cbn [trace] in He.
  - destruct settled as [[]|reason]; cbn [trace] in He;
      rewrite storageCalls_app, Hcalls in He; cbn in He.
    + destruct (has_broadcast (storage s)); cbn in He.
      * apply elem_of_cons in He as [->|He]; [by left |].
        apply elem_of_cons in He as [->|He]; [by right |]. by apply elem_of_nil in He.
      * apply elem_of_cons in He as [->|He]; [by left |]. by apply elem_of_nil in He.
    + apply elem_of_cons in He as [->|He]; [by left |]. by apply elem_of_nil in He.
  - rewrite Hcalls in He. by apply elem_of_nil in He.
Qed.

(** X10.  What one store writes, its peers follow.  Whatever [setThemes]
    hands to the backend ([setItem] or [broadcast]), once delivered to the
    [sync] handler of another store, gives that store the selection and the
    overrides of the writer when both have the same key, and runs one
    notification pass in it: if that selection resolves in the peer, each of
    its subscribers is called once with it; if it does not, none is called,
    and the handler throws a TypeError when the peer has a subscriber.  A
    store of another key ignores what is delivered. *)
Theorem peer_follows_setThemes env env' arg settled a b key state :
  SetItem key state ∈ trace (setThemes env arg settled a) \/
  Broadcast key state ∈ trace (setThemes env arg settled a) ->
  let a' := post (setThemes env arg settled a) in
  let o := syncHandler env' (Some key) state b in
  (opt_key b = opt_key a ->
     currentThemes (post o) = currentThemes a' /\
     storeSystemOptions (post o) = storeSystemOptions a' /\
     notifications (trace o) = passCalls env' (currentThemes a') (listeners b) (post o) /\
     result o = passResult env' (listeners b) (post o)) /\
  (opt_key b <> opt_key a -> o = mkOutcome b [] (Ok tt)).
Proof.
  intros Hev a' o.
  assert (Hstate : key = opt_key a /\
            state = mkPersisted 1 (mergedThemes arg a) (storeSystemOptions a)).
  { destruct Hev as [Hev|Hev];
      (apply storageCalls_elem in Hev; [|done]);
      apply setThemes_storage_event in Hev; destruct Hev as [Hev|Hev];
      by simplify_eq. }
  destruct Hstate as (-> & ->).
  destruct (frame_fields _ _ (setThemes_post env arg settled a)) as (Hcur & Hsys & _).
  fold a' in Hcur, Hsys.
  cbn [with_currentThemes currentThemes storeSystemOptions] in Hcur, Hsys.
  unfold o. rewrite syncHandler_run. cbn [themes systemOptions]. split.
  - intros Hkey. rewrite bool_decide_eq_true_2 by by rewrite Hkey.
    set (b' := with_currentThemes _ _).
    destruct (notify_frame env' b') as (Hf & _).
    destruct (frame_fields _ _ Hf) as (Hc & Hy & _).
    destruct (notify_pass env' b') as (Hn & Hr).
    rewrite Hc, Hy, Hcur, Hsys. split; [done |]. split; [done |].
    split; [exact Hn | exact Hr].
  - intros Hkey. rewrite bool_decide_eq_false_2; [done |]. intros [= Heq]. by apply Hkey.
Qed.

(** X10 at the running example: a second store of the same options follows
    the first. *)
Lemma peer_follows_setThemes_witness :
  let a := demoStore in
  let b := watchedStore in
  let state := mkPersisted 1 (mergedThemes highContrast a) (storeSystemOptions a) in
  SetItem "palettez" state ∈ trace (setThemes lightEnv highContrast (Fulfilled tt) a) /\
  opt_key b = opt_key a /\
  currentThemes (post (syncHandler darkEnv (Some "palettez") state b)) =
    currentThemes (post (setThemes lightEnv highContrast (Fulfilled tt) a)).
Proof.
  intros a b state.
  assert (Hev : SetItem "palettez" state ∈
                  trace (setThemes lightEnv highContrast (Fulfilled tt) a)).
  { assert (Ht : trace (setThemes lightEnv highContrast (Fulfilled tt) a) =
                   [SetItem "palettez" state]) by (vm_compute; reflexivity).
    rewrite Ht. apply elem_of_cons. by left. }
  assert (Hkey : opt_key b = opt_key a) by reflexivity.
  split; [exact Hev |]. split; [exact Hkey |].
  exact (proj1 (proj1 (peer_follows_setThemes lightEnv darkEnv highContrast (Fulfilled tt)
                         a b "palettez" state (or_introl Hev)) Hkey)).
Defined.

(** ** What the calls emit *)

Section Emits.
Context (I : ThemeStore -> Prop) (T : Event -> Prop).

Lemma emits_ret {A} (a : A) : emits I T (ret a).
Proof. by intros s Hs. Qed.

Lemma emits_throw {A} e : emits I T (@throw A e).
Proof. by intros s Hs. Qed.

Lemma emits_emit e : T e -> emits I T (emit e).
Proof. intros He s Hs. split; [done |]. by apply Forall_singleton. Qed.

Lemma emits_gets {A} (f : ThemeStore -> A) : emits I T (gets f).
Proof. by intros s Hs. Qed.

Lemma emits_modify g : (forall s, I s -> I (g s)) -> emits I T (modify g).
Proof. intros H s Hs. split; [by apply H | done]. Qed.

Lemma emits_bind {A B} (m : M A) (k : A -> M B) :
  emits I T m -> (forall a, emits I T (k a)) -> emits I T (bind m k).
Proof.
  intros Hm Hk s Hs. unfold bind. destruct (Hm s Hs) as [H1 H2].
  destruct (result (m s)) as [a|e]; cbn [post trace]; [|done].
  destruct (Hk a _ H1) as [H3 H4]. split; [done |]. by apply Forall_app.
Qed.

Lemma emits_bind_gets {A B} (f : ThemeStore -> A) (k : A -> M B) :
  (forall s0, I s0 -> emits I T (k (f s0))) -> emits I T (bind (gets f) k).
Proof.
  intros Hk s Hs. unfold bind. cbn [gets result post trace app].
  by destruct (Hk s Hs s Hs).
Qed.

Lemma emits_mapM {A B} (f : A -> M B) l :
  (forall x, emits I T (f x)) -> emits I T (mapM f l).
Proof.
  intros Hf. induction l as [|x l IH]; cbn [mapM]; [apply emits_ret |].
  apply emits_bind; [done |]. intros y.
  apply emits_bind; [done |]. intros ys. apply emits_ret.
Qed.

Lemma emits_forM_ {A} (f : A -> M unit) l :
  (forall x, x ∈ l -> emits I T (f x)) -> emits I T (forM_ l f).
Proof.
  induction l as [|x l IH]; intros Hf; cbn [forM_]; [apply emits_ret |].
  apply emits_bind; [apply Hf; by left |]. intros _.
  apply IH. intros y Hy. apply Hf. by right.
Qed.

Lemma emits_detached m : emits I T m -> emits I T (detached m).
Proof. intros Hm s Hs. unfold detached. cbn [post trace]. by apply Hm. Qed.
End Emits.

Ltac emits_step :=
  match goal with
  | |- emits _ _ (bind (gets _) _) => apply emits_bind_gets; intros ? ?
  | |- emits _ _ (bind _ _) => apply emits_bind; [| intros ?]
  | |- emits _ _ (ret _) => apply emits_ret
  | |- emits _ _ (throw _) => apply emits_throw
  | |- emits _ _ (emit _) => apply emits_emit
  | |- emits _ _ (gets _) => apply emits_gets
  | |- emits _ _ (mapM _ _) => apply emits_mapM; intros ?
  | |- emits _ _ (forM_ _ _) => apply emits_forM_; intros ? ?
  | |- emits _ _ (detached _) => apply emits_detached
  | |- emits _ _ (modify _) => apply emits_modify; intros ? ?
  | |- emits _ _ (match ?x with _ => _ end) => destruct x
  end.

Ltac emits_methods :=
  cbv beta delta [getResolvedThemes resolveThemes resolveEntry resolveMember resolveThemeOption
                  notify callListener setThemesAndNotify setThemes getStateToPersist
                  updateSystemOption restore restoreResume subscribe unsubscribe
                  sync cancelSync watchEvent syncHandler mediaChange onChange
                  _destroy];
  repeat first [emits_step | progress cbv zeta].

Lemma perform_emits (I : ThemeStore -> Prop) (T : Event -> Prop) c :
  match c with
  | CallGetResolvedThemes env => emits I T (getResolvedThemes env)
  | CallSetThemes env arg settled => emits I T (setThemes env arg settled)
  | CallUpdateSystemOption env themeKey outcomes settled =>
      emits I T (updateSystemOption env themeKey outcomes settled)
  | CallRestore env got => emits I T (restore env got)
  | CallSubscribe env callback immediate => emits I T (subscribe env callback immediate)
  | CallUnsubscribe callback => emits I T (unsubscribe callback)
  | CallSync => emits I T sync
  | CallCancelSync sub => emits I T (cancelSync sub)
  | CallDestroy => emits I T _destroy
  | EventMediaChange env q => emits I T (mediaChange env q)
  | EventWatch env key p => emits I T (watchEvent env key p)
  end ->
  forall s, I s -> I (perform c s) /\ Forall T (traceOf c s).
Proof. destruct c; intros H s Hs; by apply H. Qed.

Lemma history_emits (I : ThemeStore -> Prop) (T : Event -> Prop) (allowed : Call -> bool)
    cs s :
  (forall c s, allowed c = true -> I s -> I (perform c s) /\ Forall T (traceOf c s)) ->
  forallb allowed cs = true -> I s -> Forall T (history cs s).
Proof.
  intros Hstep. revert s. induction cs as [|c cs IH]; intros s Hall Hs; [done |].
  cbn in Hall. apply andb_true_iff in Hall as [Hc Hall].
  destruct (Hstep c s Hc Hs) as [H1 H2].
  cbn [history]. apply Forall_app. split; [done |]. by apply IH.
Qed.

(** *** A callback that is not subscribed is not called *)

Lemma setAdd_elem x y l : x ∈ setAdd y l <-> x = y \/ x ∈ l.
Proof.
  unfold setAdd. case_bool_decide.
  - split; [by right | by intros [->|]].
  - rewrite elem_of_app, list_elem_of_singleton. tauto.
Qed.

Lemma setDelete_elem x y l : x ∈ setDelete y l <-> x <> y /\ x ∈ l.
Proof. unfold setDelete. by rewrite list_elem_of_filter. Qed.

Lemma perform_notCalling l c s :
  subscribes l c = false -> l ∉ listeners s ->
  (l ∉ listeners (perform c s)) /\ Forall (notCalling l) (traceOf c s).
Proof.
  intros Hc. apply (perform_emits (fun t => l ∉ listeners t) (notCalling l)).
  destruct c; emits_methods; cbn [notCalling listeners with_listeners with_cache
    with_currentThemes with_systemOptions with_watch abort]; try done.
  all: try (intros ->; contradiction).
  all: try (cbn in Hc; apply bool_decide_eq_false in Hc; try done).
  all: try (rewrite setAdd_elem; intros [->|]; done).
  all: try (rewrite setDelete_elem; intros [_ ?]; done).
  all: try apply not_elem_of_nil.
Qed.

(** X11.  Once a callback has been unsubscribed, or the store destroyed, no
    method of the store and no event calls the callback again, for as long
    as it is not subscribed anew; this holds however often it had been
    subscribed before. *)
Theorem unsubscribed_never_called l s0 s cs :
  s = post (unsubscribe l s0) \/ s = post (_destroy s0) ->
  forallb (fun c => negb (subscribes l c)) cs = true ->
  forall selection resolved, (l, selection, resolved) ∉ notifications (history cs s).
Proof.
  intros Hs Hcs selection resolved Hin.
  assert (Hl : l ∉ listeners s).
  { destruct Hs as [-> | ->].
    - cbn. rewrite setDelete_elem. by intros [? _].
    - rewrite _destroy_run. cbn. apply not_elem_of_nil. }
  assert (Hall : Forall (notCalling l) (history cs s)).
  { apply (history_emits (fun t => l ∉ listeners t) (notCalling l)
             (fun c => negb (subscribes l c))); [| done | done].
    intros c t Hc. apply perform_notCalling. by apply negb_true_iff. }
  apply elem_of_notifications in Hin.
  rewrite Forall_forall in Hall. by apply (Hall _ Hin).
Qed.

(** X11 at the running example. *)
Lemma unsubscribed_never_called_witness :
  let cs := [ CallSetThemes lightEnv highContrast (Fulfilled tt);
              EventWatch darkEnv (Some "palettez") modernState ] in
  forallb (fun c => negb (subscribes 7 c)) cs = true /\
  (7, themes modernState, defined (themes modernState)) ∉
    notifications (history cs (post (unsubscribe 7 watchedStore))).
Proof.
  intros cs. split; [reflexivity |].
  exact (unsubscribed_never_called 7 watchedStore _ cs (or_introl eq_refl) eq_refl
           (themes modernState) (defined (themes modernState))).
Defined.

(** *** Who writes to the backend *)

Lemma perform_readingOnly key c s :
  persists c = false -> opt_key s = key ->
  opt_key (perform c s) = key /\ Forall (readingOnly key) (traceOf c s).
Proof.
  intros Hc. apply (perform_emits (fun t => opt_key t = key) (readingOnly key)).
  destruct c; try discriminate Hc; emits_methods; cbn [readingOnly]; done.
Qed.

(** X12.  Only [setThemes] and [updateSystemOption] write.  No other method
    and no event, a change of a media query or an external storage event
    included, calls [setItem] or [broadcast]; the only calls to the backend
    are the [getItem]s of [restore], for the store's key.  A store that
    follows another through [sync] therefore never writes back what it
    receives. *)
Theorem only_setThemes_writes cs s e :
  forallb (fun c => negb (persists c)) cs = true ->
  e ∈ storageCalls (history cs s) -> e = GetItem (opt_key s).
Proof.
  intros Hcs He. apply elem_of_storageCalls in He as [He Hkind].
  assert (Hall : Forall (readingOnly (opt_key s)) (history cs s)).
  { apply (history_emits (fun t => opt_key t = opt_key s) (readingOnly (opt_key s))
             (fun c => negb (persists c))); [| done | done].
    intros c t Hc. apply perform_readingOnly. by apply negb_true_iff. }
  rewrite Forall_forall in Hall. specialize (Hall _ He).
  destruct e; cbn in Hall, Hkind; try done. by subst.
Qed.

(** X12 at the running example: a restore, then an external event. *)
Lemma only_setThemes_writes_witness :
  let cs := [ CallRestore lightEnv (Fulfilled None);
              EventWatch darkEnv (Some "palettez") modernState;
              EventMediaChange darkEnv darkQuery ] in
  forallb (fun c => negb (persists c)) cs = true /\
  GetItem "palettez" ∈ storageCalls (history cs watchedStore) /\
  GetItem "palettez" = GetItem (opt_key watchedStore).
Proof.
  intros cs.
  assert (Hin : GetItem "palettez" ∈ storageCalls (history cs watchedStore)).
  { assert (Hcalls : storageCalls (history cs watchedStore) = [GetItem "palettez"])
      by (vm_compute; reflexivity).
    rewrite Hcalls. apply elem_of_cons. by left. }
  split; [reflexivity |]. split; [exact Hin |].
  exact (only_setThemes_writes cs watchedStore (GetItem "palettez") eq_refl Hin).
Defined.

(** ** Subscribers *)

Lemma setAdd_NoDup x l : NoDup l -> NoDup (setAdd x l).
Proof.
  intros Hl. unfold setAdd. case_bool_decide; [done |].
  apply NoDup_app. split; [done |]. split; [| apply NoDup_singleton].
  intros y Hy ->%list_elem_of_singleton. done.
Qed.

Lemma setDelete_NoDup x l : NoDup l -> NoDup (setDelete x l).
Proof. apply NoDup_filter. Qed.

Lemma perform_NoDup_listeners c s :
  NoDup (listeners s) -> NoDup (listeners (perform c s)).
Proof.
  apply (perform_inv (fun t => NoDup (listeners t))).
  destruct c; inv_methods; cbn [listeners with_listeners with_cache
    with_currentThemes with_systemOptions with_watch abort];
    first [assumption | by apply setAdd_NoDup | by apply setDelete_NoDup
          | apply NoDup_nil_2].
Qed.

(** X13.  In every store reached from its construction, a notification pass
    of [setThemes] whose resolution returns calls exactly the subscribed
    callbacks, each of them once, in the order of their first subscription
    still in force, with the merged selection and its resolution. *)
Theorem subscribers_called_once o s cs env arg settled r :
  construct o = Ok s ->
  let t := runCalls cs s in
  let calls := notifications (trace (setThemes env arg settled t)) in
  result (getResolvedThemes env (post (setThemes env arg settled t))) = Ok r ->
  calls = (fun l => (l, mergedThemes arg t, r)) <$> listeners t /\
  NoDup ((fun x => x.1.1) <$> calls) /\
  (forall l, l ∈ ((fun x => x.1.1) <$> calls) <-> l ∈ listeners t).
Proof.
  intros Hs t calls Hr.
  assert (Hnd : NoDup (listeners t)).
  { apply (runCalls_inv (fun t => NoDup (listeners t)) (fun _ => true));
      [| by apply forallb_forall |].
    - intros c t' _. apply perform_NoDup_listeners.
    - destruct (construct_fresh o s Hs) as (_ & _ & -> & _).
      apply NoDup_nil_2. }
  pose proof (setThemes_post env arg settled t) as Hf.
  rewrite getResolvedThemes_result, (frame_resolution env _ _ Hf) in Hr.
  set (t' := with_currentThemes (mergedThemes arg t) t) in *.
  destruct (notify_ok env t' r Hr) as (Hok & _ & Hn & Hcalls).
  assert (Hcallseq : calls = (fun l => (l, mergedThemes arg t, r)) <$> listeners t).
  { unfold calls. rewrite setThemes_run, setThemesAndNotify_eq. fold t'.
    rewrite Hok. destruct settled as [[]|reason]; cbn [trace];
      rewrite notifications_app, Hn; cbn [t' currentThemes with_currentThemes listeners].
    + destruct (has_broadcast (storage t)); cbn; by rewrite app_nil_r.
    + cbn. by rewrite app_nil_r. }
  split; [done |].
  assert (Hcallers : ((fun x : nat * Themes * Resolved => x.1.1) <$> calls) = listeners t).
  { rewrite Hcallseq, <- list_fmap_compose. cbn. apply list_fmap_id. }
  rewrite Hcallers. by split.
Qed.

(** X13 at the running example: the callback 7 subscribed twice, then 8. *)
Lemma subscribers_called_once_witness :
  let cs := [ CallSubscribe lightEnv 7 false; CallSubscribe lightEnv 8 false;
              CallSubscribe lightEnv 7 false ] in
  let r : Resolved := defined {[ "colorScheme" := "light"; "contrast" := "high" ]} in
  construct demoOptions = Ok demoStore /\
  ((fun x : nat * Themes * Resolved => x.1.1) <$>
     notifications (trace (setThemes lightEnv highContrast (Fulfilled tt)
                             (runCalls cs demoStore)))) = [7; 8].
Proof.
  intros cs r.
  assert (Hs : construct demoOptions = Ok demoStore) by (vm_compute; reflexivity).
  split; [exact Hs |].
  destruct (subscribers_called_once demoOptions demoStore cs lightEnv highContrast
              (Fulfilled tt) r Hs) as (Hcalls & _).
  { vm_compute. reflexivity. }
  rewrite Hcalls. reflexivity.
Defined.

(** X14.  [subscribe] with [immediate]: the callback is called once, with
    the current selection and its resolution, before it is registered; when
    the resolution throws, [subscribe] throws, the callback is neither
    called nor registered, and no unsubscribe function is returned.  In
    both cases the selection and the overrides are untouched and the backend
    is not called. *)
Theorem subscribe_immediate env l s :
  let o := subscribe env l true s in
  match resolution env s with
  | Ok r =>
      result o = Ok tt /\
      notifications (trace o) = [(l, currentThemes s, r)] /\
      listeners (post o) = setAdd l (listeners s)
  | Throw e =>
      result o = Throw e /\
      notifications (trace o) = [] /\
      listeners (post o) = listeners s
  end /\
  currentThemes (post o) = currentThemes s /\
  storeSystemOptions (post o) = storeSystemOptions s /\
  storageCalls (trace o) = [].
Proof.
  intros o.
  assert (Ho : o = bind (callListener env l)
                 (fun _ => bind (gets listeners)
                   (fun ls => modify (with_listeners (setAdd l ls)))) s) by reflexivity.
  rewrite Ho. clear Ho o.
  destruct (resolution env s) as [r|e] eqn:Hres.
  - destruct (callListener_ok env l s r Hres) as (Hok & Hf & Hn & Hcalls).
    destruct (frame_fields _ _ Hf) as (Hcur & Hsys & Hls & _).
    rewrite (bind_ok _ _ _ tt) by done.
    rewrite (bind_ok _ _ _ (listeners (post (callListener env l s)))) by done.
    cbn [modify gets post trace result app].
    rewrite !notifications_app, !storageCalls_app, Hn, Hcalls, Hls.
    cbn [with_listeners currentThemes storeSystemOptions listeners].
    by rewrite Hcur, Hsys.
  - destruct (callListener_throw env l s e Hres) as (Hthrow & Hf & Hq1 & Hq2).
    destruct (frame_fields _ _ Hf) as (Hcur & Hsys & Hls & _).
    rewrite (bind_throw _ _ _ e) by done.
    by cbn [post trace result].
Qed.

(** X14 at the two stores of the examples: one that resolves, one whose
    overrides an external event has emptied. *)
Lemma subscribe_immediate_examples :
  listeners (post (subscribe darkEnv 7 true demoStore)) = [7] /\
  listeners (post (subscribe darkEnv 7 true syncedStore)) = [] /\
  result (subscribe darkEnv 7 true syncedStore) = Throw TypeError.
Proof. vm_compute. repeat split; reflexivity. Qed.

(** ** Resolving again *)

Lemma with_cache_with_cache c c' s : with_cache c (with_cache c' s) = with_cache c s.
Proof. done. Qed.

Lemma frame_cache s s' : frame s s' -> s' = with_cache (mediaQueryCache s') s.
Proof. by intros [c ->]. Qed.

Lemma cacheGrows_bind {A B} (m : M A) (k : A -> M B) :
  cacheGrows m -> (forall a, cacheGrows (k a)) -> cacheGrows (bind m k).
Proof.
  intros Hm Hk s. unfold bind. destruct (Hm s) as [Hf Hc].
  destruct (result (m s)) as [a|e]; cbn [post]; [|done].
  destruct (Hk a (post (m s))) as [Hf' Hc'].
  split; [by eapply frame_trans | by etrans].
Qed.

Lemma cacheStable_bind {A B} (m : M A) (k : A -> M B) :
  cacheGrows m -> cacheStable m ->
  (forall a, cacheGrows (k a)) -> (forall a, cacheStable (k a)) ->
  cacheStable (bind m k).
Proof.
  intros Hgm Hm Hgk Hk s c Hc. unfold bind in *.
  destruct (Hgm s) as [Hf Hsub].
  destruct (result (m s)) as [a|e] eqn:Hres; cbn [post trace result] in *.
  - destruct (Hgk a (post (m s))) as [_ Hsub'].
    assert (Hm1 := Hm s c (transitivity Hsub' Hc)).
    assert (Hk1 := Hk a (post (m s)) c Hc).
    assert (E : with_cache c (post (m s)) = with_cache c s)
      by (destruct Hf as [c1 Hc1]; by rewrite Hc1).
    rewrite E in Hk1. rewrite Hm1. cbn [post trace result]. rewrite Hres, Hk1.
    cbn [post trace result]. by rewrite filter_app.
  - rewrite (Hm s c Hc). cbn [post trace result]. by rewrite Hres.
Qed.

Lemma resolveThemeOption_cacheGrows env themeKey option :
  cacheGrows (resolveThemeOption env themeKey option).
Proof.
  intros s. destruct (resolveThemeOption_spec env themeKey option s) as (_ & Hf & _).
  split; [done |]. unfold resolveThemeOption.
  destruct (media option) as [[[q a] b]|]; [|done].
  destruct (isClient env); [|done]. unfold bind. cbn.
  destruct (mediaQueryCache s !! q) eqn:Hq; cbn;
    [| destruct (inherited q); cbn];
    destruct (storeSystemOptions s !! themeKey) as [[? ?]|]; cbn;
    first [done | by apply insert_subseteq].
Qed.

Lemma resolveThemeOption_cacheStable env themeKey option :
  cacheStable (resolveThemeOption env themeKey option).
Proof.
  intros s c. unfold resolveThemeOption.
  destruct (media option) as [[[q a] b]|]; [|done].
  destruct (isClient env); [|done]. unfold bind. cbn.
  destruct (mediaQueryCache s !! q) as [mql|] eqn:Hq; cbn.
  - intros Hc.
    assert (Hq' : c !! q = Some mql).
    { destruct (storeSystemOptions s !! themeKey) as [[? ?]|]; cbn in Hc;
        exact (lookup_weaken _ _ _ _ Hq Hc). }
    rewrite Hq'. cbn.
    by destruct (storeSystemOptions s !! themeKey) as [[? ?]|].
  - destruct (inherited q) eqn:Hinh; cbn.
    + intros _. destruct (c !! q); cbn;
        by destruct (storeSystemOptions s !! themeKey) as [[? ?]|].
    + intros Hc.
      assert (Hq' : is_Some (c !! q)).
      { destruct (storeSystemOptions s !! themeKey) as [[? ?]|]; cbn in Hc;
          eexists; exact (lookup_weaken _ _ _ _ (lookup_insert_eq _ _ _) Hc). }
      destruct Hq' as [mql Hq']. rewrite Hq'. cbn.
      by destruct (storeSystemOptions s !! themeKey) as [[? ?]|].
Qed.

Lemma cacheGrows_pure {A} (m : M A) : (forall s, post (m s) = s) -> cacheGrows m.
Proof. intros H s. rewrite H. split; [apply frame_refl | done]. Qed.

Lemma cacheStable_ret {A} (a : A) : cacheStable (ret a).
Proof. by intros s c. Qed.

Lemma cacheStable_throw {A} e : cacheStable (@throw A e).
Proof. by intros s c. Qed.

Lemma cacheGrows_bind_gets {A B} (f : ThemeStore -> A) (k : A -> M B) :
  (forall a, cacheGrows (k a)) -> cacheGrows (bind (gets f) k).
Proof. intros Hk. apply cacheGrows_bind; [by apply cacheGrows_pure | done]. Qed.

Lemma cacheStable_bind_gets {A B} (f : ThemeStore -> A) (k : A -> M B) :
  (forall s c, f (with_cache c s) = f s) ->
  (forall a, cacheStable (k a)) -> cacheStable (bind (gets f) k).
Proof.
  intros Hf Hk s c Hc. unfold bind in *. cbn [gets result post trace app] in *.
  rewrite Hf, (Hk (f s) s c Hc). done.
Qed.

Lemma resolveMember_cacheGrows env config entry :
  cacheGrows (resolveMember env config entry).
Proof.
  unfold resolveMember. by destruct (foundMember _ _ _ _); apply cacheGrows_pure.
Qed.

Lemma resolveMember_cacheStable env config entry :
  cacheStable (resolveMember env config entry).
Proof.
  unfold resolveMember.
  destruct (foundMember _ _ _ _); [apply cacheStable_ret | apply cacheStable_throw].
Qed.

Lemma resolveEntry_cacheGrows env entry : cacheGrows (resolveEntry env entry).
Proof.
  unfold resolveEntry. apply cacheGrows_bind_gets. intros config.
  destruct (config !! entry.1) as [byOption|]; [|apply resolveMember_cacheGrows].
  destruct (byOption !! entry.2) as [option|]; [|apply resolveMember_cacheGrows].
  apply cacheGrows_bind; [apply resolveThemeOption_cacheGrows |].
  intros r. by apply cacheGrows_pure.
Qed.

Lemma resolveEntry_cacheStable env entry : cacheStable (resolveEntry env entry).
Proof.
  unfold resolveEntry. apply cacheStable_bind_gets; [done |]. intros config.
  destruct (config !! entry.1) as [byOption|]; [|apply resolveMember_cacheStable].
  destruct (byOption !! entry.2) as [option|]; [|apply resolveMember_cacheStable].
  apply cacheStable_bind.
  - apply resolveThemeOption_cacheGrows.
  - apply resolveThemeOption_cacheStable.
  - intros r. by apply cacheGrows_pure.
  - intros r. apply cacheStable_ret.
Qed.

Lemma mapM_cacheGrows {A B} (f : A -> M B) l :
  (forall x, cacheGrows (f x)) -> cacheGrows (mapM f l).
Proof.
  intros Hf. induction l as [|x l IH]; cbn [mapM]; [by apply cacheGrows_pure |].
  apply cacheGrows_bind; [done |]. intros y.
  apply cacheGrows_bind; [done |]. intros ys. by apply cacheGrows_pure.
Qed.

Lemma mapM_cacheStable {A B} (f : A -> M B) l :
  (forall x, cacheGrows (f x)) -> (forall x, cacheStable (f x)) ->
  cacheStable (mapM f l).
Proof.
  intros Hg Hf. induction l as [|x l IH]; cbn [mapM]; [apply cacheStable_ret |].
  apply cacheStable_bind; [done | done | |].
  - intros y. apply cacheGrows_bind; [by apply mapM_cacheGrows |].
    intros ys. by apply cacheGrows_pure.
  - intros y. apply cacheStable_bind; [by apply mapM_cacheGrows | done | |].
    + intros ys. by apply cacheGrows_pure.
    + intros ys. apply cacheStable_ret.
Qed.

Lemma resolveThemes_cacheStable env : cacheStable (resolveThemes env).
Proof.
  unfold resolveThemes. apply cacheStable_bind_gets; [done |]. intros current.
  apply cacheStable_bind.
  - apply mapM_cacheGrows, resolveEntry_cacheGrows.
  - apply mapM_cacheStable; [apply resolveEntry_cacheGrows | apply resolveEntry_cacheStable].
  - intros r. by apply cacheGrows_pure.
  - intros r. apply cacheStable_ret.
Qed.

(** X15.  The media-query cache makes resolution repeatable.  A second
    [getResolvedThemes], right after a first, returns (or throws) the same,
    leaves the store exactly as the first left it, and repeats the events of
    the first except its calls of [window.matchMedia]: no media query is
    registered, and no [change] listener attached, a second time. *)
Theorem getResolvedThemes_again env s :
  let first := getResolvedThemes env s in
  let second := getResolvedThemes env (post first) in
  result second = result first /\
  post second = post first /\
  trace second = filter (fun e => notMatchMedia e = true) (trace first) /\
  forall q, MatchMedia q ∉ trace second.
Proof.
  intros first second. unfold second, first, getResolvedThemes.
  destruct (resolveThemes_spec env s) as (_ & Hf & _).
  pose proof (resolveThemes_cacheStable env s
                (mediaQueryCache (post (resolveThemes env s))) (reflexivity _)) as H.
  rewrite <- (frame_cache _ _ Hf) in H. rewrite H. cbn [post trace result].
  split; [done |]. split; [done |]. split; [done |].
  intros q Hq. apply list_elem_of_filter in Hq as [Hq _]. done.
Qed.

(** ** [updateSystemOption] *)

Lemma updateSystemOption_run env themeKey outcomes settled s :
  let s1 := with_systemOptions (<[themeKey := outcomes]> (storeSystemOptions s)) s in
  let o := setThemes env (Partial (currentThemes s)) settled s1 in
  updateSystemOption env themeKey outcomes settled s =
    mkOutcome (post o) (trace o) (Ok tt).
Proof.
  intros s1 o. unfold updateSystemOption.
  rewrite (bind_ok _ _ _ (storeSystemOptions s)) by done. msimpl.
  rewrite (bind_ok _ _ _ tt) by done. msimpl.
  rewrite (bind_ok _ _ _ (currentThemes s)) by done. msimpl.
  done.
Qed.

Lemma setThemes_notifications env arg settled s :
  notifications (trace (setThemes env arg settled s)) =
    notifications (trace (notify env (with_currentThemes (mergedThemes arg s) s))).
Proof.
  rewrite setThemes_run, setThemesAndNotify_eq.
  destruct (result (notify env _)) as [[]|e]; [|done].
  destruct settled as [[]|reason]; cbn [trace]; rewrite notifications_app.
  - destruct (has_broadcast (storage s)); cbn; by rewrite app_nil_r.
  - cbn. by rewrite app_nil_r.
Qed.

(** X16.  [updateSystemOption] never throws and never rejects, whatever the
    notification pass and the backend do.  It sets the pair of the
    dimension, keeps every other pair and the selection; every state it
    hands to the backend carries the new pair and the unchanged selection;
    and every subscriber it calls is given the unchanged selection, resolved
    with the new pair wherever the selected option of the dimension is
    environment-derived. *)
Theorem updateSystemOption_applies env d outcomes settled s :
  let o := updateSystemOption env d outcomes settled s in
  result o = Ok tt /\
  storeSystemOptions (post o) = <[d := outcomes]> (storeSystemOptions s) /\
  currentThemes (post o) = currentThemes s /\
  (forall e, e ∈ storageCalls (trace o) ->
     exists state,
       (e = SetItem (opt_key s) state \/ e = Broadcast (opt_key s) state) /\
       themes state = currentThemes s /\
       systemOptions state !! d = Some outcomes) /\
  (forall l selection resolved,
     (l, selection, resolved) ∈ notifications (trace o) ->
     selection = currentThemes s /\
     forall v option q a b,
       currentThemes s !! d = Some v -> selectedOption s d v = Some option ->
       media option = Some (q, a, b) -> isClient env = true ->
       resolved !! d = Some (Some (if matches env q then outcomes.1 else outcomes.2))).
Proof.
  intros o. unfold o. rewrite updateSystemOption_run. cbn [post trace result].
  set (s1 := with_systemOptions _ s).
  assert (Hmerged : mergedThemes (Partial (currentThemes s)) s1 = currentThemes s).
  { unfold mergedThemes. cbn. apply (idemp_L (∪)). }
  destruct (frame_fields _ _ (setThemes_post env (Partial (currentThemes s)) settled s1))
    as (Hcur & Hsys & _).
  rewrite Hmerged in Hcur. cbn in Hcur, Hsys.
  split; [done |]. split; [done |]. split; [done |]. split.
  - intros e He. apply setThemes_storage_event in He. rewrite Hmerged in He.
    eexists. split; [exact He |]. cbn. split; [done |]. apply lookup_insert_eq.
  - intros l selection resolved Hin. rewrite setThemes_notifications, Hmerged in Hin.
    apply notify_notifications in Hin as (_ & Hsel & Hres). cbn in Hsel, Hres.
    split; [done |]. intros v option q a b Hd Hopt Hmedia Hclient.
    assert (Hy : entryOutcome env (opt_config s) (<[d := outcomes]> (storeSystemOptions s))
                   (d, v) =
                 Ok (d, Some (if matches env q then outcomes.1 else outcomes.2))).
    { unfold selectedOption in Hopt. unfold entryOutcome, optionOutcome. cbn [fst snd].
      destruct (opt_config s !! d) as [byOption|]; [|done].
      rewrite Hopt, Hmedia, Hclient, lookup_insert_eq. cbn. by destruct outcomes. }
    exact (resolution_lookup env (with_currentThemes (currentThemes s) s1) resolved d v _
             Hres Hd Hy).
Qed.

(** X16 at the running example: the subscriber sees the new dark variant. *)
Lemma updateSystemOption_applies_witness :
  let o := updateSystemOption darkEnv "colorScheme" ("dark-modern", "light-modern")
             (Rejected "quota") watchedStore in
  exists selection resolved,
    (7, selection, resolved) ∈ notifications (trace o) /\
    resolved !! "colorScheme" = Some (Some "dark-modern").
Proof.
  intros o.
  set (selection := currentThemes watchedStore).
  set (resolved := defined {[ "colorScheme" := "dark-modern"; "contrast" := "standard" ]}).
  assert (Hin : (7, selection, resolved) ∈ notifications (trace o)).
  { assert (Hn : notifications (trace o) = [(7, selection, resolved)])
      by (vm_compute; reflexivity).
    rewrite Hn. apply elem_of_cons. by left. }
  exists selection, resolved. split; [exact Hin |].
  destruct (updateSystemOption_applies darkEnv "colorScheme"
              ("dark-modern", "light-modern") (Rejected "quota") watchedStore)
    as (_ & _ & _ & _ & Hcalls).
  destruct (Hcalls 7 selection resolved Hin) as (_ & Hres).
  exact (Hres "system" (mkOption "system" (Some (darkQuery, "dark", "light")))
           darkQuery "dark" "light" eq_refl eq_refl eq_refl eq_refl).
Defined.

(** ** More on the registry *)

Lemma vacated_run o R :
  vacated o R =
    match registry R !! storeKeyOf (o_key o) with
    | Some ref =>
        mkRegistry (delete (storeKeyOf (o_key o)) (registry R))
          (alter destroyed ref (objects R)) (nextRef R)
    | None => R
    end.
Proof.
  unfold vacated. destruct (registry R !! storeKeyOf (o_key o)) as [ref|] eqn:Hk; [|done].
  by rewrite destroy_run, storeKeyOf_idem, Hk.
Qed.

(** X17.  [create] with options the constructor rejects throws what the
    constructor throws, and registers nothing.  If a store was registered
    under the key, it has been destroyed all the same and the key is left
    without a store, so that [get] throws from then on; otherwise the
    registry is unchanged. *)
Theorem create_failure o R e :
  construct o = Throw e ->
  let R' := (create o R).1 in
  (create o R).2 = Throw e /\
  (get (o_key o) R').2 = Throw (NotFound (storeKeyOf (o_key o))) /\
  (forall ref old,
     registry R !! storeKeyOf (o_key o) = Some ref -> objects R !! ref = Some old ->
     objects R' !! ref = Some (destroyed old)) /\
  (registry R !! storeKeyOf (o_key o) = None -> R' = R).
Proof.
  intros He R'. unfold R'. rewrite create_run, He. cbn [fst snd].
  split; [done |]. split; [by rewrite get_run, vacated_free |].
  rewrite vacated_run. split.
  - intros ref old Hk Hold. rewrite Hk. cbn [objects].
    by rewrite lookup_alter_eq, Hold.
  - by intros ->.
Qed.

(** X17 at the running example: a second [create] for the key of the demo
    store, with a dimension that has no option. *)
Lemma create_failure_witness :
  construct emptyDimension = Throw TypeError /\
  (create emptyDimension demoRegistry).2 = Throw TypeError /\
  (get (Some "palettez") (create emptyDimension demoRegistry).1).2 =
    Throw (NotFound "palettez").
Proof.
  assert (He : construct emptyDimension = Throw TypeError) by reflexivity.
  split; [exact He |].
  destruct (create_failure emptyDimension demoRegistry TypeError He) as (H1 & H2 & _).
  split; [exact H1 | exact H2].
Defined.

(** X18.  [create] and [destroy] for one key leave the stores of the other
    keys alone.  In every registry a program can reach, a [create] that is
    not handed an overrides object (no [initialState.systemOptions], which
    the constructor would keep and write into, whoever else holds it) and a
    [destroy] leave the store registered under any other key registered,
    under the same reference and in the same state. *)
Theorem registry_other_keys R k ref s :
  reachable R -> registry R !! k = Some ref -> objects R !! ref = Some s ->
  (forall o, storeKeyOf (o_key o) <> k ->
     init_systemOptions (o_initialState o) = None ->
     registry (create o R).1 !! k = Some ref /\ objects (create o R).1 !! ref = Some s) /\
  (forall key, storeKeyOf key <> k ->
     registry (destroy key R).1 !! k = Some ref /\
     objects (destroy key R).1 !! ref = Some s).
Proof.
  intros Hreach Hk Hs.
  pose proof (reachable_wf R Hreach) as [Hreg Hbound _].
  assert (Hother : forall k' ref', k' <> k -> registry R !! k' = Some ref' -> ref' <> ref).
  { intros k' ref' Hne Hk' ->.
    destruct (Hreg _ _ Hk) as (s1 & Hs1 & Hkey1).
    destruct (Hreg _ _ Hk') as (s2 & Hs2 & Hkey2). congruence. }
  assert (Hdestroy : forall key, storeKeyOf key <> k ->
            registry (destroy key R).1 !! k = Some ref /\
            objects (destroy key R).1 !! ref = Some s /\
            nextRef (destroy key R).1 = nextRef R).
  { intros key Hne. rewrite destroy_run.
    destruct (registry R !! storeKeyOf key) as [ref'|] eqn:Hk'; cbn [fst registry objects];
      [|done].
    rewrite lookup_delete_ne by done. split; [done |].
    by rewrite lookup_alter_ne by by apply (Hother (storeKeyOf key)). }
  split; [|intros key Hne; by destruct (Hdestroy key Hne) as (? & ? & _)].
  intros o Hne _.
  assert (Hvac : registry (vacated o R) !! k = Some ref /\
                 objects (vacated o R) !! ref = Some s /\
                 nextRef (vacated o R) = nextRef R).
  { unfold vacated. destruct (registry R !! storeKeyOf (o_key o)); [|done].
    apply Hdestroy. by rewrite storeKeyOf_idem. }
  destruct Hvac as (Hv1 & Hv2 & Hv3).
  rewrite create_run. destruct (construct o) as [new|e]; cbn [fst registry objects];
    [|done].
  rewrite lookup_insert_ne by done. split; [done |].
  rewrite lookup_insert_ne; [done |]. rewrite Hv3.
  pose proof (Hbound _ _ Hs). lia.
Qed.

(** X18 at the running example: a store for the key docs beside the demo
    store. *)
Lemma registry_other_keys_witness :
  reachable demoRegistry /\
  registry (create otherOptions demoRegistry).1 !! "palettez" = Some 0 /\
  objects (create otherOptions demoRegistry).1 !! 0 = Some demoStore.
Proof.
  assert (Hreach : reachable demoRegistry) by apply reach_create, reach_empty.
  split; [exact Hreach |].
  destruct (registry_other_keys demoRegistry "palettez" 0 demoStore Hreach
              eq_refl eq_refl) as (Hcreate & _).
  apply (Hcreate otherOptions); [discriminate | reflexivity].
Defined.

(** X19.  [create], then [get], then [destroy].  When the constructor
    returns, [create] registers the new store whether or not the key had
    one: [get] for the key returns the reference [create] returned, behind
    it is the store as constructed, and after [destroy] for the key [get]
    throws while the store behind the reference is the destroyed one. *)
Theorem create_get_destroy o R new :
  construct o = Ok new ->
  let R' := (create o R).1 in
  exists ref,
    create o R = (R', Ok ref) /\
    get (o_key o) R' = (R', Ok ref) /\
    objects R' !! ref = Some new /\
    (destroy (o_key o) R').2 = Ok tt /\
    (get (o_key o) (destroy (o_key o) R').1).2 = Throw (NotFound (storeKeyOf (o_key o))) /\
    objects (destroy (o_key o) R').1 !! ref = Some (destroyed new).
Proof.
  intros Hnew R'. exists (nextRef (vacated o R)).
  assert (HR' : create o R = (R', Ok (nextRef (vacated o R)))).
  { unfold R'. rewrite create_run, Hnew. done. }
  assert (Hk : registry R' !! storeKeyOf (o_key o) = Some (nextRef (vacated o R))).
  { unfold R'. rewrite create_run, Hnew. cbn [fst registry]. apply lookup_insert_eq. }
  assert (Hobj : objects R' !! nextRef (vacated o R) = Some new).
  { unfold R'. rewrite create_run, Hnew. cbn [fst objects]. apply lookup_insert_eq. }
  split; [done |]. split; [by rewrite get_run, Hk |]. split; [done |].
  rewrite get_run, destroy_run, Hk. cbn [fst snd registry objects].
  split; [done |]. split; [by rewrite lookup_delete_eq |].
  by rewrite lookup_alter_eq, Hobj.
Qed.

(** X19 at the running example. *)
Lemma create_get_destroy_witness :
  construct demoOptions = Ok demoStore /\
  get (Some "palettez") demoRegistry = (demoRegistry, Ok 0).
Proof.
  assert (Hs : construct demoOptions = Ok demoStore) by (vm_compute; reflexivity).
  split; [exact Hs |].
  destruct (create_get_destroy demoOptions emptyRegistry demoStore Hs)
    as (ref & Hc & Hg & _).
  assert (ref = 0) as -> by (vm_compute in Hc; congruence).
  exact Hg.
Defined.

(** ** A flip of a media query that one option names *)

Lemma listening_insert cfg s q d v option a b :
  listening cfg s ->
  selectedOption s d v = Some option -> media option = Some (q, a, b) ->
  listening cfg
    (with_cache (<[q := mkMql q (if aborted s then None else Some (d, v))]>
                   (mediaQueryCache s)) s).
Proof.
  intros (Hcfg & Htr & Hj) Hsel Hmedia. split; [done |]. split.
  - intros q' mql d' v' Hq' Hcl. cbn in Hq'.
    destruct (decide (q = q')) as [<-|Hne].
    + rewrite lookup_insert_eq in Hq'. injection Hq' as <-. cbn in Hcl.
      destruct (aborted s); [done |]. injection Hcl as <- <-. by exists option, a, b.
    + rewrite lookup_insert_ne in Hq' by done. by apply (Htr q' mql).
  - cbn. intros Ha q' mql Hq'. destruct (decide (q = q')) as [<-|Hne].
    + rewrite lookup_insert_eq in Hq'. injection Hq' as <-. cbn. by rewrite Ha.
    + rewrite lookup_insert_ne in Hq' by done. by apply (Hj Ha q').
Qed.

Lemma resolveEntry_listening cfg env entry :
  keyedByValue cfg -> inv (listening cfg) (resolveEntry env entry).
Proof.
  intros Hkv s Hs. pose proof Hs as (Hcfg & _).
  assert (Hmember : listening cfg (post (resolveMember env (opt_config s) entry s))).
  { unfold resolveMember. by destruct (foundMember _ _ _ _). }
  unfold resolveEntry. unfold bind at 1. cbn [gets result post].
  destruct (opt_config s !! entry.1) as [byOption|] eqn:Hd; [|done].
  destruct (byOption !! entry.2) as [option|] eqn:Hv; [|done].
  assert (Hval : value option = entry.2).
  { apply (Hkv (entry.1) byOption); [by rewrite <- Hcfg | done]. }
  assert (Hsel : selectedOption s (entry.1) (value option) = Some option).
  { unfold selectedOption. by rewrite Hd, Hval. }
  unfold resolveThemeOption.
  destruct (media option) as [[[q a] b]|] eqn:Hmedia; [|done].
  destruct (isClient env); [|done].
  unfold bind. cbn.
  destruct (mediaQueryCache s !! q) eqn:Hq; cbn;
    [| destruct (inherited q); cbn];
    destruct (storeSystemOptions s !! entry.1) as [[? ?]|]; cbn;
    first [done | by eapply listening_insert].
Qed.

Lemma listening_abort cfg s : listening cfg s -> listening cfg (abort s).
Proof.
  intros (Hcfg & _). split; [done |]. split; [|done].
  intros q mql d v Hq Hcl. cbn in Hq. rewrite lookup_fmap in Hq.
  destruct (mediaQueryCache s !! q); [|done]. injection Hq as <-. done.
Qed.

Lemma perform_listening cfg c s :
  keyedByValue cfg -> listening cfg s -> listening cfg (perform c s).
Proof.
  intros Hkv. apply (perform_inv (listening cfg)).
  destruct c;
    cbv beta delta [getResolvedThemes resolveThemes notify callListener setThemesAndNotify
                    setThemes getStateToPersist updateSystemOption restore restoreResume
                    subscribe unsubscribe sync cancelSync watchEvent syncHandler
                    mediaChange onChange _destroy];
    repeat first [ by apply resolveEntry_listening
                 | by apply listening_abort
                 | inv_step | progress cbv zeta ];
    assumption.
Qed.

Lemma construct_listening o s : construct o = Ok s -> listening (opt_config s) s.
Proof.
  intros Hs. destruct (construct_fresh o s Hs) as (_ & _ & _ & _ & Hcache & _).
  split; [done |]. split.
  - intros q mql d v Hq. by rewrite Hcache, lookup_empty in Hq.
  - intros _ q mql Hq. by rewrite Hcache, lookup_empty in Hq.
Qed.

Lemma queryUses_elem config k d od q a b :
  (k, d) ∈ config -> od ∈ options d -> media (declaredOption od) = Some (q, a, b) ->
  (q, (k, optionValue od)) ∈ queryUses config.
Proof.
  intros Hin Hod Hmedia. unfold queryUses.
  apply list_elem_of_In, in_flat_map. exists (k, d).
  split; [by apply list_elem_of_In |].
  apply list_elem_of_In, list_elem_of_omap. exists od. split; [done |].
  cbn. by rewrite Hmedia.
Qed.

Lemma construct_distinctQueries o s d v o1 a b d' v' o2 a' b' q :
  construct o = Ok s -> distinctQueries (o_config o) = true ->
  selectedOption s d v = Some o1 -> media o1 = Some (q, a, b) ->
  selectedOption s d' v' = Some o2 -> media o2 = Some (q, a', b') ->
  d = d' /\ v = v'.
Proof.
  intros Hs Hdq H1 Hm1 H2 Hm2.
  destruct (construct_fresh o s Hs) as (_ & _ & _ & _ & _ & Hcfg).
  apply bool_decide_eq_true in Hdq.
  unfold selectedOption in H1, H2. rewrite Hcfg in H1, H2.
  destruct ((keyConfig (o_initialState o) (o_config o)).1 !! d) as [by1|] eqn:Hd;
    [|done].
  destruct ((keyConfig (o_initialState o) (o_config o)).1 !! d') as [by2|] eqn:Hd';
    [|done].
  destruct (keyConfig_sound _ _ _ _ _ _ Hd H1) as (decl1 & od1 & Hin1 & Hod1 & <- & <-).
  destruct (keyConfig_sound _ _ _ _ _ _ Hd' H2) as (decl2 & od2 & Hin2 & Hod2 & <- & <-).
  pose proof (queryUses_elem _ _ _ _ _ _ _ Hin1 Hod1 Hm1) as Hu1.
  pose proof (queryUses_elem _ _ _ _ _ _ _ Hin2 Hod2 Hm2) as Hu2.
  pose proof (NoDup_fst_functional _ _ _ _ Hdq Hu1 Hu2) as Heq.
  by injection Heq.
Qed.

(** X20.  When no media query is named by two options, a flip of a query
    the store has evaluated is noticed exactly when it matters.  In every
    store reached from its construction and not destroyed: if the selected
    option of some dimension names the query, the flip runs one notification
    pass, which leaves the selection as it is: when the selection resolves
    in the new environment the pass calls every subscriber once, in order,
    with the selection and the themes so resolved, and when it does not the
    pass calls nobody; either way the handler's exception, if any, does not
    reach the code around it.  If no selected option names the query, the
    flip does nothing. *)
Theorem flip_noticed o s cs env q :
  construct o = Ok s -> distinctQueries (o_config o) = true ->
  let t := runCalls cs s in
  aborted t = false -> is_Some (mediaQueryCache t !! q) ->
  (forall d v option a b,
     currentThemes t !! d = Some v -> selectedOption t d v = Some option ->
     media option = Some (q, a, b) ->
     currentThemes (post (flip env q t)) = currentThemes t /\
     notifications (trace (flip env q t)) =
       passCalls (flipEnv q env) (currentThemes t) (listeners t)
         (post (flip env q t)) /\
     result (flip env q t) = Ok tt) /\
  ((forall d v option a b,
      currentThemes t !! d = Some v -> selectedOption t d v = Some option ->
      media option <> Some (q, a, b)) ->
   flip env q t = mkOutcome t [] (Ok tt)).
Proof.
  intros Hs Hdq t Halive [mql Hq].
  assert (Hfixed : fixedFields t = fixedFields s).
  { apply (runCalls_inv (fun s' => fixedFields s' = fixedFields s) (fun _ => true));
      [| by apply forallb_forall | done].
    intros c s' _. apply perform_fixedFields. }
  assert (Hcfg : opt_config t = opt_config s) by (by injection Hfixed).
  assert (Hkv : keyedByValue (opt_config s)).
  { destruct (construct_fresh o s Hs) as (_ & _ & _ & _ & _ & ->). apply keyConfig_keyed. }
  assert (Hl : listening (opt_config s) t).
  { apply (runCalls_inv (listening (opt_config s)) (fun _ => true));
      [| by apply forallb_forall | by apply (construct_listening o)].
    intros c s' _. by apply perform_listening. }
  destruct Hl as (_ & Htr & Hj).
  destruct (Hj Halive q mql Hq) as [[d0 v0] Hcl].
  destruct (Htr q mql d0 v0 Hq Hcl) as (option0 & a0 & b0 & Hsel0 & Hmedia0).
  assert (Hrun : flip env q t =
                 detached (onChange (flipEnv q env) (d0, v0)) t).
  { unfold flip. rewrite mediaChange_run, Hq. destruct mql as [m [cl|]]; [|done].
    cbn in Hcl. by injection Hcl as ->. }
  assert (Hsame : forall d v, selectedOption t d v = selectedOption s d v).
  { intros d v. unfold selectedOption. by rewrite Hcfg. }
  split.
  - intros d v option a b Hd Hsel Hmedia.
    rewrite Hsame in Hsel, Hsel0.
    destruct (construct_distinctQueries o s d v option a b d0 v0 option0 a0 b0 q
                Hs Hdq Hsel Hmedia Hsel0 Hmedia0) as (<- & <-).
    rewrite Hrun. unfold detached. rewrite onChange_run. cbn [fst snd].
    rewrite bool_decide_eq_true_2 by done. cbn [post trace result].
    destruct (notify_frame (flipEnv q env) t) as (Hf & _).
    destruct (frame_fields _ _ Hf) as (Hcur & _). split; [done |].
    by destruct (notify_pass (flipEnv q env) t) as (Hn & _).
  - intros Hnone. rewrite Hrun. unfold detached. rewrite onChange_run. cbn [fst snd].
    rewrite bool_decide_eq_false_2; [done |].
    intros Hd. by apply (Hnone d0 v0 option0 a0 b0 Hd Hsel0).
Qed.

(** X20 at the running example: the system colour scheme, one subscriber,
    the preference turning to dark. *)
Lemma flip_noticed_witness :
  let cs := [ CallSubscribe lightEnv 7 true ] in
  construct demoOptions = Ok demoStore /\
  distinctQueries demoConfig = true /\
  notifications (trace (flip lightEnv darkQuery (runCalls cs demoStore))) =
    [ (7, {[ "colorScheme" := "system"; "contrast" := "standard" ]},
          (defined {[ "colorScheme" := "dark"; "contrast" := "standard" ]})) ].
Proof.
  intros cs.
  assert (Hs : construct demoOptions = Ok demoStore) by (vm_compute; reflexivity).
  assert (Hdq : distinctQueries (o_config demoOptions) = true) by (vm_compute; reflexivity).
  split; [exact Hs |]. split; [exact Hdq |].
  destruct (flip_noticed demoOptions demoStore cs lightEnv darkQuery Hs Hdq)
    as (Hflip & _); [reflexivity | by eexists |].
  destruct (Hflip "colorScheme" "system"
              (mkOption "system" (Some (darkQuery, "dark", "light"))) "dark" "light"
              eq_refl eq_refl eq_refl) as (_ & Hn & _).
  rewrite Hn. vm_compute. reflexivity.
Defined.

(** ** [sync] and its handlers *)

Lemma sync_run s :
  sync s =
    if has_watch (storage s) then
      mkOutcome
        (with_watch (if aborted s then watchSubs s else watchSubs s ++ [watchSeq s])
           (S (watchSeq s)) s)
        [Watch (watchSeq s)] (Ok (Some (watchSeq s)))
    else mkOutcome s [Warn noWatchWarning] (Ok None).
Proof. unfold sync. unfold bind. cbn. by destruct (has_watch (storage s)). Qed.

Lemma cancelSync_run sub s :
  cancelSync sub s =
    mkOutcome (with_watch (setDelete sub (watchSubs s)) (watchSeq s) s) [] (Ok tt).
Proof. done. Qed.

Lemma setDelete_fresh x l : x ∉ l -> setDelete x (l ++ [x]) = l.
Proof.
  unfold setDelete. induction l as [|y l IH]; intros Hx.
  - change ([] ++ [x]) with [x]. rewrite filter_cons_False; [done |].
    intros H. by apply H.
  - apply not_elem_of_cons in Hx as [Hne Hx].
    rewrite <- app_comm_cons, filter_cons_True by done. by rewrite IH.
Qed.

Lemma sync_handlesFresh : inv handlesFresh sync.
Proof.
  intros s (Hnd & Hlt & Hdead). rewrite sync_run.
  destruct (has_watch (storage s)); [|done]. cbn [post].
  unfold handlesFresh. cbn [watchSubs watchSeq aborted with_watch].
  destruct (aborted s) eqn:Ha.
  - split; [done |]. split; [|done]. intros x Hx. specialize (Hlt x Hx). lia.
  - split; [|split; [|done]].
    + apply NoDup_app. split; [done |]. split; [|apply NoDup_singleton].
      intros x Hx ->%list_elem_of_singleton. specialize (Hlt _ Hx). lia.
    + intros x [Hx | ->%list_elem_of_singleton]%elem_of_app; [|lia].
      specialize (Hlt x Hx). lia.
Qed.

Lemma cancelSync_handlesFresh sub : inv handlesFresh (cancelSync sub).
Proof.
  intros s (Hnd & Hlt & Hdead). rewrite cancelSync_run. cbn [post].
  split; [by apply setDelete_NoDup |]. split; cbn.
  - intros x [_ Hx]%setDelete_elem. by apply Hlt.
  - intros Ha. by rewrite (Hdead Ha).
Qed.

Lemma perform_handlesFresh c s : handlesFresh s -> handlesFresh (perform c s).
Proof.
  apply (perform_inv handlesFresh).
  destruct c; try apply sync_handlesFresh; try apply cancelSync_handlesFresh;
    inv_methods; try assumption.
  all: match goal with
       | H : handlesFresh _ |- _ => destruct H as (? & ? & ?)
       end; split; [apply NoDup_nil_2 |]; split; [|done];
       by intros x ?%elem_of_nil.
Qed.

(** X21.  [sync] and the function it returns.  In every store reached from
    its construction: without a [watch] method the backend is not asked,
    [sync] warns and returns nothing; with one, [sync] attaches one more
    handler, beside those attached before, unless the store is destroyed,
    and the function it returns detaches that handler and no other, so that
    cancelling right away leaves the handlers as they were. *)
Theorem sync_then_cancel o s cs :
  construct o = Ok s ->
  let t := runCalls cs s in
  (has_watch (storage t) = false ->
     sync t = mkOutcome t [Warn noWatchWarning] (Ok None)) /\
  (has_watch (storage t) = true ->
     exists handle,
       result (sync t) = Ok (Some handle) /\
       (handle ∉ watchSubs t) /\
       watchSubs (post (sync t)) =
         (if aborted t then [] else watchSubs t ++ [handle]) /\
       watchSubs (post (cancelSync handle (post (sync t)))) = watchSubs t).
Proof.
  intros Hs t.
  assert (Hfresh : handlesFresh t).
  { apply (runCalls_inv handlesFresh (fun _ => true)); [| by apply forallb_forall |].
    - intros c s' _. apply perform_handlesFresh.
    - destruct (construct_fresh o s Hs) as (_ & Ha & _ & Hw & _).
      unfold handlesFresh. rewrite Hw, Ha. split; [apply NoDup_nil_2 |].
      split; [by intros x ?%elem_of_nil | done]. }
  destruct Hfresh as (Hnd & Hlt & Hdead).
  rewrite sync_run. split; [by intros -> |]. intros ->.
  exists (watchSeq t). cbn [result post].
  assert (Hnew : watchSeq t ∉ watchSubs t).
  { intros Hin. specialize (Hlt _ Hin). lia. }
  split; [done |]. split; [done |].
  rewrite cancelSync_run. cbn [post watchSubs with_watch].
  destruct (aborted t) eqn:Ha.
  - rewrite (Hdead eq_refl). done.
  - split; [done |]. by apply setDelete_fresh.
Qed.

(** X21 at the running example. *)
Lemma sync_then_cancel_witness :
  construct demoOptions = Ok demoStore /\
  watchSubs (post (sync (runCalls [CallSync] demoStore))) = [0; 1] /\
  watchSubs (post (cancelSync 1 (post (sync (runCalls [CallSync] demoStore))))) = [0].
Proof.
  assert (Hs : construct demoOptions = Ok demoStore) by (vm_compute; reflexivity).
  split; [exact Hs |].
  destruct (proj2 (sync_then_cancel demoOptions demoStore [CallSync] Hs) eq_refl)
    as (handle & Hr & _ & Hsubs & Hcancel).
  assert (handle = 1) as -> by (vm_compute in Hr; congruence).
  split; [exact Hsubs | exact Hcancel].
Defined.

(** *** One pass per attached handler *)

Lemma synced_frame p s s' : frame s s' -> frame (synced p s) (synced p s').
Proof. intros [c ->]. by exists c. Qed.

Lemma synced_synced p s c : synced p (with_cache c (synced p s)) = with_cache c (synced p s).
Proof. done. Qed.

Lemma passCalls_frame env t ls s s' :
  frame s s' -> passCalls env t ls s' = passCalls env t ls s.
Proof.
  intros Hf. unfold passCalls.
  by rewrite !getResolvedThemes_result, (frame_resolution env _ _ Hf).
Qed.

Lemma forM_syncHandler env p (subs : list nat) s :
  let o := forM_ subs (fun _ => detached (syncHandler env (Some (opt_key s)) p)) s in
  notifications (trace o) =
    mjoin (replicate (length subs)
             (passCalls env (themes p) (listeners s) (synced p s))) /\
  result o = Ok tt /\
  (subs <> [] -> frame (synced p s) (post o)).
Proof.
  revert s. induction subs as [|x subs IH]; intros s; cbn [forM_ length replicate].
  { by split. }
  assert (Hrun : detached (syncHandler env (Some (opt_key s)) p) s =
                 mkOutcome (post (notify env (synced p s)))
                   (trace (notify env (synced p s))) (Ok tt)).
  { unfold detached. rewrite syncHandler_run.
    by rewrite bool_decide_eq_true_2 by done. }
  destruct (notify_frame env (synced p s)) as (Hf & _).
  destruct (notify_pass env (synced p s)) as (Hn & _).
  rewrite (passCalls_frame env _ _ _ _ Hf) in Hn.
  rewrite (bind_ok _ _ _ tt) by (by rewrite Hrun). rewrite Hrun.
  cbn [post trace result].
  set (s1 := post (notify env (synced p s))) in *.
  destruct (frame_fields _ _ Hf) as (_ & _ & Hls & _ & _ & Hkey & _).
  cbn in Hls, Hkey.
  assert (Hs1 : synced p s1 = s1).
  { destruct Hf as [c Hc]. rewrite Hc. apply synced_synced. }
  destruct (IH s1) as (Hn1 & Hr1 & Hf1).
  rewrite Hkey, Hls, Hs1, (passCalls_frame env _ _ _ _ Hf) in Hn1.
  rewrite Hkey in Hf1, Hr1.
  rewrite notifications_app, Hn, Hn1. cbn [mjoin list_join].
  split; [done |]. split; [done |].
  intros _. destruct subs as [|y subs]; [done |].
  rewrite Hs1 in Hf1. eapply frame_trans; [exact Hf |]. by apply Hf1.
Qed.

(** X22.  [sync] is not idempotent: every handler still attached answers an
    external storage event for the store's key with a notification pass of
    its own.  With n handlers attached the event runs n passes: when the
    selection of the event resolves, each subscriber is called n times,
    every time with the themes of the event and their resolution, and when
    it does not resolve nobody is called; no exception of a handler reaches
    the backend that delivers the event.  With no handler attached the event
    does nothing. *)
Theorem watchEvent_passes env p s :
  let o := watchEvent env (Some (opt_key s)) p s in
  notifications (trace o) =
    mjoin (replicate (length (watchSubs s))
             (passCalls env (themes p) (listeners s) (synced p s))) /\
  result o = Ok tt /\
  (watchSubs s = [] -> o = mkOutcome s [] (Ok tt)).
Proof.
  intros o. unfold o, watchEvent. unfold bind at 1 2 3. cbn [gets result post trace app].
  destruct (forM_syncHandler env p (watchSubs s) s) as (Hn & Hr & _).
  split; [| split].
  - by destruct (forM_ _ _ s).
  - by destruct (forM_ _ _ s).
  - by intros ->.
Qed.

(** X22 at the running example: [sync] called twice, one subscriber; an
    event whose selection resolves, and one whose selection does not. *)
Lemma watchEvent_passes_witness :
  let t := runCalls [CallSubscribe lightEnv 7 false; CallSync; CallSync] demoStore in
  let r : Resolved := defined {[ "colorScheme" := "dark-modern"; "contrast" := "high" ]} in
  notifications (trace (watchEvent darkEnv (Some "palettez") modernState t)) =
    [ (7, themes modernState, r); (7, themes modernState, r) ] /\
  notifications (trace (watchEvent darkEnv (Some "palettez") sepiaState t)) = [] /\
  result (watchEvent darkEnv (Some "palettez") sepiaState t) = Ok tt.
Proof.
  intros t r.
  destruct (watchEvent_passes darkEnv modernState t) as (Hmodern & _).
  destruct (watchEvent_passes darkEnv sepiaState t) as (Hsepia & Hres & _).
  split; [exact Hmodern |]. split; [exact Hsepia | exact Hres].
Defined.

(** ** [setThemes] with a selection that does not resolve *)

(** X23.  [setThemes] does not validate.  When the merged selection does not
    resolve (a dimension or a value the configuration does not have, or a
    missing override pair), the selection is assigned all the same.  With a
    subscriber, the first listener call throws a TypeError out of
    [setThemes]: no subscriber is called and nothing is persisted or
    broadcast.  Without subscribers nothing is resolved, so the call goes
    through and the selection is persisted as it is. *)
Theorem setThemes_unresolvable env arg settled s e :
  resolution env (with_currentThemes (mergedThemes arg s) s) = Throw e ->
  let o := setThemes env arg settled s in
  currentThemes (post o) = mergedThemes arg s /\
  (listeners s <> [] ->
     result o = Throw TypeError /\ notifications (trace o) = [] /\
     storageCalls (trace o) = []) /\
  (listeners s = [] ->
     notifications (trace o) = [] /\
     exists rest,
       storageCalls (trace o) =
         SetItem (opt_key s) (mkPersisted 1 (mergedThemes arg s) (storeSystemOptions s))
           :: rest).
Proof.
  intros Hres o.
  destruct (frame_fields _ _ (setThemes_post env arg settled s)) as (Hcur & _).
  split; [exact Hcur |]. unfold o. rewrite setThemes_run, setThemesAndNotify_eq.
  set (s' := with_currentThemes (mergedThemes arg s) s) in *. split.
  - intros Hls. destruct (notify_throw env s' e Hres Hls) as (Hthrow & _ & Hq1 & Hq2).
    rewrite Hthrow. cbn [result trace].
    by rewrite (resolution_error env s' e Hres).
  - intros Hls. rewrite (notify_nobody env s' Hls). cbn [result trace app].
    destruct settled as [[]|reason]; cbn [trace].
    + destruct (has_broadcast (storage s)); split; try done; by eexists.
    + split; [done |]. by eexists.
Qed.

(** X23 at the running example: a colour scheme the configuration does not
    have, with and without a subscriber. *)
Lemma setThemes_unresolvable_witness :
  result (setThemes lightEnv sepia (Fulfilled tt) watchedStore) = Throw TypeError /\
  storageCalls (trace (setThemes lightEnv sepia (Fulfilled tt) watchedStore)) = [] /\
  currentThemes (post (setThemes lightEnv sepia (Fulfilled tt) watchedStore))
    !! "colorScheme" = Some "sepia".
Proof.
  destruct (setThemes_unresolvable lightEnv sepia (Fulfilled tt) watchedStore TypeError)
    as (Hcur & Hthrow & _); [vm_compute; reflexivity |].
  destruct Hthrow as (Hr & _ & Hcalls); [discriminate |].
  split; [exact Hr |]. split; [exact Hcalls |].
  rewrite Hcur. reflexivity.
Defined.

(** ** Each media query is registered once *)

Lemma registrations_app t1 t2 :
  registrations (t1 ++ t2) = registrations t1 ++ registrations t2.
Proof. apply omap_app. Qed.

Lemma registersNew_refl s : registersNew s [] s.
Proof.
  split; [apply NoDup_nil_2 |]. split; [|done]. by intros q ?%elem_of_nil.
Qed.

Lemma registersNew_trans s1 t1 s2 t2 s3 :
  registersNew s1 t1 s2 -> registersNew s2 t2 s3 -> registersNew s1 (t1 ++ t2) s3.
Proof.
  intros (Hnd1 & Hnew1 & Hkeep1) (Hnd2 & Hnew2 & Hkeep2).
  unfold registersNew. rewrite registrations_app. split; [|split].
  - apply NoDup_app. split; [done |]. split; [|done].
    intros q Hq1 Hq2. destruct (Hnew1 q Hq1) as [_ [x Hx]].
    destruct (Hnew2 q Hq2) as [Hnone _]. congruence.
  - intros q [Hq | Hq]%elem_of_app.
    + destruct (Hnew1 q Hq) as [Hnone Hsome]. split; [done | by apply Hkeep2].
    + destruct (Hnew2 q Hq) as [Hnone Hsome]. split; [|done].
      destruct (mediaQueryCache s1 !! q) eqn:Hq1; [|done].
      destruct (Hkeep1 q) as [x Hx]; [by eexists | congruence].
  - intros q Hq. by apply Hkeep2, Hkeep1.
Qed.

Lemma registering_pure {A} (m : M A) :
  (forall s, trace (m s) = []) ->
  (forall s q, is_Some (mediaQueryCache s !! q) ->
               is_Some (mediaQueryCache (post (m s)) !! q)) ->
  registering m.
Proof.
  intros Ht Hc s. rewrite Ht. split; [apply NoDup_nil_2 |].
  split; [by intros q ?%elem_of_nil | apply Hc].
Qed.

Lemma registering_emit e :
  match e with MatchMedia _ => False | _ => True end -> registering (emit e).
Proof.
  intros He s. cbn. destruct e; try done; cbn;
    (split; [apply NoDup_nil_2 |]; split; [by intros q ?%elem_of_nil | done]).
Qed.

Lemma registering_bind {A B} (m : M A) (k : A -> M B) :
  registering m -> (forall a, registering (k a)) -> registering (bind m k).
Proof.
  intros Hm Hk s. unfold bind. specialize (Hm s).
  destruct (result (m s)) as [a|e]; cbn [post trace]; [|done].
  eapply registersNew_trans; [exact Hm | apply Hk].
Qed.

Lemma registering_mapM {A B} (f : A -> M B) l :
  (forall x, registering (f x)) -> registering (mapM f l).
Proof.
  intros Hf. induction l as [|x l IH]; cbn [mapM]; [by apply registering_pure |].
  apply registering_bind; [done |]. intros y.
  apply registering_bind; [done |]. intros ys. by apply registering_pure.
Qed.

Lemma registering_forM_ {A} (f : A -> M unit) l :
  (forall x, registering (f x)) -> registering (forM_ l f).
Proof.
  intros Hf. induction l as [|x l IH]; cbn [forM_]; [by apply registering_pure |].
  apply registering_bind; [done |]. by intros _.
Qed.

Lemma registering_detached m : registering m -> registering (detached m).
Proof. intros Hm s. unfold detached. cbn [post trace]. apply Hm. Qed.

Lemma registersNew_insert s q mql :
  mediaQueryCache s !! q = None ->
  registersNew s [MatchMedia q] (with_cache (<[q := mql]> (mediaQueryCache s)) s).
Proof.
  intros Hq. split; [apply NoDup_singleton |]. split.
  - intros q' ->%list_elem_of_singleton. split; [done |].
    cbn. rewrite lookup_insert_eq. by eexists.
  - intros q' Hq'. cbn. destruct (decide (q = q')) as [<-|Hne].
    + rewrite lookup_insert_eq. by eexists.
    + by rewrite lookup_insert_ne.
Qed.

Lemma registering_resolveThemeOption env themeKey option :
  registering (resolveThemeOption env themeKey option).
Proof.
  intros s. unfold resolveThemeOption.
  destruct (media option) as [[[q a] b]|]; [|apply registersNew_refl].
  destruct (isClient env); cbn [negb].
  - unfold bind. cbn.
    destruct (mediaQueryCache s !! q) as [mql|] eqn:Hq; cbn;
      [| destruct (inherited q); cbn];
      destruct (storeSystemOptions s !! themeKey) as [[? ?]|]; cbn;
      first [apply registersNew_refl | by apply registersNew_insert].
  - unfold bind. cbn. split; [apply NoDup_nil_2 |].
    split; [by intros q' ?%elem_of_nil | done].
Qed.

Ltac registering_step :=
  match goal with
  | |- registering (resolveThemeOption _ _ _) => apply registering_resolveThemeOption
  | |- registering (bind _ _) => apply registering_bind; [| intros ?]
  | |- registering (emit _) => apply registering_emit; exact I
  | |- registering (mapM _ _) => apply registering_mapM; intros ?
  | |- registering (forM_ _ _) => apply registering_forM_; intros ?
  | |- registering (detached _) => apply registering_detached
  | |- registering (match ?x with _ => _ end) => destruct x
  | |- registering (if ?x then _ else _) => destruct x
  | |- registering _ => apply registering_pure; [done |]
  end.

Lemma perform_registersNew c s : registersNew s (traceOf c s) (perform c s).
Proof.
  assert (Hkeep : forall g : ThemeStore -> ThemeStore,
            (forall s, mediaQueryCache (g s) = mediaQueryCache s) ->
            forall s q, is_Some (mediaQueryCache s !! q) ->
                        is_Some (mediaQueryCache (post (modify g s)) !! q)).
  { intros g Hg s' q. cbn. by rewrite Hg. }
  assert (Habort : forall s q, is_Some (mediaQueryCache s !! q) ->
                               is_Some (mediaQueryCache (post (modify abort s)) !! q)).
  { intros s' q [x Hx]. cbn. rewrite lookup_fmap, Hx. by eexists. }
  destruct c; cbn [traceOf perform];
    match goal with
    | |- registersNew _ (trace (?m _)) _ => revert s; change (registering m)
    end;
    cbv beta delta [getResolvedThemes resolveThemes resolveEntry resolveMember
                    notify callListener setThemesAndNotify setThemes getStateToPersist
                    updateSystemOption restore restoreResume subscribe unsubscribe
                    sync cancelSync watchEvent syncHandler mediaChange onChange
                    _destroy];
    repeat first [registering_step | progress cbv zeta];
    first [by apply Hkeep | apply Habort | done].
Qed.

(** X24.  Over the whole life of a store, whatever is called and whatever
    happens, [window.matchMedia] is called at most once for each media
    query, and never for a query the cache already holds; a query once
    cached stays cached, also when the store is destroyed.  So at most one
    [change] listener is ever attached per media query. *)
Theorem matchMedia_once cs s :
  NoDup (registrations (history cs s)) /\
  (forall q, q ∈ registrations (history cs s) ->
     mediaQueryCache s !! q = None /\ is_Some (mediaQueryCache (runCalls cs s) !! q)) /\
  (forall q, is_Some (mediaQueryCache s !! q) ->
     is_Some (mediaQueryCache (runCalls cs s) !! q)).
Proof.
  change (registersNew s (history cs s) (runCalls cs s)).
  revert s. induction cs as [|c cs IH]; intros s; [apply registersNew_refl |].
  cbn [history runCalls foldl].
  eapply registersNew_trans; [apply perform_registersNew | apply IH].
Qed.
